(** * Traced graph search (ABD.py): DFS, BFS and A-star with trace collection

    A shallow embedding of [dfs_collect_trace], [bfs_collect_trace] and
    [astar_collect_trace] of [src/ABD.py], and the properties of the
    specification that concern them.

    Modelling choices.
    - The graph is a Python dict of dicts.  The outer dict is only ever
      indexed ([graph[current_node]]), so it is a [gmap]; the inner dict is
      iterated in insertion order ([.items()]), so it is the list of its
      items in that order.
    - The heuristic table is only indexed: a [gmap].
    - Weights, costs and heuristic values are Python integers: [Z].
    - A missing dict key raises [KeyError]; outcomes are therefore either a
      returned tuple or a raised exception, the latter together with the
      trace records that had been appended when it was raised.
    - [time.time()] is read twice per call; the two readings are inputs of
      the model (integer ticks), the elapsed time is their difference.
    - A step index is an integer [n] or [n + 0.5].
    - The f-string messages are kept as their template and arguments.
    - [heapq] is the binary heap of CPython's [Lib/heapq.py], on a list.
    - Strings are compared byte by byte ([String.ltb]), which is the order
      of Python on code points for UTF-8 text.
    - In A-star the list [neighbors_added] is only counted, so it is a
      counter here.
    - The [while] loops are iterated with fuel; [search_fuel] is shown to
      be enough for every input. *)

From stdpp Require Import base strings gmap list.
From Stdlib Require Import ZArith Lia.

Local Open Scope Z_scope.
#[local] Set Warnings "-clear-no-such-hyp".

(** ** Data model *)

(** The inner dict [graph[u]]: its items in insertion order. *)
Abbreviation Adj := (list (string * Z)).
Abbreviation Graph := (gmap string (list (string * Z))).
Abbreviation Heuristic := (gmap string Z).

Inductive exn := KeyError (key : string).

(** [Whole n] is the step index [n], [Half n] is [n + 0.5]. *)
Inductive step_ix := Whole (n : nat) | Half (n : nat).

(** The f-strings of the trace records. *)
Inductive message :=
| MsgStarting (algo : string) (start goal : string)
| MsgPopped (current : string)
| MsgDequeued (current : string)
| MsgPoppedF (current : string) (f g h : Z)
| MsgGoal (goal : string) (cost : Z)
| MsgOptimal (cost : Z)
| MsgAdded (neighbors_added : list string)
| MsgAddedCount (n : nat).

(** One trace record; [O] is the type of the items of the ['open']
    snapshot (node names for DFS and BFS, pairs [(f, n)] for A-star), [t_f] is
    the ['f'] key, present in the records of A-star only. *)
Record TraceRec (O : Type) := mkRec {
  t_step : step_ix;
  t_current : option string;
  t_path : list string;
  t_cost : Z;
  t_f : option Z;
  t_open : list O;
  t_closed : gset string;
  t_action : string;
  t_message : message
}.
Arguments mkRec {O}.
Arguments t_step {O}. Arguments t_current {O}. Arguments t_path {O}.
Arguments t_cost {O}. Arguments t_f {O}. Arguments t_open {O}.
Arguments t_closed {O}. Arguments t_action {O}. Arguments t_message {O}.

(** The returned tuple
    [(path, cost, nodes_expanded, step, execution_time, trace)];
    [None] for Python's [None]. *)
Record Result (O : Type) := mkResult {
  r_path : option (list string);
  r_cost : option Z;
  r_nodes_expanded : nat;
  r_steps : nat;
  r_time : Z;
  r_trace : list (TraceRec O)
}.
Arguments mkResult {O}.
Arguments r_path {O}. Arguments r_cost {O}. Arguments r_nodes_expanded {O}.
Arguments r_steps {O}. Arguments r_time {O}. Arguments r_trace {O}.

Inductive Outcome (O : Type) :=
| Returned (r : Result O)
| Raised (e : exn) (emitted : list (TraceRec O)).
Arguments Returned {O}. Arguments Raised {O}.

(** The local variables of a search loop; [E] is the type of the frontier
    entries. *)
Record State (E O : Type) := mkState {
  st_open : list E;
  closed_set : gset string;
  trace : list (TraceRec O);
  nodes_expanded : nat;
  step : nat
}.
Arguments mkState {E O}.
Arguments st_open {E O}. Arguments closed_set {E O}. Arguments trace {E O}.
Arguments nodes_expanded {E O}. Arguments step {E O}.

(** ** The loop *)

(** [while ...: body], with fuel: [body] either goes round again with a new
    state or leaves the function. *)
Fixpoint iterate {S R : Type} (body : S → S + R) (fuel : nat) (s : S) : option R :=
  match fuel with
  | O => None
  | S k => match body s with
           | inl s' => iterate body k s'
           | inr r => Some r
           end
  end.

(** Fuel that is enough for every search on [g]. *)
(** The number of items of the inner dicts of the nodes outside [closed]. *)
Definition remaining (g : Graph) (closed : gset string) : nat :=
  map_fold (λ u adj n, if decide (u ∈ closed) then n else (length adj + n)%nat) O g.

(** Fuel that is enough for every search on [g]: one round per frontier
    entry ever pushed, and the round that finds the frontier empty. *)
Definition search_fuel (g : Graph) : nat := S (S (remaining g ∅)).

(** ** Depth-first search *)

Definition dfs_entry : Type := string * list string * Z.

(** [open_list.pop()] *)
Definition list_pop {A} (l : list A) : option (A * list A) :=
  match reverse l with
  | [] => None
  | x :: r => Some (x, reverse r)
  end.

(** The [for neighbor, weight in ...] loop of DFS and BFS over [items]. *)
Fixpoint push_neighbors (closed : gset string) (path : list string) (cost : Z)
    (items : list (string * Z)) (open_list : list dfs_entry) (neighbors_added : list string)
    : list dfs_entry * list string :=
  match items with
  | [] => (open_list, neighbors_added)
  | (neighbor, weight) :: rest =>
      if decide (neighbor ∈ closed)
      then push_neighbors closed path cost rest open_list neighbors_added
      else push_neighbors closed path cost rest
             (open_list ++ [(neighbor, path ++ [neighbor], cost + weight)])
             (neighbors_added ++ [neighbor])
  end.

Definition dfs_init (start goal : string) : State dfs_entry string :=
  {| st_open := [(start, [start], 0)];
     closed_set := ∅;
     trace := [ mkRec (Whole 0) None [] 0 None [start] ∅ "Initialize"
                  (MsgStarting "DFS" start goal) ];
     nodes_expanded := 0;
     step := 0 |}.

Definition dfs_body (graph : Graph) (goal : string) (start_time end_time : Z)
    (st : State dfs_entry string) : State dfs_entry string + Outcome string :=
  match list_pop (st_open st) with
  | None =>
      inr (Returned (mkResult None None (nodes_expanded st) (step st)
                       (end_time - start_time) (trace st)))
  | Some ((current_node, path, cost), open_list) =>
      let step' := S (step st) in
      let trace1 := trace st ++
        [ mkRec (Whole step') (Some current_node) path cost None
            (fst ∘ fst <$> open_list) (closed_set st) "Pop from Stack"
            (MsgPopped current_node) ] in
      if decide (current_node = goal) then
        inr (Returned (mkResult (Some path) (Some cost) (nodes_expanded st) step'
               (end_time - start_time)
               (trace1 ++
                 [ mkRec (Half step') (Some current_node) path cost None
                     (fst ∘ fst <$> open_list) (closed_set st) "GOAL FOUND!"
                     (MsgGoal goal cost) ])))
      else if decide (current_node ∈ closed_set st) then
        inl (mkState open_list (closed_set st) trace1 (nodes_expanded st) step')
      else
        let closed' := {[current_node]} ∪ closed_set st in
        match graph !! current_node with
        | None => inr (Raised (KeyError current_node) trace1)
        | Some adj =>
            let '(open_list', neighbors_added) :=
              push_neighbors closed' path cost (reverse adj) open_list [] in
            let trace2 :=
              match neighbors_added with
              | [] => trace1
              | _ => trace1 ++
                  [ mkRec (Half step') (Some current_node) path cost None
                      (fst ∘ fst <$> open_list') closed' "Expand"
                      (MsgAdded neighbors_added) ]
              end in
            inl (mkState open_list' closed' trace2 (S (nodes_expanded st)) step')
        end
  end.

Definition dfs_collect_trace (graph : Graph) (start goal : string)
    (start_time end_time : Z) : option (Outcome string) :=
  iterate (dfs_body graph goal start_time end_time) (search_fuel graph)
    (dfs_init start goal).

(** ** Breadth-first search *)

(** [<] on the items [(neighbor, weight)] of a dict, as Python compares
    tuples: by the first components that differ. *)
Definition item_ltb (a b : string * Z) : bool :=
  if String.eqb a.1 b.1 then a.2 <? b.2 else String.ltb a.1 b.1.

Fixpoint sorted_insert (x : string * Z) (l : list (string * Z)) : list (string * Z) :=
  match l with
  | [] => [x]
  | y :: l' => if item_ltb x y then x :: l else y :: sorted_insert x l'
  end.

(** [sorted(...)]: a stable sort; the items of a dict have distinct keys,
    so the result is the one ascending arrangement. *)
Definition sorted (l : list (string * Z)) : list (string * Z) :=
  foldr sorted_insert [] l.

Definition bfs_init (start goal : string) : State dfs_entry string :=
  {| st_open := [(start, [start], 0)];
     closed_set := ∅;
     trace := [ mkRec (Whole 0) None [] 0 None [start] ∅ "Initialize"
                  (MsgStarting "BFS" start goal) ];
     nodes_expanded := 0;
     step := 0 |}.

Definition bfs_body (graph : Graph) (goal : string) (start_time end_time : Z)
    (st : State dfs_entry string) : State dfs_entry string + Outcome string :=
  match st_open st with
  | [] =>
      inr (Returned (mkResult None None (nodes_expanded st) (step st)
                       (end_time - start_time) (trace st)))
  | (current_node, path, cost) :: open_queue =>
      let step' := S (step st) in
      let trace1 := trace st ++
        [ mkRec (Whole step') (Some current_node) path cost None
            (fst ∘ fst <$> open_queue) (closed_set st) "Dequeue"
            (MsgDequeued current_node) ] in
      if decide (current_node = goal) then
        inr (Returned (mkResult (Some path) (Some cost) (nodes_expanded st) step'
               (end_time - start_time)
               (trace1 ++
                 [ mkRec (Half step') (Some current_node) path cost None
                     (fst ∘ fst <$> open_queue) (closed_set st) "GOAL FOUND!"
                     (MsgGoal goal cost) ])))
      else if decide (current_node ∈ closed_set st) then
        inl (mkState open_queue (closed_set st) trace1 (nodes_expanded st) step')
      else
        let closed' := {[current_node]} ∪ closed_set st in
        match graph !! current_node with
        | None => inr (Raised (KeyError current_node) trace1)
        | Some adj =>
            let '(open_queue', neighbors_added) :=
              push_neighbors closed' path cost (sorted adj) open_queue [] in
            let trace2 :=
              match neighbors_added with
              | [] => trace1
              | _ => trace1 ++
                  [ mkRec (Half step') (Some current_node) path cost None
                      (fst ∘ fst <$> open_queue') closed' "Expand"
                      (MsgAdded neighbors_added) ]
              end in
            inl (mkState open_queue' closed' trace2 (S (nodes_expanded st)) step')
        end
  end.

Definition bfs_collect_trace (graph : Graph) (start goal : string)
    (start_time end_time : Z) : option (Outcome string) :=
  iterate (bfs_body graph goal start_time end_time) (search_fuel graph)
    (bfs_init start goal).

(** ** heapq *)

(** [heappush] and [heappop] of CPython's [Lib/heapq.py].  The heap is a
    Python list; [lt] is the [<] of its items.  An index that is out of
    range cannot occur in these functions; the model leaves the list as it
    is there. *)
Section Heapq.
Context {A : Type} (lt : A → A → bool).

(** The [while pos > startpos] loop of [_siftdown]; [pos] decreases at
    every round, so [pos] rounds are enough. *)
Fixpoint siftdown_loop (fuel : nat) (heap : list A) (newitem : A)
    (startpos pos : nat) : list A :=
  match fuel with
  | O => <[pos := newitem]> heap
  | S k =>
      if decide (startpos < pos)%nat then
        let parentpos := ((pos - 1) / 2)%nat in
        match heap !! parentpos with
        | Some parent =>
            if lt newitem parent
            then siftdown_loop k (<[pos := parent]> heap) newitem startpos parentpos
            else <[pos := newitem]> heap
        | None => heap
        end
      else <[pos := newitem]> heap
  end.

Definition _siftdown (heap : list A) (startpos pos : nat) : list A :=
  match heap !! pos with
  | Some newitem => siftdown_loop pos heap newitem startpos pos
  | None => heap
  end.

(** The [while childpos < endpos] loop of [_siftup]: returns the list and
    the position of the leaf that was reached. *)
Fixpoint siftup_loop (fuel : nat) (heap : list A) (endpos pos : nat) : list A * nat :=
  match fuel with
  | O => (heap, pos)
  | S k =>
      let childpos := (2 * pos + 1)%nat in
      if decide (childpos < endpos)%nat then
        let rightpos := (childpos + 1)%nat in
        let childpos' :=
          if decide (rightpos < endpos)%nat then
            match heap !! childpos, heap !! rightpos with
            | Some c, Some r => if lt c r then childpos else rightpos
            | _, _ => childpos
            end
          else childpos in
        match heap !! childpos' with
        | Some child => siftup_loop k (<[pos := child]> heap) endpos childpos'
        | None => (heap, pos)
        end
      else (heap, pos)
  end.

Definition _siftup (heap : list A) (pos : nat) : list A :=
  match heap !! pos with
  | Some newitem =>
      let '(heap', pos') := siftup_loop (length heap) heap (length heap) pos in
      _siftdown (<[pos' := newitem]> heap') pos pos'
  | None => heap
  end.

Definition heappush (heap : list A) (item : A) : list A :=
  _siftdown (heap ++ [item]) 0 (length heap).

Definition heappop (heap : list A) : option (A * list A) :=
  match list_pop heap with
  | None => None
  | Some (lastelt, heap') =>
      match heap' with
      | [] => Some (lastelt, [])
      | returnitem :: _ => Some (returnitem, _siftup (<[0%nat := lastelt]> heap') 0)
      end
  end.
End Heapq.

(** ** A-star *)

(** A heap item [(f, g, node, path)]. *)
Definition astar_entry : Type := Z * Z * string * list string.

(** [<] on lists of strings. *)
Fixpoint path_ltb (p q : list string) : bool :=
  match p, q with
  | [], [] => false
  | [], _ :: _ => true
  | _ :: _, [] => false
  | x :: p', y :: q' => if String.eqb x y then path_ltb p' q' else String.ltb x y
  end.

(** [<] on the heap items: the first components that differ decide. *)
Definition entry_ltb (a b : astar_entry) : bool :=
  let '(f1, g1, n1, p1) := a in
  let '(f2, g2, n2, p2) := b in
  if negb (f1 =? f2) then f1 <? f2
  else if negb (g1 =? g2) then g1 <? g2
  else if negb (String.eqb n1 n2) then String.ltb n1 n2
  else path_ltb p1 p2.

(** The [for neighbor, weight in sorted(...)] loop of A-star; a neighbour
    without a heuristic value raises [KeyError]. *)
Fixpoint astar_push_neighbors (heuristic : Heuristic) (closed : gset string)
    (path : list string) (g_score : Z) (items : list (string * Z))
    (open_pq : list astar_entry) (neighbors_added : nat)
    : exn + list astar_entry * nat :=
  match items with
  | [] => inr (open_pq, neighbors_added)
  | (neighbor, weight) :: rest =>
      if decide (neighbor ∈ closed)
      then astar_push_neighbors heuristic closed path g_score rest open_pq neighbors_added
      else
        let new_g := g_score + weight in
        match heuristic !! neighbor with
        | None => inl (KeyError neighbor)
        | Some h =>
            let new_f := new_g + h in
            astar_push_neighbors heuristic closed path g_score rest
              (heappush entry_ltb open_pq (new_f, new_g, neighbor, path ++ [neighbor]))
              (S neighbors_added)
        end
  end.

(** The ['open'] snapshot [[(f, n) for f, g, n, p in open_pq]]. *)
Definition pq_snapshot (open_pq : list astar_entry) : list (Z * string) :=
  (λ e : astar_entry, (e.1.1.1, e.1.2)) <$> open_pq.

Definition astar_init (start goal : string) (h_start : Z)
    : State astar_entry (Z * string) :=
  {| st_open := [(h_start, 0, start, [start])];
     closed_set := ∅;
     trace := [ mkRec (Whole 0) None [] 0 (Some h_start) [(h_start, start)] ∅
                  "Initialize" (MsgStarting "A*" start goal) ];
     nodes_expanded := 0;
     step := 0 |}.

Definition astar_body (graph : Graph) (goal : string) (heuristic : Heuristic)
    (start_time end_time : Z) (st : State astar_entry (Z * string))
    : State astar_entry (Z * string) + Outcome (Z * string) :=
  match heappop entry_ltb (st_open st) with
  | None =>
      inr (Returned (mkResult None None (nodes_expanded st) (step st)
                       (end_time - start_time) (trace st)))
  | Some ((f_score, g_score, current_node, path), open_pq) =>
      let step' := S (step st) in
      match heuristic !! current_node with
      | None => inr (Raised (KeyError current_node) (trace st))
      | Some h_current =>
        let trace1 := trace st ++
          [ mkRec (Whole step') (Some current_node) path g_score (Some f_score)
              (pq_snapshot open_pq) (closed_set st) "Pop min f(n)"
              (MsgPoppedF current_node f_score g_score h_current) ] in
        if decide (current_node = goal) then
          inr (Returned (mkResult (Some path) (Some g_score) (nodes_expanded st) step'
                 (end_time - start_time)
                 (trace1 ++
                   [ mkRec (Half step') (Some current_node) path g_score (Some f_score)
                       (pq_snapshot open_pq) (closed_set st) "OPTIMAL GOAL!"
                       (MsgOptimal g_score) ])))
        else if decide (current_node ∈ closed_set st) then
          inl (mkState open_pq (closed_set st) trace1 (nodes_expanded st) step')
        else
          let closed' := {[current_node]} ∪ closed_set st in
          match graph !! current_node with
          | None => inr (Raised (KeyError current_node) trace1)
          | Some adj =>
              match astar_push_neighbors heuristic closed' path g_score
                      (sorted adj) open_pq 0 with
              | inl e => inr (Raised e trace1)
              | inr (open_pq', neighbors_added) =>
                  let trace2 :=
                    match neighbors_added with
                    | O => trace1
                    | _ => trace1 ++
                        [ mkRec (Half step') (Some current_node) path g_score
                            (Some f_score) (pq_snapshot open_pq') closed' "Expand"
                            (MsgAddedCount neighbors_added) ]
                    end in
                  inl (mkState open_pq' closed' trace2 (S (nodes_expanded st)) step')
              end
          end
      end
  end.

Definition astar_collect_trace (graph : Graph) (start goal : string)
    (heuristic : Heuristic) (start_time end_time : Z)
    : option (Outcome (Z * string)) :=
  match heuristic !! start with
  | None => Some (Raised (KeyError start) [])
  | Some h_start =>
      iterate (astar_body graph goal heuristic start_time end_time)
        (search_fuel graph) (astar_init start goal h_start)
  end.

(** ** The reference data of the script *)

Definition graph : Graph := list_to_map [
  ("Glogow", [("Leszno", 45); ("Wroclaw", 140)]);
  ("Leszno", [("Glogow", 45); ("Poznan", 90); ("Kalisz", 130)]);
  ("Poznan", [("Leszno", 90); ("Bydgoszcz", 140); ("Konin", 120)]);
  ("Bydgoszcz", [("Poznan", 140); ("Wloclawek", 110)]);
  ("Wloclawek", [("Bydgoszcz", 110); ("Plock", 55)]);
  ("Konin", [("Poznan", 120); ("Lodz", 120)]);
  ("Kalisz", [("Leszno", 130); ("Lodz", 120); ("Czestochowa", 160)]);
  ("Lodz", [("Konin", 120); ("Kalisz", 120); ("Warsaw", 150); ("Radom", 165); ("Krakow", 280)]);
  ("Warsaw", [("Lodz", 150); ("Plock", 130); ("Radom", 105)]);
  ("Radom", [("Warsaw", 105); ("Kielce", 82); ("Lodz", 165)]);
  ("Kielce", [("Radom", 82); ("Krakow", 120)]);
  ("Krakow", [("Kielce", 120); ("Katowice", 85); ("Lodz", 280)]);
  ("Katowice", [("Krakow", 85); ("Czestochowa", 80); ("Opole", 118)]);
  ("Czestochowa", [("Kalisz", 160); ("Katowice", 80)]);
  ("Opole", [("Wroclaw", 100); ("Katowice", 118)]);
  ("Wroclaw", [("Glogow", 140); ("Opole", 100)]);
  ("Plock", [("Wloclawek", 55); ("Warsaw", 130)]) ].

Definition heuristic : Heuristic := list_to_map [
  ("Glogow", 280); ("Leszno", 250); ("Poznan", 200); ("Bydgoszcz", 100);
  ("Wloclawek", 55); ("Konin", 150); ("Kalisz", 220); ("Lodz", 130);
  ("Warsaw", 100); ("Radom", 180); ("Kielce", 250); ("Krakow", 320);
  ("Katowice", 350); ("Czestochowa", 280); ("Opole", 320); ("Wroclaw", 300);
  ("Plock", 0) ].

(** ** Paths of the graph *)

(** [walk g s p v c]: [p] is a path of [g] from [s] to [v], each node
    joined to the next by an item of its inner dict, and [c] is the sum of
    the weights along it. *)
Inductive walk (g : Graph) (s : string) : list string → string → Z → Prop :=
| walk_start : walk g s [s] s 0
| walk_snoc p u c adj v w :
    walk g s p u c → g !! u = Some adj → (v, w) ∈ adj →
    walk g s (p ++ [v]) v (c + w).

(** Every neighbour named in the graph is a node of the graph. *)
Definition wf_graph (g : Graph) : Prop :=
  ∀ u adj v w, g !! u = Some adj → (v, w) ∈ adj → v ∈ dom g.

(** [c] is the least cost of a path from [s] to [t]. *)
Definition shortest_cost (g : Graph) (s t : string) (c : Z) : Prop :=
  (∃ p, walk g s p t c) ∧ ∀ p' c', walk g s p' t c' → c ≤ c'.

Definition is_goal_action (a : string) : bool :=
  bool_decide (a = "GOAL FOUND!"%string) || bool_decide (a = "OPTIMAL GOAL!"%string).

(** The ['closed'] snapshots of a trace grow. *)
Fixpoint closed_monotone {O} (tr : list (TraceRec O)) : Prop :=
  match tr with
  | [] => True
  | r :: tr' => Forall (λ r', t_closed r ⊆ t_closed r') tr' ∧ closed_monotone tr'
  end.

(** [runs body s s']: the loop started in [s] reaches [s'] at the head of
    some round. *)
Inductive runs {S R : Type} (body : S → S + R) (s : S) : S → Prop :=
| runs_refl : runs body s s
| runs_step s' s'' : runs body s s' → body s' = inl s'' → runs body s s''.

(** ** What the claims speak of *)

(** Every weight of the graph is positive. *)
Definition positive_weights (g : Graph) : Prop :=
  ∀ u adj v w, g !! u = Some adj → (v, w) ∈ adj → 0 < w.

(** [h(n) <= edge(n, n') + h(n')] for every edge. *)
Definition consistent (g : Graph) (heuristic : Heuristic) : Prop :=
  ∀ u adj v w hu hv,
    g !! u = Some adj → (v, w) ∈ adj →
    heuristic !! u = Some hu → heuristic !! v = Some hv → hu ≤ w + hv.

(** [h(n)] is at most the cost of every path from [n] to the goal. *)
Definition admissible (g : Graph) (heuristic : Heuristic) (goal : string) : Prop :=
  ∀ v p c hv, walk g v p goal c → heuristic !! v = Some hv → hv ≤ c.

(** [p] is a path of the graph from [start] to [goal] and [c] is the sum
    of the weights along it. *)
Definition valid_path (g : Graph) (start goal : string) (p : list string) (c : Z) : Prop :=
  head p = Some start ∧ last p = Some goal ∧ walk g start p goal c.

(** The number of edges of a path. *)
Definition hop_count (p : list string) : nat := (length p - 1)%nat.

(** The last record of the trace of [r] is its only goal record, tagged
    [gact], and carries the path [p] and the cost of [r]. *)
Definition goal_record_last {O} (gact : string) (r : Result O) (p : list string) : Prop :=
  ∃ c tr rec,
    r_cost r = Some c ∧ r_trace r = tr ++ [rec] ∧
    Forall (λ rec', is_goal_action (t_action rec') = false) tr ∧
    t_action rec = gact ∧ t_path rec = p ∧ t_cost rec = c.

(** The search returned normally, without a path: the last record of the
    trace has an empty open snapshot, no record is a goal record, the closed
    snapshots grow and none is larger than the count of expanded nodes. *)
Definition absent_result {O} (o : option (Outcome O)) : Prop :=
  ∃ r, o = Some (Returned r) ∧ r_path r = None ∧ r_cost r = None ∧
    (∃ tr rec, r_trace r = tr ++ [rec] ∧ t_open rec = []) ∧
    Forall (λ rec, is_goal_action (t_action rec) = false) (r_trace r) ∧
    closed_monotone (r_trace r) ∧
    Forall (λ rec, (size (t_closed rec) ≤ r_nodes_expanded r)%nat) (r_trace r).

(** The search returned at its first pop: the path is [[start]], the cost
    0, no node was expanded and every closed snapshot is empty. *)
Definition immediate_result {O} (start : string) (o : option (Outcome O)) : Prop :=
  ∃ r, o = Some (Returned r) ∧ r_path r = Some [start] ∧ r_cost r = Some 0 ∧
    r_nodes_expanded r = 0%nat ∧ r_steps r = 1%nat ∧
    Forall (λ rec, t_closed rec = ∅) (r_trace r).

(** What one round from [st] does to the closed set and the counter. *)
Definition closed_set_discipline {E O} (body : State E O → State E O + Outcome O)
    (st : State E O) : Prop :=
  nodes_expanded st = size (closed_set st) ∧
  (∀ st', body st = inl st' →
     closed_set st' = closed_set st ∨
     (∃ v, (v ∉ closed_set st) ∧ closed_set st' = {[v]} ∪ closed_set st ∧
           nodes_expanded st' = S (nodes_expanded st))) ∧
  (∀ r, body st = inr (Returned r) →
     r_nodes_expanded r = size (closed_set st) ∧ closed_monotone (r_trace r)).

(** Failing fast: an error, and no trace record appended before it. *)
Definition fails_fast {O} (o : option (Outcome O)) : Prop := ∃ e, o = Some (Raised e []).

(** An error after the records [tr] had been appended. *)
Definition raises_after {O} (e : exn) (n : nat) (o : option (Outcome O)) : Prop :=
  ∃ tr, o = Some (Raised e tr) ∧ length tr = n.

(** The outcome without the elapsed time. *)
Definition erase_time {O} (o : Outcome O) : Outcome O :=
  match o with
  | Returned r =>
      Returned (mkResult (r_path r) (r_cost r) (r_nodes_expanded r) (r_steps r) 0
                  (r_trace r))
  | Raised e tr => Raised e tr
  end.

(** The result of a call but for the elapsed time. *)
Definition without_time {O} (o : option (Outcome O)) : option (Outcome O) :=
  erase_time <$> o.

(** [graph[u][v]] *)
Fixpoint adj_lookup (v : string) (adj : Adj) : option Z :=
  match adj with
  | [] => None
  | (k, w) :: adj' => if decide (k = v) then Some w else adj_lookup v adj'
  end.

(** The sum of [graph[a][b]] along [u :: rest]. *)
Fixpoint route_cost (g : Graph) (u : string) (rest : list string) : option Z :=
  match rest with
  | [] => Some 0
  | v :: rest' =>
      match g !! u with
      | None => None
      | Some adj =>
          match adj_lookup v adj, route_cost g v rest' with
          | Some w, Some c => Some (w + c)
          | _, _ => None
          end
      end
  end.

(** Two roads that do not meet. *)
Definition two_islands : Graph := list_to_map [
  ("A", [("B", 1)]); ("B", [("A", 1)]);
  ("C", [("D", 2)]); ("D", [("C", 2)]) ].

Definition flat_heuristic : Heuristic :=
  list_to_map [("A", 0); ("B", 0); ("C", 0); ("D", 0)].

(** One node and no road. *)
Definition lone_graph : Graph := list_to_map [("A", [])].
Definition lone_heuristic : Heuristic := list_to_map [("A", 0)].

(** ** One round of a search, for the three strategies at once *)

Section Search.
Context {E O : Type}.
(** The node, path and cost that a frontier entry carries. *)
Context (view : E → string * list string * Z).
(** What the discipline of the frontier promises of the entry it pops. *)
Context (PopOK : list E → E → Prop).
(** The nodes for which the strategy's own lookups succeed. *)
Context (key_ok : string → Prop).
(** The action tag of the strategy's goal record. *)
Context (gact : string).
Context (graph : Graph) (goal : string).

Definition e_node (e : E) : string := (view e).1.1.
Definition e_path (e : E) : list string := (view e).1.2.
Definition e_cost (e : E) : Z := (view e).2.

Definition child (e : E) (it : string * Z) : string * list string * Z :=
  (it.1, e_path e ++ [it.1], e_cost e + it.2).

Definition children (closed : gset string) (e : E) (adj : Adj)
    : list (string * list string * Z) :=
  child e <$> filter (λ it, it.1 ∉ closed) adj.

(** The record appended after the pop. *)
Record pop_rec (st : State E O) (e : E) (rest : list E) (r : TraceRec O) : Prop := {
  pr_step : t_step r = Whole (S (step st));
  pr_current : t_current r = Some (e_node e);
  pr_path : t_path r = e_path e;
  pr_cost : t_cost r = e_cost e;
  pr_open : length (t_open r) = length rest;
  pr_closed : t_closed r = closed_set st;
  pr_action : is_goal_action (t_action r) = false
}.

(** The record appended when the goal is popped. *)
Record goal_rec (st : State E O) (e : E) (rest : list E) (r : TraceRec O) : Prop := {
  gr_step : t_step r = Half (S (step st));
  gr_current : t_current r = Some (e_node e);
  gr_path : t_path r = e_path e;
  gr_cost : t_cost r = e_cost e;
  gr_open : length (t_open r) = length rest;
  gr_closed : t_closed r = closed_set st;
  gr_action : t_action r = gact
}.

(** The record appended after an expansion that added neighbours. *)
Record expand_rec (st : State E O) (e : E) (open' : list E) (r : TraceRec O) : Prop := {
  er_step : t_step r = Half (S (step st));
  er_current : t_current r = Some (e_node e);
  er_path : t_path r = e_path e;
  er_cost : t_cost r = e_cost e;
  er_open : length (t_open r) = length open';
  er_closed : t_closed r = {[e_node e]} ∪ closed_set st;
  er_action : is_goal_action (t_action r) = false
}.

Inductive search_step (st : State E O) : State E O + Outcome O → Prop :=
| ss_exhausted t :
    st_open st = [] →
    search_step st
      (inr (Returned (mkResult None None (nodes_expanded st) (step st) t (trace st))))
| ss_goal e rest r1 r2 t :
    st_open st ≡ₚ e :: rest → PopOK (st_open st) e →
    pop_rec st e rest r1 → e_node e = goal → goal_rec st e rest r2 →
    search_step st
      (inr (Returned (mkResult (Some (e_path e)) (Some (e_cost e)) (nodes_expanded st)
                        (S (step st)) t (trace st ++ [r1; r2]))))
| ss_skip e rest r1 :
    st_open st ≡ₚ e :: rest → PopOK (st_open st) e →
    pop_rec st e rest r1 → e_node e ≠ goal → e_node e ∈ closed_set st →
    search_step st
      (inl (mkState rest (closed_set st) (trace st ++ [r1]) (nodes_expanded st)
              (S (step st))))
| ss_expand e rest r1 adj new open' tr' :
    st_open st ≡ₚ e :: rest → PopOK (st_open st) e →
    pop_rec st e rest r1 → e_node e ≠ goal → e_node e ∉ closed_set st →
    graph !! e_node e = Some adj →
    open' ≡ₚ new ++ rest →
    view <$> new ≡ₚ children ({[e_node e]} ∪ closed_set st) e adj →
    (new = [] ∧ tr' = trace st ++ [r1] ∨
     new ≠ [] ∧ ∃ r2, expand_rec st e open' r2 ∧ tr' = trace st ++ [r1; r2]) →
    search_step st
      (inl (mkState open' ({[e_node e]} ∪ closed_set st) tr'
              (S (nodes_expanded st)) (S (step st))))
| ss_raise e rest k tr :
    st_open st ≡ₚ e :: rest →
    (¬ key_ok (e_node e) ∨ graph !! e_node e = None ∨
     ∃ adj v w, graph !! e_node e = Some adj ∧ (v, w) ∈ adj ∧ ¬ key_ok v) →
    search_step st (inr (Raised k tr)).
End Search.

(** *** The three loop bodies are such rounds *)

Definition dfs_view (e : dfs_entry) : string * list string * Z := e.

Lemma list_pop_None {A} (l : list A) : list_pop l = None → l = [].
Proof.
  unfold list_pop. destruct (reverse l) eqn:Hr; [|done].
  intros _. apply (f_equal reverse) in Hr. by rewrite reverse_involutive in Hr.
Qed.

Lemma list_pop_Some {A} (l : list A) x r : list_pop l = Some (x, r) → l = r ++ [x].
Proof.
  unfold list_pop. destruct (reverse l) eqn:Hr; [done|].
  intros [= <- <-]. apply (f_equal reverse) in Hr.
  rewrite reverse_involutive in Hr. by rewrite Hr, reverse_cons.
Qed.

Lemma push_neighbors_spec closed path cost items open_list added :
  push_neighbors closed path cost items open_list added =
  (open_list ++
     ((λ it : string * Z, (it.1, path ++ [it.1], cost + it.2)) <$>
        filter (λ it, it.1 ∉ closed) items),
   added ++ (fst <$> filter (λ it : string * Z, it.1 ∉ closed) items)).
Proof.
  revert open_list added.
  induction items as [|[nb w] items IH]; intros open_list added; simpl.
  - by rewrite !app_nil_r.
  - rewrite filter_cons. simpl. destruct (decide (nb ∈ closed)) as [Hin|Hin].
    + rewrite decide_False by (by intros Hn). apply IH.
    + rewrite decide_True by done. rewrite IH. simpl.
      by rewrite <- !app_assoc.
Qed.

(** DFS pops the last entry of its list, BFS the first of its queue. *)
Definition stack_top {A} (l : list A) (e : A) : Prop := ∃ r, l = r ++ [e].
Definition queue_head {A} (l : list A) (e : A) : Prop := ∃ r, l = e :: r.

Lemma sorted_insert_perm x l : sorted_insert x l ≡ₚ x :: l.
Proof.
  induction l as [|y l IH]; simpl; [done|].
  destruct (item_ltb x y); [done|]. rewrite IH. apply Permutation_swap.
Qed.

Lemma sorted_perm l : sorted l ≡ₚ l.
Proof.
  induction l as [|x l IH]; simpl; [done|].
  by rewrite sorted_insert_perm, IH.
Qed.

Lemma list_expand_step (P : list dfs_entry → dfs_entry → Prop) graph goal
    (st : State dfs_entry string) cur path cost rest r1 adj items act :
  st_open st ≡ₚ (cur, path, cost) :: rest →
  P (st_open st) (cur, path, cost) →
  pop_rec dfs_view st (cur, path, cost) rest r1 →
  cur ≠ goal → cur ∉ closed_set st → graph !! cur = Some adj →
  items ≡ₚ adj → is_goal_action act = false →
  search_step dfs_view P (λ _, True) "GOAL FOUND!" graph goal st
    (inl (let '(open', neighbors_added) :=
            push_neighbors ({[cur]} ∪ closed_set st) path cost items rest [] in
          mkState open' ({[cur]} ∪ closed_set st)
            match neighbors_added with
            | [] => trace st ++ [r1]
            | _ => (trace st ++ [r1]) ++
                [ mkRec (Half (S (step st))) (Some cur) path cost None
                    (fst ∘ fst <$> open') ({[cur]} ∪ closed_set st) act
                    (MsgAdded neighbors_added) ]
            end (S (nodes_expanded st)) (S (step st)))).
Proof.
  intros Hperm HP Hr1 Hg Hc Hadj Hitems Hact.
  rewrite push_neighbors_spec. simpl.
  set (new := (λ it : string * Z, (it.1, path ++ [it.1], cost + it.2)) <$>
                filter (λ it : string * Z, it.1 ∉ {[cur]} ∪ closed_set st) items).
  eapply ss_expand with (e := (cur, path, cost)) (rest := rest) (r1 := r1)
    (adj := adj) (new := new); try done.
  - apply Permutation_app_comm.
  - unfold new, children, dfs_view. rewrite list_fmap_id. by rewrite Hitems.
  - unfold new.
    destruct (filter _ items) as [|it its] eqn:Hf; simpl; [by left|right].
    split; [done|]. eexists. split; [|by rewrite <- app_assoc].
    split; try done. simpl. by rewrite !length_fmap.
Qed.

Lemma dfs_body_step graph goal t0 t1 st :
  search_step dfs_view stack_top (λ _, True) "GOAL FOUND!" graph goal st (dfs_body graph goal t0 t1 st).
Proof.
  unfold dfs_body.
  destruct (list_pop (st_open st)) as [[[[cur path] cost] rest]|] eqn:Hpop.
  2:{ apply ss_exhausted. by apply list_pop_None. }
  apply list_pop_Some in Hpop.
  set (r1 := mkRec _ _ _ _ _ _ _ "Pop from Stack" _).
  assert (Hperm : st_open st ≡ₚ (cur, path, cost) :: rest).
  { rewrite Hpop. by rewrite Permutation_app_comm. }
  assert (Htop : stack_top (st_open st) (cur, path, cost)) by (by exists rest).
  assert (Hr1 : pop_rec dfs_view st (cur, path, cost) rest r1).
  { split; try done. simpl. by rewrite length_fmap. }
  destruct (decide (cur = goal)) as [Hg|Hg].
  { rewrite <- app_assoc. simpl.
    eapply ss_goal with (e := (cur, path, cost)) (rest := rest) (r1 := r1); try done.
    split; try done. simpl. by rewrite length_fmap. }
  destruct (decide (cur ∈ closed_set st)) as [Hc|Hc].
  { by eapply ss_skip with (e := (cur, path, cost)) (rest := rest) (r1 := r1). }
  destruct (graph !! cur) as [adj|] eqn:Hadj.
  2:{ eapply ss_raise with (e := (cur, path, cost)) (rest := rest); eauto. }
  pose proof (list_expand_step stack_top graph goal st cur path cost rest r1 adj
                (reverse adj) "Expand" Hperm Htop Hr1 Hg Hc Hadj
                (reverse_Permutation adj) eq_refl) as H.
  destruct (push_neighbors _ _ _ _ _ _). exact H.
Qed.

Lemma bfs_body_step graph goal t0 t1 st :
  search_step dfs_view queue_head (λ _, True) "GOAL FOUND!" graph goal st (bfs_body graph goal t0 t1 st).
Proof.
  unfold bfs_body.
  destruct (st_open st) as [|[[cur path] cost] rest] eqn:Hpop.
  { by apply ss_exhausted. }
  set (r1 := mkRec _ _ _ _ _ _ _ "Dequeue" _).
  assert (Hperm : st_open st ≡ₚ (cur, path, cost) :: rest) by (by rewrite Hpop).
  assert (Htop : queue_head (st_open st) (cur, path, cost)) by (by exists rest).
  assert (Hr1 : pop_rec dfs_view st (cur, path, cost) rest r1).
  { split; try done. simpl. by rewrite length_fmap. }
  destruct (decide (cur = goal)) as [Hg|Hg].
  { rewrite <- app_assoc. simpl.
    eapply ss_goal with (e := (cur, path, cost)) (rest := rest) (r1 := r1); try done.
    split; try done. simpl. by rewrite length_fmap. }
  destruct (decide (cur ∈ closed_set st)) as [Hc|Hc].
  { by eapply ss_skip with (e := (cur, path, cost)) (rest := rest) (r1 := r1). }
  destruct (graph !! cur) as [adj|] eqn:Hadj.
  2:{ eapply ss_raise with (e := (cur, path, cost)) (rest := rest); eauto. }
  pose proof (list_expand_step queue_head graph goal st cur path cost rest r1 adj
                (sorted adj) "Expand" Hperm Htop Hr1 Hg Hc Hadj
                (sorted_perm adj) eq_refl) as H.
  destruct (push_neighbors _ _ _ _ _ _). exact H.
Qed.

(** ** Running the loop *)

Section Iterate.
Context {S R : Type} (body : S → S + R).

Lemma iterate_runs fuel s r :
  iterate body fuel s = Some r → ∃ s', runs body s s' ∧ body s' = inr r.
Proof.
  revert s. induction fuel as [|k IH]; intros s; simpl; [done|].
  destruct (body s) as [s1|r1] eqn:Hb.
  - intros H. destruct (IH _ H) as (s' & Hruns & Hr). exists s'. split; [|done].
    clear -Hruns Hb. induction Hruns.
    + eapply runs_step; [apply runs_refl|done].
    + eapply runs_step; eauto.
  - intros [= ->]. exists s. split; [apply runs_refl|done].
Qed.

Lemma runs_invariant (I : S → Prop) s :
  I s → (∀ s1 s2, I s1 → body s1 = inl s2 → I s2) → ∀ s', runs body s s' → I s'.
Proof. intros H0 Hstep s' Hruns. induction Hruns; eauto. Qed.

(** A measure that decreases at every round bounds the fuel needed. *)
Lemma iterate_terminates (I : S → Prop) (mu : S → nat) :
  (∀ s1 s2, I s1 → body s1 = inl s2 → I s2 ∧ (mu s2 < mu s1)%nat) →
  ∀ fuel s, I s → (mu s < fuel)%nat → ∃ r, iterate body fuel s = Some r.
Proof.
  intros Hstep. induction fuel as [|k IH]; intros s HI Hlt; [lia|].
  simpl. destruct (body s) as [s1|r1] eqn:Hb; [|by eexists].
  destruct (Hstep _ _ HI Hb) as [HI1 Hmu]. apply IH; [done|lia].
Qed.

Lemma iterate_more fuel fuel' s r :
  iterate body fuel s = Some r → (fuel ≤ fuel')%nat → iterate body fuel' s = Some r.
Proof.
  revert fuel' s. induction fuel as [|k IH]; intros fuel' s; simpl; [done|].
  intros H Hle. destruct fuel' as [|k']; [lia|]. simpl.
  destruct (body s); [|done]. apply IH; [done|lia].
Qed.
End Iterate.

Lemma closed_monotone_snoc {O} (tr : list (TraceRec O)) r :
  closed_monotone (tr ++ [r]) ↔
  closed_monotone tr ∧ Forall (λ r', t_closed r' ⊆ t_closed r) tr.
Proof.
  induction tr as [|r0 tr IH]; simpl.
  - split; [done|]. intros _. split; [constructor|done].
  - rewrite IH, Forall_app, Forall_singleton, Forall_cons. tauto.
Qed.

Section Invariants.
Context {E O : Type} (view : E → string * list string * Z).
Context (PopOK : list E → E → Prop) (key_ok : string → Prop) (gact : string).
Context (graph : Graph) (goal start : string).

Abbreviation sstep := (search_step view PopOK key_ok gact graph goal).
Abbreviation nd := (e_node view).
Abbreviation pth := (e_path view).
Abbreviation cst := (e_cost view).

(** Where the entries of the frontier come from after an expansion. *)
Lemma expanded_entry (e0 : E) closed adj (new rest open' : list E) e :
  open' ≡ₚ new ++ rest → view <$> new ≡ₚ children view closed e0 adj →
  e ∈ open' →
  e ∈ rest ∨ (∃ v w, (v, w) ∈ adj ∧ (v ∉ closed) ∧
                     view e = (v, pth e0 ++ [v], cst e0 + w)).
Proof.
  intros Ho Hn He. rewrite Ho in He. apply elem_of_app in He as [He|He]; [|by left].
  right. apply (list_elem_of_fmap_2 view) in He. rewrite Hn in He.
  unfold children in He. apply list_elem_of_fmap in He as ([v w] & Hv & Hit).
  apply list_elem_of_filter in Hit as [Hnc Hit]. by exists v, w.
Qed.

Lemma expanded_has (e0 : E) closed adj (new rest open' : list E) v w :
  open' ≡ₚ new ++ rest → view <$> new ≡ₚ children view closed e0 adj →
  (v, w) ∈ adj → v ∉ closed →
  ∃ e, e ∈ open' ∧ view e = (v, pth e0 ++ [v], cst e0 + w).
Proof.
  intros Ho Hn Hit Hnc.
  assert (H : (v, pth e0 ++ [v], cst e0 + w) ∈ view <$> new).
  { rewrite Hn. unfold children. apply list_elem_of_fmap. exists (v, w).
    split; [done|]. by apply list_elem_of_filter. }
  apply list_elem_of_fmap in H as (e & He & Hin). exists e. split; [|done].
  rewrite Ho. apply elem_of_app. by left.
Qed.

(** Every frontier entry carries a path of the graph from [start] to its
    node, and the cost of that path. *)
Definition inv_valid (st : State E O) : Prop :=
  ∀ e, e ∈ st_open st → walk graph start (pth e) (nd e) (cst e).

Lemma inv_valid_step (st st' : State E O) : sstep st (inl st') → inv_valid st → inv_valid st'.
Proof.
  inversion 1 as [| |e0 rest r1 Hp _ _ _ _|e0 rest r1 adj new open' tr' Hp _ _ _ _ Hadj Ho Hn _|];
    subst; intros Hinv e He; simpl in He.
  - apply Hinv. rewrite Hp. by apply elem_of_cons; right.
  - destruct (expanded_entry _ _ _ _ _ _ _ Ho Hn He) as [Hr|(v & w & Hit & _ & Hv)].
    + apply Hinv. rewrite Hp. by apply elem_of_cons; right.
    + unfold e_path, e_node, e_cost at 1. rewrite Hv. simpl.
      eapply walk_snoc; [|done..]. apply Hinv. rewrite Hp. by apply elem_of_cons; left.
Qed.

(** The nodes of the frontier are nodes of the graph, and the strategy's
    lookups succeed for them. *)
Definition inv_dom (st : State E O) : Prop :=
  ∀ e, e ∈ st_open st → nd e ∈ dom graph ∧ key_ok (nd e).

Lemma inv_dom_step (st st' : State E O) :
  wf_graph graph → (∀ v, v ∈ dom graph → key_ok v) →
  sstep st (inl st') → inv_dom st → inv_dom st'.
Proof.
  intros Hwf Hok.
  inversion 1 as [| |e0 rest r1 Hp _ _ _ _|e0 rest r1 adj new open' tr' Hp _ _ _ _ Hadj Ho Hn _|];
    subst; intros Hinv e He; simpl in He.
  - apply Hinv. rewrite Hp. by apply elem_of_cons; right.
  - destruct (expanded_entry _ _ _ _ _ _ _ Ho Hn He) as [Hr|(v & w & Hit & _ & Hv)].
    + apply Hinv. rewrite Hp. by apply elem_of_cons; right.
    + unfold e_node. rewrite Hv. simpl.
      assert (v ∈ dom graph) by (eapply Hwf; eauto). auto.
Qed.

Lemma inv_dom_no_raise (st : State E O) k tr :
  wf_graph graph → (∀ v, v ∈ dom graph → key_ok v) →
  inv_dom st → ¬ sstep st (inr (Raised k tr)).
Proof.
  intros Hwf Hok Hinv. inversion 1 as [| | | |e0 rest k' tr' Hp Hbad]; subst.
  destruct (Hinv e0) as [Hd Hk]; [rewrite Hp; by apply elem_of_cons; left|].
  destruct Hbad as [Hb|[Hb|(adj & v & w & Hadj & Hit & Hb)]]; [done| |].
  - apply elem_of_dom in Hd as [? ?]. congruence.
  - apply Hb, Hok. eapply Hwf; eauto.
Qed.

(** The counter of expanded nodes is the size of the closed set: a node
    is added only when it is not yet in it. *)
Definition inv_count (st : State E O) : Prop :=
  nodes_expanded st = size (closed_set st).

Lemma inv_count_step (st st' : State E O) : sstep st (inl st') → inv_count st → inv_count st'.
Proof.
  unfold inv_count.
  inversion 1 as [| |e0 rest r1 Hp _ _ _ _|e0 rest r1 adj new open' tr' Hp _ _ _ Hc _ _ _ _|];
    subst; simpl; intros Hinv; [done|].
  rewrite size_union by set_solver. rewrite size_singleton. lia.
Qed.

Lemma closed_step (st st' : State E O) :
  sstep st (inl st') →
  closed_set st' = closed_set st ∨
  (∃ v, (v ∉ closed_set st) ∧ closed_set st' = {[v]} ∪ closed_set st ∧
        nodes_expanded st' = S (nodes_expanded st)).
Proof.
  inversion 1 as [| |e0 rest r1 Hp _ _ _ _|e0 rest r1 adj new open' tr' Hp _ _ _ Hc _ _ _ _|];
    subst; simpl; [by left|]. right. by exists (nd e0).
Qed.

(** The goal is never closed: the first pop of it returns. *)
Definition inv_goal (st : State E O) : Prop := goal ∉ closed_set st.

Lemma inv_goal_step (st st' : State E O) : sstep st (inl st') → inv_goal st → inv_goal st'.
Proof.
  unfold inv_goal.
  inversion 1 as [| |e0 rest r1 Hp _ _ _ _|e0 rest r1 adj new open' tr' Hp _ _ Hg Hc _ _ _ _|];
    subst; simpl; intros Hinv; [done|]. set_solver.
Qed.

(** The trace so far: no goal record, growing closed snapshots that are
    within the closed set, and a last record whose open snapshot has the
    size of the frontier. *)
Definition inv_trace (st : State E O) : Prop :=
  (∃ tr r, trace st = tr ++ [r] ∧ length (t_open r) = length (st_open st)) ∧
  Forall (λ r, is_goal_action (t_action r) = false) (trace st) ∧
  closed_monotone (trace st) ∧
  Forall (λ r, t_closed r ⊆ closed_set st) (trace st).

Lemma inv_trace_step (st st' : State E O) : sstep st (inl st') → inv_trace st → inv_trace st'.
Proof.
  unfold inv_trace.
  inversion 1 as [| |e0 rest r1 Hp _ Hr1 _ _
                 |e0 rest r1 adj new open' tr' Hp _ Hr1 Hg Hc _ Ho Hn Htr|];
    subst; simpl; intros (_ & Hng & Hmon & Hsub).
  - destruct Hr1 as [_ _ _ _ Hop1 Hcl1 Hact1]. split; [by eauto|].
    rewrite !Forall_app, !Forall_singleton, closed_monotone_snoc, Hcl1.
    split_and!; done.
  - destruct Hr1 as [_ _ _ _ Hop1 Hcl1 Hact1].
    assert (Hsub' : Forall (λ r, t_closed r ⊆ {[nd e0]} ∪ closed_set st) (trace st)).
    { eapply Forall_impl; [exact Hsub|]. simpl. intros r Hr. set_solver. }
    destruct Htr as [[-> ->]|(Hne & r2 & [_ _ _ _ Hop2 Hcl2 Hact2] & ->)].
    + split; [exists (trace st), r1; split; [done|]; by rewrite Ho|].
      rewrite !Forall_app, !Forall_singleton, closed_monotone_snoc, Hcl1.
      split_and!; try done. set_solver.
    + split; [exists (trace st ++ [r1]), r2; split; [by rewrite <- app_assoc|done]|].
      replace (trace st ++ [r1; r2]) with ((trace st ++ [r1]) ++ [r2])
        by (by rewrite <- app_assoc).
      rewrite !Forall_app, !Forall_singleton, !closed_monotone_snoc, !Forall_app,
        !Forall_singleton, Hcl1, Hcl2.
      split_and!; try done; set_solver.
Qed.
End Invariants.

(** ** Termination measure *)

Lemma remaining_comm (c : gset string) (j1 j2 : string) (z1 z2 : Adj) (y : nat) :
  (if decide (j1 ∈ c) then (if decide (j2 ∈ c) then y else (length z2 + y)%nat)
   else (length z1 + (if decide (j2 ∈ c) then y else (length z2 + y)%nat))%nat) =
  (if decide (j2 ∈ c) then (if decide (j1 ∈ c) then y else (length z1 + y)%nat)
   else (length z2 + (if decide (j1 ∈ c) then y else (length z1 + y)%nat))%nat).
Proof. repeat case_decide; lia. Qed.

Lemma remaining_insert (m : Graph) c v adj :
  m !! v = None →
  remaining (<[v := adj]> m) c =
  if decide (v ∈ c) then remaining m c else (length adj + remaining m c)%nat.
Proof.
  intros Hv. unfold remaining. rewrite map_fold_insert_L; [done| |done].
  intros. apply remaining_comm.
Qed.

Lemma remaining_ext (m : Graph) c c' :
  (∀ u, is_Some (m !! u) → u ∈ c ↔ u ∈ c') → remaining m c = remaining m c'.
Proof.
  induction m as [|v adj m Hv IH] using map_ind; intros Hc; [done|].
  rewrite !remaining_insert by done.
  rewrite IH.
  2:{ intros u [a Hu]. apply Hc. exists a. rewrite lookup_insert_ne; [done|]. congruence. }
  assert (v ∈ c ↔ v ∈ c') as Hvc.
  { apply Hc. exists adj. by rewrite lookup_insert_eq. }
  repeat case_decide; tauto || lia.
Qed.

Lemma remaining_close (g : Graph) c v adj :
  g !! v = Some adj → v ∉ c →
  remaining g c = (length adj + remaining g ({[v]} ∪ c))%nat.
Proof.
  intros Hv Hc.
  rewrite <- (insert_delete_id g v adj) by done.
  rewrite !remaining_insert by apply lookup_delete_eq.
  rewrite decide_False by done. rewrite decide_True by set_solver.
  f_equal. apply remaining_ext. intros u [a Hu].
  assert (u ≠ v). { intros ->. by rewrite lookup_delete_eq in Hu. }
  set_solver.
Qed.

Section Measure.
Context {E O : Type} (view : E → string * list string * Z).
Context (PopOK : list E → E → Prop) (key_ok : string → Prop) (gact : string).
Context (graph : Graph) (goal : string).

Definition measure (st : State E O) : nat :=
  (length (st_open st) + remaining graph (closed_set st))%nat.

Lemma measure_step (st st' : State E O) :
  search_step view PopOK key_ok gact graph goal st (inl st') →
  (measure st' < measure st)%nat.
Proof.
  unfold measure.
  inversion 1 as [| |e0 rest r1 Hp _ _ _ _
                 |e0 rest r1 adj new open' tr' Hp _ _ _ Hc Hadj Ho Hn _|];
    subst; simpl; rewrite Hp; simpl; [lia|].
  rewrite (remaining_close graph _ _ _ Hadj Hc), Ho, length_app.
  assert (length new ≤ length adj)%nat; [|lia].
  rewrite <- (length_fmap view new), Hn. unfold children.
  rewrite length_fmap. apply length_filter.
Qed.
End Measure.

(** ** heapq keeps the items *)

Lemma insert_head_perm {A} (l : list A) j (x b : A) :
  l !! j = Some b → b :: <[j := x]> l ≡ₚ x :: l.
Proof.
  revert j. induction l as [|y l IH]; intros [|j] Hj; simplify_eq/=.
  - apply Permutation_swap.
  - rewrite Permutation_swap. rewrite (IH _ Hj). apply Permutation_swap.
Qed.

Lemma insert_swap_perm {A} (l : list A) i j (a b : A) :
  l !! i = Some a → l !! j = Some b → <[i := b]> (<[j := a]> l) ≡ₚ l.
Proof.
  revert i j. induction l as [|y l IH]; intros [|i] [|j] Hi Hj; simplify_eq/=.
  - done.
  - by apply insert_head_perm.
  - by apply insert_head_perm.
  - by rewrite IH.
Qed.

Section HeapqPerm.
Context {A : Type} (lt : A → A → bool).

Lemma siftdown_loop_length fuel (heap : list A) newitem startpos pos :
  length (siftdown_loop lt fuel heap newitem startpos pos) = length heap.
Proof.
  revert heap pos. induction fuel as [|k IH]; intros heap pos; cbn [siftdown_loop].
  { by rewrite length_insert. }
  case_decide; [|by rewrite length_insert].
  destruct (heap !! _) as [parent|]; [|done].
  destruct (lt newitem parent); [|by rewrite length_insert].
  by rewrite IH, length_insert.
Qed.

Lemma siftdown_loop_perm fuel (heap : list A) newitem startpos pos :
  (pos < length heap)%nat →
  siftdown_loop lt fuel heap newitem startpos pos ≡ₚ <[pos := newitem]> heap.
Proof.
  revert heap pos. induction fuel as [|k IH]; intros heap pos Hpos; cbn [siftdown_loop]; [done|].
  case_decide as Hlt; [|done].
  assert (Hpp : ((pos - 1) / 2 < pos)%nat).
  { apply Nat.Div0.div_lt_upper_bound. lia. }
  destruct (heap !! _) as [parent|] eqn:Hparent.
  2:{ apply lookup_ge_None in Hparent. lia. }
  destruct (lt newitem parent); [|done].
  rewrite IH by (rewrite length_insert; lia).
  etrans; [|apply (insert_swap_perm (<[pos := newitem]> heap)
                     ((pos - 1) / 2)%nat pos parent newitem)].
  - by rewrite list_insert_insert_eq.
  - rewrite list_lookup_insert_ne by lia. done.
  - by apply list_lookup_insert_eq.
Qed.

Lemma _siftdown_perm (heap : list A) startpos pos : _siftdown lt heap startpos pos ≡ₚ heap.
Proof.
  unfold _siftdown. destruct (heap !! pos) as [x|] eqn:Hx; [|done].
  rewrite siftdown_loop_perm by (by eapply lookup_lt_Some).
  by rewrite list_insert_id.
Qed.

Lemma heappush_perm (heap : list A) item : heappush lt heap item ≡ₚ item :: heap.
Proof.
  unfold heappush. rewrite _siftdown_perm. by rewrite Permutation_app_comm.
Qed.

Lemma siftup_loop_spec fuel (heap : list A) endpos pos heap' pos' :
  siftup_loop lt fuel heap endpos pos = (heap', pos') →
  (pos < length heap)%nat →
  length heap' = length heap ∧ (pos ≤ pos' < length heap)%nat ∧
  ∀ x, <[pos' := x]> heap' ≡ₚ <[pos := x]> heap.
Proof.
  revert heap pos. induction fuel as [|k IH]; intros heap pos; cbn [siftup_loop].
  { intros [= <- <-] Hpos. split; [done|]. split; [lia|done]. }
  case_decide as Hlt.
  2:{ intros [= <- <-] Hpos. split; [done|]. split; [lia|done]. }
  set (cp := if decide (2 * pos + 1 + 1 < endpos)%nat then
               match heap !! (2 * pos + 1)%nat, heap !! (2 * pos + 1 + 1)%nat with
               | Some c, Some r =>
                   if lt c r then (2 * pos + 1)%nat else (2 * pos + 1 + 1)%nat
               | _, _ => (2 * pos + 1)%nat
               end
             else (2 * pos + 1)%nat).
  assert (Hcp : (pos < cp)%nat).
  { unfold cp. repeat (case_match || case_decide); lia. }
  destruct (heap !! cp) as [child|] eqn:Hchild.
  2:{ intros [= <- <-] Hpos. split; [done|]. split; [lia|done]. }
  intros Hrec Hpos.
  apply IH in Hrec as (Hlen & Hle & Hperm).
  2:{ rewrite length_insert. by eapply lookup_lt_Some. }
  rewrite length_insert in Hlen, Hle. split; [done|]. split; [lia|].
  intros x. rewrite Hperm.
  etrans; [|apply (insert_swap_perm (<[pos := x]> heap) cp pos child x)].
  + by rewrite list_insert_insert_eq.
  + rewrite list_lookup_insert_ne by lia. done.
  + by apply list_lookup_insert_eq.
Qed.

Lemma _siftup_perm (heap : list A) pos : _siftup lt heap pos ≡ₚ heap.
Proof.
  unfold _siftup. destruct (heap !! pos) as [x|] eqn:Hx; [|done].
  destruct (siftup_loop _ _ _ _ _) as [heap' pos'] eqn:Hs.
  apply siftup_loop_spec in Hs as (_ & _ & Hperm); [|by eapply lookup_lt_Some].
  rewrite _siftdown_perm, Hperm. by rewrite list_insert_id.
Qed.

Lemma heappop_None (heap : list A) : heappop lt heap = None ↔ heap = [].
Proof.
  unfold heappop. split.
  - destruct (list_pop heap) as [[x [|y h]]|] eqn:Hp; [done..|].
    intros _. by apply list_pop_None.
  - by intros ->.
Qed.

Lemma heappop_perm (heap : list A) x heap' :
  heappop lt heap = Some (x, heap') → heap ≡ₚ x :: heap'.
Proof.
  unfold heappop. destruct (list_pop heap) as [[lastelt h]|] eqn:Hp; [|done].
  apply list_pop_Some in Hp as ->.
  destruct h as [|y h]; intros [= <- <-]; [done|].
  rewrite _siftup_perm. simpl. constructor. by rewrite Permutation_app_comm.
Qed.
End HeapqPerm.

(** *** The loop body of A-star is such a round *)

Definition astar_view (e : astar_entry) : string * list string * Z :=
  (e.1.2, e.2, e.1.1.2).

(** A-star pops what [heappop] returns. *)
Definition heap_top (l : list astar_entry) (e : astar_entry) : Prop :=
  ∃ rest, heappop entry_ltb l = Some (e, rest).

Definition has_h (heuristic : Heuristic) (v : string) : Prop :=
  is_Some (heuristic !! v).

Lemma astar_push_neighbors_spec heuristic closed path g_score items open_pq k :
  match astar_push_neighbors heuristic closed path g_score items open_pq k with
  | inr (open_pq', k') =>
      ∃ new, open_pq' ≡ₚ new ++ open_pq ∧
        astar_view <$> new ≡ₚ
          ((λ it : string * Z, (it.1, path ++ [it.1], g_score + it.2)) <$>
             filter (λ it, it.1 ∉ closed) items) ∧
        k' = (k + length new)%nat ∧
        ∀ e, e ∈ new → heuristic !! e.1.2 = Some (e.1.1.1 - e.1.1.2)
  | inl _ => ∃ v w, (v, w) ∈ items ∧ ¬ has_h heuristic v
  end.
Proof.
  revert open_pq k.
  induction items as [|[nb w] items IH]; intros open_pq k; simpl.
  { exists []. split; [done|]. split; [done|]. split; [simpl; lia|]. by intros e ?%elem_of_nil. }
  rewrite filter_cons. simpl. destruct (decide (nb ∈ closed)) as [Hin|Hin].
  - rewrite decide_False by (by intros Hn). specialize (IH open_pq k).
    destruct (astar_push_neighbors _ _ _ _ _ _ _) as [e|[pq' k']].
    + destruct IH as (v & w' & Hv & Hh). exists v, w'. split; [|done].
      by apply elem_of_cons; right.
    + done.
  - rewrite decide_True by done.
    destruct (heuristic !! nb) as [h|] eqn:Hh.
    2:{ exists nb, w. split; [by apply elem_of_cons; left|].
        unfold has_h. rewrite Hh. by intros [? ?]. }
    specialize (IH (heappush entry_ltb open_pq (g_score + w + h, g_score + w, nb, path ++ [nb]))
                  (S k)).
    destruct (astar_push_neighbors _ _ _ _ _ _ _) as [e|[pq' k']].
    + destruct IH as (v & w' & Hv & Hh'). exists v, w'. split; [|done].
      by apply elem_of_cons; right.
    + destruct IH as (new & Hperm & Hview & Hk & Hf).
      exists ((g_score + w + h, g_score + w, nb, path ++ [nb]) :: new).
      split; [|split; [|split]].
      * rewrite Hperm, heappush_perm. simpl. by rewrite Permutation_middle.
      * simpl. by rewrite Hview.
      * simpl. lia.
      * intros e [->|He]%elem_of_cons; [|by apply Hf]. simpl. rewrite Hh. f_equal. lia.
Qed.

Lemma astar_body_step graph goal heuristic t0 t1 st :
  search_step astar_view heap_top (has_h heuristic) "OPTIMAL GOAL!" graph goal st
    (astar_body graph goal heuristic t0 t1 st).
Proof.
  unfold astar_body.
  destruct (heappop entry_ltb (st_open st)) as [[[[[f g] cur] path] rest]|] eqn:Hpop.
  2:{ apply ss_exhausted. by apply heappop_None in Hpop. }
  assert (Hperm : st_open st ≡ₚ (f, g, cur, path) :: rest) by (by eapply heappop_perm).
  assert (Htop : heap_top (st_open st) (f, g, cur, path)) by (by exists rest).
  destruct (heuristic !! cur) as [h|] eqn:Hh.
  2:{ eapply ss_raise with (e := (f, g, cur, path)) (rest := rest); [done|].
      left. unfold has_h, e_node. simpl. rewrite Hh. by intros [? ?]. }
  set (r1 := mkRec _ _ _ _ _ _ _ "Pop min f(n)" _).
  assert (Hr1 : pop_rec astar_view st (f, g, cur, path) rest r1).
  { split; try done. simpl. unfold pq_snapshot. by rewrite length_fmap. }
  destruct (decide (cur = goal)) as [Hg|Hg].
  { rewrite <- app_assoc. simpl.
    eapply ss_goal with (e := (f, g, cur, path)) (rest := rest) (r1 := r1); try done.
    split; try done. simpl. unfold pq_snapshot. by rewrite length_fmap. }
  destruct (decide (cur ∈ closed_set st)) as [Hc|Hc].
  { by eapply ss_skip with (e := (f, g, cur, path)) (rest := rest) (r1 := r1). }
  destruct (graph !! cur) as [adj|] eqn:Hadj.
  2:{ eapply ss_raise with (e := (f, g, cur, path)) (rest := rest); eauto. }
  pose proof (astar_push_neighbors_spec heuristic ({[cur]} ∪ closed_set st) path g
                (sorted adj) rest 0) as Hpush.
  destruct (astar_push_neighbors _ _ _ _ _ _ _) as [e|[pq' k']].
  { destruct Hpush as (v & w & Hv & Hh').
    eapply ss_raise with (e := (f, g, cur, path)) (rest := rest); [done|].
    right; right. exists adj, v, w. split; [done|]. split; [|done].
    by rewrite <- (sorted_perm adj). }
  destruct Hpush as (new & Hperm' & Hview & Hk & _).
  eapply ss_expand with (e := (f, g, cur, path)) (rest := rest) (r1 := r1)
    (adj := adj) (new := new); try done.
  - rewrite Hview. unfold children. by rewrite sorted_perm.
  - destruct new as [|e new]; simpl in Hk; subst k'; [by left|right].
    split; [done|]. eexists. split; [|by rewrite <- app_assoc].
    split; try done. simpl. unfold pq_snapshot. by rewrite length_fmap.
Qed.

(** ** What a search returns *)

Section Reach.
Context {E O : Type} (view : E → string * list string * Z).
Context (PopOK : list E → E → Prop) (key_ok : string → Prop) (gact : string).
Context (graph : Graph) (goal start : string).
Context (body : State E O → State E O + Outcome O).
Hypothesis body_step : ∀ st, search_step view PopOK key_ok gact graph goal st (body st).

Definition basic_inv (st : State E O) : Prop :=
  inv_valid view graph start st ∧ inv_count st ∧ inv_goal goal st ∧ inv_trace st.

Lemma basic_inv_body st st' : basic_inv st → body st = inl st' → basic_inv st'.
Proof.
  intros (Hv & Hc & Hg & Ht) Hb. pose proof (body_step st) as Hs. rewrite Hb in Hs.
  split_and!.
  - by eapply inv_valid_step.
  - by eapply inv_count_step.
  - by eapply inv_goal_step.
  - by eapply inv_trace_step.
Qed.

Lemma basic_inv_runs init st : basic_inv init → runs body init st → basic_inv st.
Proof. intros H0 Hr. eapply runs_invariant; eauto using basic_inv_body. Qed.

(** Every return, with or without a path. *)
Lemma returned_general st r :
  basic_inv st → body st = inr (Returned r) →
  closed_monotone (r_trace r) ∧
  r_nodes_expanded r = size (closed_set st) ∧
  Forall (λ rec, t_closed rec ⊆ closed_set st) (r_trace r).
Proof.
  intros (Hv & Hc & Hg & (_ & Hng & Hmon & Hsub)) Hb.
  pose proof (body_step st) as Hs. rewrite Hb in Hs.
  inversion Hs as [t Ho|e rest r1 r2 t Hp _ Hr1 He Hr2| | |]; subst; simpl.
  { done. }
  destruct Hr1 as [_ _ _ _ _ Hcl1 _], Hr2 as [_ _ _ _ _ Hcl2 _].
  replace (trace st ++ [r1; r2]) with ((trace st ++ [r1]) ++ [r2])
    by (by rewrite <- app_assoc).
  rewrite !closed_monotone_snoc, !Forall_app, !Forall_singleton, Hcl1, Hcl2.
  split_and!; done.
Qed.

(** A return with a path. *)
Lemma returned_success st r p :
  basic_inv st → body st = inr (Returned r) → r_path r = Some p →
  ∃ c tr rec,
    r_cost r = Some c ∧ walk graph start p goal c ∧
    r_trace r = tr ++ [rec] ∧
    Forall (λ rec', is_goal_action (t_action rec') = false) tr ∧
    t_action rec = gact ∧ t_path rec = p ∧ t_cost rec = c.
Proof.
  intros (Hv & Hc & Hg & (_ & Hng & Hmon & Hsub)) Hb Hpath.
  pose proof (body_step st) as Hs. rewrite Hb in Hs.
  inversion Hs as [t Ho|e rest r1 r2 t Hp _ Hr1 He Hr2| | |]; subst; simpl in *.
  { done. }
  injection Hpath as <-.
  exists (e_cost view e), (trace st ++ [r1]), r2.
  destruct Hr1 as [_ _ _ _ _ _ Hact1], Hr2 as [_ _ Hpath2 Hcost2 _ _ Hact2].
  split_and!; try done.
  - apply Hv. rewrite Hp. by apply elem_of_cons; left.
  - by rewrite <- app_assoc.
  - rewrite Forall_app, Forall_singleton. done.
Qed.

(** A return without a path. *)
Lemma returned_absent st r :
  basic_inv st → body st = inr (Returned r) → r_path r = None →
  r_cost r = None ∧ st_open st = [] ∧
  (∃ tr rec, r_trace r = tr ++ [rec] ∧ t_open rec = []) ∧
  Forall (λ rec, is_goal_action (t_action rec) = false) (r_trace r).
Proof.
  intros (Hv & Hc & Hg & ((tr & rec & Htr & Hlen) & Hng & Hmon & Hsub)) Hb Hpath.
  pose proof (body_step st) as Hs. rewrite Hb in Hs.
  inversion Hs as [t Ho|e rest r1 r2 t Hp _ Hr1 He Hr2| | |]; subst; simpl in *; [|done].
  split_and!; try done. exists tr, rec. split; [done|].
  rewrite Ho in Hlen. by destruct (t_open rec).
Qed.

(** The path that is returned is the one of a popped entry, and the
    frontier discipline vouches for that entry. *)
Lemma returned_popped st r p :
  body st = inr (Returned r) → r_path r = Some p →
  ∃ e, PopOK (st_open st) e ∧ e ∈ st_open st ∧ e_node view e = goal ∧
       e_path view e = p ∧ r_cost r = Some (e_cost view e).
Proof.
  intros Hb Hpath. pose proof (body_step st) as Hs. rewrite Hb in Hs.
  inversion Hs as [t Ho|e rest r1 r2 t Hp Hok Hr1 He Hr2| | |]; subst; simpl in *.
  { done. }
  injection Hpath as <-. exists e. split_and!; try done.
  rewrite Hp. by apply elem_of_cons; left.
Qed.

(** With a well-formed graph no lookup fails and the fuel suffices. *)
Lemma search_terminates init fuel :
  wf_graph graph → (∀ v, v ∈ dom graph → key_ok v) →
  inv_dom view key_ok graph init → (measure graph init < fuel)%nat →
  ∃ r, iterate body fuel init = Some (Returned r).
Proof.
  intros Hwf Hok Hinit Hfuel.
  destruct (iterate_terminates body (inv_dom view key_ok graph) (measure graph))
    with (fuel := fuel) (s := init) as [o Ho]; try done.
  { intros s1 s2 H1 Hb. pose proof (body_step s1) as Hs. rewrite Hb in Hs. split.
    - by eapply inv_dom_step.
    - by eapply measure_step. }
  destruct o as [r|k tr]; [by exists r|]. exfalso.
  apply iterate_runs in Ho as (st & Hruns & Hb).
  assert (Hdom : inv_dom view key_ok graph st).
  { eapply runs_invariant; [exact Hinit| |exact Hruns].
    intros s1 s2 H1 Hb'. pose proof (body_step s1) as Hs. rewrite Hb' in Hs.
    by eapply inv_dom_step. }
  pose proof (body_step st) as Hs. rewrite Hb in Hs.
  by eapply inv_dom_no_raise.
Qed.

(** The same, for a whole run. *)
Lemma run_success init fuel r p :
  basic_inv init → iterate body fuel init = Some (Returned r) → r_path r = Some p →
  ∃ c tr rec,
    r_cost r = Some c ∧ walk graph start p goal c ∧
    r_trace r = tr ++ [rec] ∧
    Forall (λ rec', is_goal_action (t_action rec') = false) tr ∧
    t_action rec = gact ∧ t_path rec = p ∧ t_cost rec = c.
Proof.
  intros H0 (st & Hruns & Hb)%iterate_runs Hp.
  apply (returned_success st r p); [by eapply basic_inv_runs|done..].
Qed.

Lemma run_absent init fuel r :
  basic_inv init → iterate body fuel init = Some (Returned r) → r_path r = None →
  r_cost r = None ∧
  (∃ tr rec, r_trace r = tr ++ [rec] ∧ t_open rec = []) ∧
  Forall (λ rec, is_goal_action (t_action rec) = false) (r_trace r).
Proof.
  intros H0 (st & Hruns & Hb)%iterate_runs Hp.
  destruct (returned_absent st r) as (? & ? & ? & ?);
    [by eapply basic_inv_runs|done..].
Qed.

Lemma run_general init fuel r :
  basic_inv init → iterate body fuel init = Some (Returned r) →
  closed_monotone (r_trace r) ∧
  Forall (λ rec, (size (t_closed rec) ≤ r_nodes_expanded r)%nat) (r_trace r).
Proof.
  intros H0 (st & Hruns & Hb)%iterate_runs.
  destruct (returned_general st r) as (Hm & Hn & Hs);
    [by eapply basic_inv_runs|done|].
  split; [done|]. eapply Forall_impl; [exact Hs|]. simpl. intros rec Hrec.
  rewrite Hn. by apply subseteq_size.
Qed.
End Reach.


(** ** The three strategies *)

Lemma dfs_init_basic graph start goal :
  basic_inv dfs_view graph goal start (dfs_init start goal).
Proof.
  split_and!.
  - intros e ->%list_elem_of_singleton. apply walk_start.
  - done.
  - apply not_elem_of_empty.
  - split_and!; simpl.
    + by eexists [], _.
    + by repeat constructor.
    + by repeat constructor.
    + by repeat constructor.
Qed.

Lemma bfs_init_basic graph start goal :
  basic_inv dfs_view graph goal start (bfs_init start goal).
Proof.
  split_and!.
  - intros e ->%list_elem_of_singleton. apply walk_start.
  - done.
  - apply not_elem_of_empty.
  - split_and!; simpl.
    + by eexists [], _.
    + by repeat constructor.
    + by repeat constructor.
    + by repeat constructor.
Qed.

Lemma astar_init_basic graph start goal h_start :
  basic_inv astar_view graph goal start (astar_init start goal h_start).
Proof.
  split_and!.
  - intros e ->%list_elem_of_singleton. apply walk_start.
  - done.
  - apply not_elem_of_empty.
  - split_and!; simpl.
    + by eexists [], _.
    + by repeat constructor.
    + by repeat constructor.
    + by repeat constructor.
Qed.

Lemma search_fuel_enough {E O} (graph : Graph) (init : State E O) :
  length (st_open init) = 1%nat → closed_set init = ∅ →
  (measure graph init < search_fuel graph)%nat.
Proof. unfold measure, search_fuel. intros -> ->. lia. Qed.

Lemma dfs_returns graph start goal t0 t1 :
  wf_graph graph → start ∈ dom graph →
  ∃ r, dfs_collect_trace graph start goal t0 t1 = Some (Returned r).
Proof.
  intros Hwf Hs.
  eapply search_terminates; eauto using dfs_body_step, search_fuel_enough.
  - done.
  - by intros e ->%list_elem_of_singleton.
Qed.

Lemma bfs_returns graph start goal t0 t1 :
  wf_graph graph → start ∈ dom graph →
  ∃ r, bfs_collect_trace graph start goal t0 t1 = Some (Returned r).
Proof.
  intros Hwf Hs.
  eapply search_terminates; eauto using bfs_body_step, search_fuel_enough.
  - done.
  - by intros e ->%list_elem_of_singleton.
Qed.

Lemma astar_returns graph start goal heuristic t0 t1 :
  wf_graph graph → start ∈ dom graph → dom graph ⊆ dom heuristic →
  ∃ r, astar_collect_trace graph start goal heuristic t0 t1 = Some (Returned r).
Proof.
  intros Hwf Hs Hh. unfold astar_collect_trace.
  assert (Hok : ∀ v, v ∈ dom graph → has_h heuristic v).
  { intros v Hv. apply elem_of_dom. set_solver. }
  destruct (Hok _ Hs) as [h_start ->].
  eapply search_terminates; eauto using astar_body_step, search_fuel_enough.
  intros e ->%list_elem_of_singleton. split; [done|].
  unfold e_node; simpl. by apply Hok.
Qed.

(** C2. On a well-formed graph (every neighbour is a node; for A-star the
    heuristic table has a value for every node), from every start node and
    for every goal, reachable or not, each of the three searches terminates
    and returns a Result. *)
Theorem search_total (graph : Graph) (heuristic : Heuristic) (start goal : string)
    (start_time end_time : Z) :
  wf_graph graph → start ∈ dom graph → goal ∈ dom graph →
  dom graph ⊆ dom heuristic →
  (∃ r, dfs_collect_trace graph start goal start_time end_time = Some (Returned r)) ∧
  (∃ r, bfs_collect_trace graph start goal start_time end_time = Some (Returned r)) ∧
  (∃ r, astar_collect_trace graph start goal heuristic start_time end_time
        = Some (Returned r)).
Proof.
  intros Hwf Hs _ Hh.
  split_and!; [by apply dfs_returns|by apply bfs_returns|by apply astar_returns].
Qed.

(** *** Closed-set discipline *)

Lemma closed_set_discipline_runs {E O} (view : E → string * list string * Z)
    PopOK key_ok gact graph goal start (body : State E O → State E O + Outcome O) init st :
  (∀ st, search_step view PopOK key_ok gact graph goal st (body st)) →
  basic_inv view graph goal start init → runs body init st →
  closed_set_discipline body st.
Proof.
  intros Hsim H0 Hruns.
  assert (Hst : basic_inv view graph goal start st) by (by eapply basic_inv_runs).
  split_and!.
  - apply Hst.
  - intros st' Hb. pose proof (Hsim st) as Hs. rewrite Hb in Hs.
    by eapply closed_step.
  - intros r Hb. destruct (returned_general view PopOK key_ok gact graph goal start body
                             Hsim st r Hst Hb) as (? & ? & ?). done.
Qed.

(** C7. In every state that a search reaches: a round leaves the closed set
    as it is or adds one node that was not in it (and counts it); the
    counter of expanded nodes is the size of the closed set, also in the
    Result that is returned; and the closed snapshots of the returned trace
    grow from each record to the next. *)
Theorem closed_set_monotone (graph : Graph) (heuristic : Heuristic) (start goal : string)
    (start_time end_time : Z) :
  (∀ st, runs (dfs_body graph goal start_time end_time) (dfs_init start goal) st →
         closed_set_discipline (dfs_body graph goal start_time end_time) st) ∧
  (∀ st, runs (bfs_body graph goal start_time end_time) (bfs_init start goal) st →
         closed_set_discipline (bfs_body graph goal start_time end_time) st) ∧
  (∀ h_start st,
     runs (astar_body graph goal heuristic start_time end_time)
          (astar_init start goal h_start) st →
     closed_set_discipline (astar_body graph goal heuristic start_time end_time) st).
Proof.
  split_and!.
  - intros st. eapply closed_set_discipline_runs;
      [apply dfs_body_step|apply dfs_init_basic].
  - intros st. eapply closed_set_discipline_runs;
      [apply bfs_body_step|apply bfs_init_basic].
  - intros h_start st. eapply closed_set_discipline_runs;
      [apply astar_body_step|apply astar_init_basic].
Qed.

(** *** Successful searches *)

(** C6. When a search returns a path, its trace has exactly one goal record
    (tagged GOAL FOUND! by DFS and BFS, OPTIMAL GOAL! by A-star), that record
    is the last one, and it carries the path and the cost of the Result. *)
Theorem goal_record_is_last (graph : Graph) (heuristic : Heuristic) (start goal : string)
    (start_time end_time : Z) (p : list string) :
  (∀ r, dfs_collect_trace graph start goal start_time end_time = Some (Returned r) →
        r_path r = Some p → goal_record_last "GOAL FOUND!" r p) ∧
  (∀ r, bfs_collect_trace graph start goal start_time end_time = Some (Returned r) →
        r_path r = Some p → goal_record_last "GOAL FOUND!" r p) ∧
  (∀ r, astar_collect_trace graph start goal heuristic start_time end_time
        = Some (Returned r) →
        r_path r = Some p → goal_record_last "OPTIMAL GOAL!" r p).
Proof.
  split_and!.
  - intros r Hr Hp.
    destruct (run_success _ _ _ _ _ _ start _ (dfs_body_step graph goal _ _) _ _ r p
                (dfs_init_basic graph start goal) Hr Hp)
      as (c & tr & rec & ? & ? & ? & ? & ? & ? & ?).
    by exists c, tr, rec.
  - intros r Hr Hp.
    destruct (run_success _ _ _ _ _ _ start _ (bfs_body_step graph goal _ _) _ _ r p
                (bfs_init_basic graph start goal) Hr Hp)
      as (c & tr & rec & ? & ? & ? & ? & ? & ? & ?).
    by exists c, tr, rec.
  - unfold astar_collect_trace. intros r Hr Hp.
    destruct (heuristic !! start) as [h_start|]; [|done].
    destruct (run_success _ _ _ _ _ _ start _ (astar_body_step graph goal heuristic _ _)
                _ _ r p (astar_init_basic graph start goal h_start) Hr Hp)
      as (c & tr & rec & ? & ? & ? & ? & ? & ? & ?).
    by exists c, tr, rec.
Qed.

Lemma walk_ends g s p v c : walk g s p v c → head p = Some s ∧ last p = Some v.
Proof.
  induction 1 as [|p u c adj v w Hw [IHh IHl] Hadj Hv]; [done|].
  split; [|by rewrite last_snoc].
  destruct p; [done|]. done.
Qed.

(** C9. When a search returns a path, the path begins at start, ends at
    goal, each of its nodes is joined to the next by an edge of the graph,
    and the returned cost is the sum of the weights along it.  It is the
    path of a frontier entry, and every frontier entry of every state that
    the search reaches carries such a path to its node. *)
Theorem returned_path_valid (graph : Graph) (heuristic : Heuristic) (start goal : string)
    (start_time end_time : Z) :
  ((∀ st, runs (dfs_body graph goal start_time end_time) (dfs_init start goal) st →
          inv_valid dfs_view graph start st) ∧
   (∀ r p, dfs_collect_trace graph start goal start_time end_time = Some (Returned r) →
           r_path r = Some p →
           ∃ c, r_cost r = Some c ∧ valid_path graph start goal p c)) ∧
  ((∀ st, runs (bfs_body graph goal start_time end_time) (bfs_init start goal) st →
          inv_valid dfs_view graph start st) ∧
   (∀ r p, bfs_collect_trace graph start goal start_time end_time = Some (Returned r) →
           r_path r = Some p →
           ∃ c, r_cost r = Some c ∧ valid_path graph start goal p c)) ∧
  ((∀ h_start st,
      runs (astar_body graph goal heuristic start_time end_time)
           (astar_init start goal h_start) st →
      inv_valid astar_view graph start st) ∧
   (∀ r p, astar_collect_trace graph start goal heuristic start_time end_time
           = Some (Returned r) →
           r_path r = Some p →
           ∃ c, r_cost r = Some c ∧ valid_path graph start goal p c)).
Proof.
  split_and!.
  - intros st Hruns.
    eapply (basic_inv_runs _ _ _ _ _ goal start _ (dfs_body_step graph goal _ _));
      [apply dfs_init_basic|done].
  - intros r p Hr Hp.
    destruct (run_success _ _ _ _ _ _ start _ (dfs_body_step graph goal _ _) _ _ r p
                (dfs_init_basic graph start goal) Hr Hp)
      as (c & tr & rec & ? & Hw & _).
    exists c. split; [done|]. destruct (walk_ends _ _ _ _ _ Hw). by split_and!.
  - intros st Hruns.
    eapply (basic_inv_runs _ _ _ _ _ goal start _ (bfs_body_step graph goal _ _));
      [apply bfs_init_basic|done].
  - intros r p Hr Hp.
    destruct (run_success _ _ _ _ _ _ start _ (bfs_body_step graph goal _ _) _ _ r p
                (bfs_init_basic graph start goal) Hr Hp)
      as (c & tr & rec & ? & Hw & _).
    exists c. split; [done|]. destruct (walk_ends _ _ _ _ _ Hw). by split_and!.
  - intros h_start st Hruns.
    eapply (basic_inv_runs _ _ _ _ _ goal start _ (astar_body_step graph goal heuristic _ _));
      [apply astar_init_basic|done].
  - unfold astar_collect_trace. intros r p Hr Hp.
    destruct (heuristic !! start) as [h_start|]; [|done].
    destruct (run_success _ _ _ _ _ _ start _ (astar_body_step graph goal heuristic _ _)
                _ _ r p (astar_init_basic graph start goal h_start) Hr Hp)
      as (c & tr & rec & ? & Hw & _).
    exists c. split; [done|]. destruct (walk_ends _ _ _ _ _ Hw). by split_and!.
Qed.

(** *** Unreachable goal *)

Lemma run_unreachable {E O} (view : E → string * list string * Z)
    PopOK key_ok gact graph goal start (body : State E O → State E O + Outcome O) init fuel r :
  (∀ st, search_step view PopOK key_ok gact graph goal st (body st)) →
  basic_inv view graph goal start init →
  (∀ p c, ¬ walk graph start p goal c) →
  iterate body fuel init = Some (Returned r) →
  absent_result (iterate body fuel init).
Proof.
  intros Hsim H0 Hun Hr. exists r. split; [done|].
  destruct (r_path r) as [p|] eqn:Hp.
  { destruct (run_success view PopOK key_ok gact graph goal start body Hsim init fuel r p
                H0 Hr Hp) as (c & _ & _ & _ & Hw & _).
    by destruct (Hun p c). }
  destruct (run_absent view PopOK key_ok gact graph goal start body Hsim init fuel r
              H0 Hr Hp) as (? & ? & ?).
  destruct (run_general view PopOK key_ok gact graph goal start body Hsim init fuel r
              H0 Hr) as (? & ?).
  by split_and!.
Qed.


(** *** Start is the goal *)

(** C10. When start is the goal, each search returns the path [[start]]
    with cost 0 and no node expanded: the goal test of the first round
    returns before anything is closed.  (A-star first reads the heuristic
    value of start.) *)
Theorem start_is_goal (graph : Graph) (heuristic : Heuristic) (start : string)
    (start_time end_time : Z) :
  start ∈ dom graph →
  immediate_result start (dfs_collect_trace graph start start start_time end_time) ∧
  immediate_result start (bfs_collect_trace graph start start start_time end_time) ∧
  (start ∈ dom heuristic →
   immediate_result start
     (astar_collect_trace graph start start heuristic start_time end_time)).
Proof.
  intros _. split_and!.
  - unfold dfs_collect_trace, search_fuel. simpl. unfold dfs_body. simpl.
    rewrite decide_True by done. eexists. split; [done|]. simpl.
    split_and!; try done. by repeat constructor.
  - unfold bfs_collect_trace, search_fuel. simpl. unfold bfs_body. simpl.
    rewrite decide_True by done. eexists. split; [done|]. simpl.
    split_and!; try done. by repeat constructor.
  - intros [h_start Hh]%elem_of_dom.
    unfold astar_collect_trace, search_fuel. rewrite Hh. simpl.
    unfold astar_body. simpl. rewrite Hh. rewrite decide_True by done.
    eexists. split; [done|]. simpl.
    split_and!; try done. by repeat constructor.
Qed.

(** ** Optimality of the entry that is popped *)

(** BFS and A-star share one argument.  A path is measured by [meas] (its
    number of edges for BFS, its cost for A-star), an edge of weight [w]
    adds [delta w] to it, and [hf] is an estimate that is consistent for
    [delta].  If every pop takes an entry of least measure plus estimate,
    then the first entry popped for a node has the least measure of all
    paths from start to that node. *)
Section Cut.
Context {E O : Type} (view : E → string * list string * Z).
Context (PopOK : list E → E → Prop) (key_ok : string → Prop) (gact : string).
Context (graph : Graph) (goal start : string).
Context (meas : list string → Z → Z) (delta : Z → Z) (hf : string → Z).
Hypothesis meas_start : meas [start] 0 = 0.
Hypothesis meas_snoc : ∀ p c v w, meas (p ++ [v]) (c + w) = meas p c + delta w.
Hypothesis hf_consistent :
  ∀ u adj v w, graph !! u = Some adj → (v, w) ∈ adj → hf u ≤ delta w + hf v.

Abbreviation sstep := (search_step view PopOK key_ok gact graph goal).

Definition score (e : E) : Z := meas (e_path view e) (e_cost view e).
Definition prio (e : E) : Z := score e + hf (e_node view e).

(** The frontier separates the closed nodes from the others: start is
    closed or has its entry, and each edge that leaves the closed set has
    an entry for its head that is no worse than any path through the
    edge. *)
Definition inv_cut (st : State E O) : Prop :=
  (start ∈ closed_set st ∨
   (∃ e, e ∈ st_open st ∧ e_node view e = start ∧ score e ≤ 0)) ∧
  (∀ u adj v w p c,
     u ∈ closed_set st → graph !! u = Some adj → (v, w) ∈ adj →
     v ∉ closed_set st → walk graph start p u c →
     ∃ e, e ∈ st_open st ∧ e_node view e = v ∧ score e ≤ meas p c + delta w).

Definition min_pop (st : State E O) : Prop :=
  ∀ e e', PopOK (st_open st) e → e' ∈ st_open st → prio e ≤ prio e'.

Lemma frontier_cut (st : State E O) p v c :
  inv_cut st → walk graph start p v c → v ∉ closed_set st →
  ∃ e, e ∈ st_open st ∧ prio e ≤ meas p c + hf v.
Proof.
  intros [HS HC] Hw. induction Hw as [|p u c adj v w Hw IH Hadj Hv]; intros Hnc.
  - destruct HS as [?|(e & He & Hn & Hs)]; [done|].
    exists e. split; [done|]. unfold prio. rewrite Hn, meas_start. lia.
  - destruct (decide (u ∈ closed_set st)) as [Hu|Hu].
    + destruct (HC u adj v w p c Hu Hadj Hv Hnc Hw) as (e & He & Hn & Hs).
      exists e. split; [done|]. unfold prio. rewrite Hn, meas_snoc. lia.
    + destruct (IH Hu) as (e & He & Hp). exists e. split; [done|].
      rewrite meas_snoc. pose proof (hf_consistent u adj v w Hadj Hv). lia.
Qed.

Lemma popped_optimal (st : State E O) e p c :
  inv_cut st → min_pop st → PopOK (st_open st) e →
  e_node view e ∉ closed_set st → walk graph start p (e_node view e) c →
  score e ≤ meas p c.
Proof.
  intros Hcut Hmin Hpop Hnc Hw.
  destruct (frontier_cut st p _ c Hcut Hw Hnc) as (e' & He' & Hp).
  pose proof (Hmin e e' Hpop He') as Hle. unfold prio in Hle at 1. lia.
Qed.

Lemma inv_cut_step (st st' : State E O) :
  sstep st (inl st') → min_pop st → inv_cut st → inv_cut st'.
Proof.
  intros Hstep Hmin Hcut. pose proof Hcut as [HS HC].
  inversion Hstep as [| |e0 rest r1 Hp Hok _ _ Hin
                     |e0 rest r1 adj0 new open' tr' Hp Hok _ _ Hnin Hadj0 Ho Hn _|];
    subst; simpl.
  - split.
    + destruct HS as [?|(e & He & Hn & Hs)]; [by left|].
      rewrite Hp in He. apply elem_of_cons in He as [->|He]; [left; by rewrite <- Hn|].
      right. by exists e.
    + intros u adj v w p c Hu Hadj Hv Hnc Hw.
      destruct (HC u adj v w p c Hu Hadj Hv Hnc Hw) as (e & He & Hn & Hs).
      rewrite Hp in He. apply elem_of_cons in He as [->|He].
      { exfalso. apply Hnc. by rewrite <- Hn. }
      by exists e.
  - assert (Hrest : ∀ e, e ∈ rest → e ∈ open').
    { intros e He. rewrite Ho. apply elem_of_app. by right. }
    split.
    + destruct HS as [?|(e & He & Hns & Hs)]; [left; set_solver|].
      rewrite Hp in He. apply elem_of_cons in He as [->|He].
      * left. rewrite <- Hns. set_solver.
      * right. exists e. auto.
    + intros u adj v w p c Hu Hadj Hv Hnc Hw. simpl in Hu, Hnc.
      apply not_elem_of_union in Hnc as [Hne Hnc].
      apply not_elem_of_singleton in Hne.
      apply elem_of_union in Hu as [->%elem_of_singleton|Hu].
      * assert (adj = adj0) as -> by congruence.
        destruct (expanded_has view e0 _ adj0 new rest open' v w Ho Hn Hv)
          as (e & He & Hview); [set_solver|].
        exists e. split; [done|]. unfold score, e_node, e_path, e_cost.
        rewrite Hview. simpl. split; [done|]. rewrite meas_snoc.
        pose proof (popped_optimal st e0 p c Hcut Hmin Hok Hnin Hw) as Hopt.
        unfold score in Hopt. lia.
      * destruct (HC u adj v w p c Hu Hadj Hv Hnc Hw) as (e & He & Hn' & Hs).
        rewrite Hp in He. apply elem_of_cons in He as [->|He]; [congruence|].
        exists e. auto.
Qed.

(** The whole run, for a loop body whose pops are of least priority under
    an invariant [J] of its own. *)
Context (body : State E O → State E O + Outcome O) (J : State E O → Prop).
Hypothesis body_step : ∀ st, sstep st (body st).
Hypothesis J_body : ∀ st st', J st → body st = inl st' → J st'.
Hypothesis J_min : ∀ st, J st → min_pop st.

Definition cut_inv (st : State E O) : Prop :=
  basic_inv view graph goal start st ∧ inv_cut st ∧ J st.

Lemma cut_inv_runs init st : cut_inv init → runs body init st → cut_inv st.
Proof.
  intros H0 Hruns. eapply runs_invariant; [exact H0| |exact Hruns].
  intros s1 s2 (Hb & Hc & HJ) Hbody. split_and!.
  - by eapply basic_inv_body.
  - pose proof (body_step s1) as Hs. rewrite Hbody in Hs.
    eapply inv_cut_step; eauto.
  - by eapply J_body.
Qed.

Lemma run_optimal init fuel r p' c' :
  cut_inv init → iterate body fuel init = Some (Returned r) →
  walk graph start p' goal c' →
  ∃ p c, r_path r = Some p ∧ r_cost r = Some c ∧ walk graph start p goal c ∧
         meas p c ≤ meas p' c'.
Proof.
  intros H0 (st & Hruns & Hb)%iterate_runs Hw.
  destruct (cut_inv_runs init st H0 Hruns) as (Hbasic & Hcut & HJ).
  pose proof Hbasic as (_ & _ & Hg & _).
  destruct (r_path r) as [p|] eqn:Hp.
  - destruct (returned_success view PopOK key_ok gact graph goal start body body_step
                st r p Hbasic Hb Hp) as (c & _ & _ & Hc & Hwp & _).
    destruct (returned_popped view PopOK key_ok gact graph goal body body_step
                st r p Hb Hp) as (e & Hok & He & Hn & Hpath & Hcost).
    exists p, c. split_and!; try done.
    assert (c = e_cost view e) as -> by congruence.
    rewrite <- Hn in Hw, Hg.
    pose proof (popped_optimal st e p' c' Hcut (J_min st HJ) Hok Hg Hw) as Hopt.
    unfold score in Hopt. by rewrite Hpath in Hopt.
  - destruct (returned_absent view PopOK key_ok gact graph goal start body body_step
                st r Hbasic Hb Hp) as (_ & Ho & _).
    destruct (frontier_cut st p' goal c' Hcut Hw Hg) as (e & He & _).
    rewrite Ho in He. by apply elem_of_nil in He.
Qed.
End Cut.

(** ** BFS returns a path with the fewest edges *)

Definition hops (e : dfs_entry) : Z := Z.of_nat (length e.1.2) - 1.

(** The queue of BFS is in level order: the hops of its entries do not
    decrease, and none is more than one above an earlier one. *)
Fixpoint bfs_levels (l : list dfs_entry) : Prop :=
  match l with
  | [] => True
  | e :: r => Forall (λ e', hops e ≤ hops e' ≤ hops e + 1) r ∧ bfs_levels r
  end.

Lemma bfs_levels_same (n : list dfs_entry) h :
  Forall (λ e, hops e = h) n → bfs_levels n.
Proof.
  induction 1 as [|e n He Hn IH]; simpl; [done|]. split; [|done].
  eapply Forall_impl; [exact Hn|]. simpl. intros e' He'. lia.
Qed.

Lemma bfs_levels_app (l n : list dfs_entry) h0 :
  bfs_levels l → Forall (λ e, h0 ≤ hops e ≤ h0 + 1) l →
  Forall (λ e, hops e = h0 + 1) n → bfs_levels (l ++ n).
Proof.
  intros Hl Hb Hn. induction l as [|e l IH]; simpl.
  { by eapply bfs_levels_same. }
  destruct Hl as [Hle Hl]. apply Forall_cons in Hb as [He Hb].
  split; [|by apply IH]. apply Forall_app. split; [done|].
  eapply Forall_impl; [exact Hn|]. simpl. intros e' He'. lia.
Qed.

Lemma bfs_levels_body graph goal t0 t1 st st' :
  bfs_levels (st_open st) → bfs_body graph goal t0 t1 st = inl st' →
  bfs_levels (st_open st').
Proof.
  unfold bfs_body. destruct (st_open st) as [|[[cur path] cost] rest]; [done|].
  intros [Hb Hl].
  destruct (decide (cur = goal)); [done|].
  destruct (decide (cur ∈ closed_set st)); [by intros [= <-]|].
  destruct (graph !! cur) as [adj|]; [|done].
  rewrite push_neighbors_spec. intros [= <-]. simpl.
  eapply bfs_levels_app; [done|exact Hb|].
  apply Forall_fmap, Forall_forall. intros it _. unfold hops. simpl.
  rewrite length_app. simpl. lia.
Qed.

Definition bfs_meas (p : list string) (c : Z) : Z := Z.of_nat (length p) - 1.

Lemma bfs_min_pop (st : State dfs_entry string) :
  bfs_levels (st_open st) →
  min_pop dfs_view queue_head bfs_meas (λ _, 0) st.
Proof.
  intros Hl e e' [r Hr] He'. rewrite Hr in Hl, He'. destruct Hl as [Hb _].
  unfold prio, score, bfs_meas.
  apply elem_of_cons in He' as [->|He']; [lia|].
  rewrite Forall_forall in Hb. specialize (Hb e' He'). unfold hops in Hb.
  unfold e_path, dfs_view. lia.
Qed.

Lemma bfs_run_fewest_hops graph start goal t0 t1 r p' c' :
  bfs_collect_trace graph start goal t0 t1 = Some (Returned r) →
  walk graph start p' goal c' →
  ∃ p c, r_path r = Some p ∧ r_cost r = Some c ∧ walk graph start p goal c ∧
         (hop_count p ≤ hop_count p')%nat.
Proof.
  intros Hr Hw.
  assert (Hsnoc : ∀ (p : list string) (c : Z) (v : string) (w : Z),
            bfs_meas (p ++ [v]) (c + w) = bfs_meas p c + 1).
  { intros p c v w. unfold bfs_meas. rewrite length_app. simpl. lia. }
  assert (Hcons : ∀ (u : string) (adj : Adj) (v : string) (w : Z),
            graph !! u = Some adj → (v, w) ∈ adj → 0 ≤ 1 + 0) by (intros; lia).
  assert (Hinit : cut_inv dfs_view graph goal start bfs_meas (λ _, 1)
                    (λ st : State dfs_entry string, bfs_levels (st_open st))
                    (bfs_init start goal)).
  { split_and!.
    - apply bfs_init_basic.
    - split.
      + right. exists (start, [start], 0). split; [by apply list_elem_of_singleton|done].
      + intros u adj v w p c Hu. by apply not_elem_of_empty in Hu.
    - simpl. done. }
  destruct (run_optimal dfs_view queue_head (λ _, True) "GOAL FOUND!" graph goal start
              bfs_meas (λ _, 1) (λ _, 0) eq_refl Hsnoc Hcons
              (bfs_body graph goal t0 t1) _ (bfs_body_step graph goal t0 t1)
              (λ st st', bfs_levels_body graph goal t0 t1 st st') bfs_min_pop
              _ _ r p' c' Hinit Hr Hw) as (p & c & Hp & Hc & Hwp & Hle).
  exists p, c. split_and!; try done. unfold bfs_meas, hop_count in *. lia.
Qed.

(** C3. On a well-formed graph, when goal can be reached from start, BFS
    returns a path from start to goal, and no path of the graph from start
    to goal has fewer edges. *)
Theorem bfs_fewest_hops (graph : Graph) (start goal : string) (start_time end_time : Z) :
  wf_graph graph → start ∈ dom graph →
  (∃ p c, walk graph start p goal c) →
  ∃ r p c,
    bfs_collect_trace graph start goal start_time end_time = Some (Returned r) ∧
    r_path r = Some p ∧ r_cost r = Some c ∧ valid_path graph start goal p c ∧
    ∀ p' c', walk graph start p' goal c' → (hop_count p ≤ hop_count p')%nat.
Proof.
  intros Hwf Hs (p0 & c0 & Hw0).
  destruct (bfs_returns graph start goal start_time end_time Hwf Hs) as [r Hr].
  destruct (bfs_run_fewest_hops graph start goal _ _ r p0 c0 Hr Hw0)
    as (p & c & Hp & Hc & Hw & _).
  exists r, p, c. split_and!; try done.
  - destruct (walk_ends _ _ _ _ _ Hw). by split_and!.
  - intros p' c' Hw'.
    destruct (bfs_run_fewest_hops graph start goal _ _ r p' c' Hr Hw')
      as (p1 & c1 & Hp1 & _ & _ & Hle).
    congruence.
Qed.

(** ** heapq keeps the heap order *)

Definition is_child (i j : nat) : Prop := j = (2 * i + 1)%nat ∨ j = (2 * i + 2)%nat.

Lemma parent_is_child (pos : nat) : (0 < pos)%nat → is_child ((pos - 1) / 2) pos.
Proof.
  intros Hpos. unfold is_child.
  pose proof (Nat.div_mod_eq (pos - 1) 2) as Hd.
  pose proof (Nat.mod_upper_bound (pos - 1) 2) as Hm. lia.
Qed.

Section HeapOrder.
Context {A : Type} (lt : A → A → bool).
(** [le] is an order that [lt] respects, whichever way a test of [lt]
    comes out. *)
Context (le : A → A → Prop).
Hypothesis le_refl : ∀ x, le x x.
Hypothesis le_trans : ∀ x y z, le x y → le y z → le x z.
Hypothesis lt_false_le : ∀ x y, lt y x = false → le x y.
Hypothesis lt_true_le : ∀ x y, lt x y = true → le x y.

(** The heap invariant of heapq: [heap[k] <= heap[2*k+1]] and
    [heap[k] <= heap[2*k+2]]. *)
Definition heap_ordered (h : list A) : Prop :=
  ∀ i j x y, is_child i j → h !! i = Some x → h !! j = Some y → le x y.

Lemma heap_ordered_root (h : list A) r :
  heap_ordered h → h !! 0%nat = Some r → ∀ y, y ∈ h → le r y.
Proof.
  intros Hh Hr y Hy. apply list_elem_of_lookup in Hy as [j Hj].
  revert y Hj. induction (lt_wf j) as [j _ IH]. intros y Hj.
  destruct (decide (j = 0)%nat) as [->|Hne].
  { assert (y = r) as -> by congruence. apply le_refl. }
  assert (Hc : is_child ((j - 1) / 2) j) by (apply parent_is_child; lia).
  assert (Hlt : ((j - 1) / 2 < j)%nat) by (unfold is_child in Hc; lia).
  destruct (h !! ((j - 1) / 2)%nat) as [p|] eqn:Hp.
  2:{ apply lookup_ge_None in Hp. apply lookup_lt_Some in Hj. lia. }
  eapply le_trans; [by apply (IH _ Hlt p)|]. by eapply Hh.
Qed.

Lemma heap_ordered_prefix (h : list A) x : heap_ordered (h ++ [x]) → heap_ordered h.
Proof.
  intros Hh i j a b Hc Hi Hj. eapply Hh; [done| |].
  - by apply lookup_app_l_Some.
  - by apply lookup_app_l_Some.
Qed.

(** The loop of [_siftdown] with [startpos = 0]: [x] is to be placed at
    [pos]; the list is in heap order but for the place of [pos] under its
    parent. *)
Record sifting_down (a : list A) (pos : nat) (x : A) : Prop := {
  sd_pos : (pos < length a)%nat;
  sd_others : ∀ i j p c,
    is_child i j → j ≠ pos → a !! i = Some p → a !! j = Some c → le p c;
  sd_below : ∀ j c, is_child pos j → a !! j = Some c → le x c;
  sd_across : ∀ i j p c,
    is_child i pos → is_child pos j → a !! i = Some p → a !! j = Some c → le p c
}.

Lemma sifting_down_place (a : list A) pos x :
  sifting_down a pos x →
  (∀ i p, is_child i pos → a !! i = Some p → le p x) →
  heap_ordered (<[pos := x]> a).
Proof.
  intros [Hpos Ho Hb Ha] Hpar i j p c Hc Hi Hj.
  apply list_lookup_insert_Some in Hi as [(<- & <- & _)|[Hi1 Hi]];
    apply list_lookup_insert_Some in Hj as [(<- & <- & _)|[Hj1 Hj]].
  - unfold is_child in Hc. lia.
  - by eapply Hb.
  - by eapply Hpar.
  - eapply Ho; eauto.
Qed.

Lemma siftdown_loop_ordered fuel (a : list A) x pos :
  (pos ≤ fuel)%nat → sifting_down a pos x →
  heap_ordered (siftdown_loop lt fuel a x 0 pos).
Proof.
  revert a pos. induction fuel as [|k IH]; intros a pos Hfuel Hsd;
    cbn [siftdown_loop].
  { apply sifting_down_place; [done|]. intros i p Hc. unfold is_child in Hc. lia. }
  case_decide as Hlt.
  2:{ apply sifting_down_place; [done|]. intros i p Hc. unfold is_child in Hc. lia. }
  pose proof (parent_is_child pos Hlt) as Hc.
  set (P := ((pos - 1) / 2)%nat) in *.
  assert (HP : (P < pos)%nat) by (unfold is_child in Hc; lia).
  pose proof Hsd as [Hpos Ho Hb Ha].
  destruct (a !! P) as [p|] eqn:Hp.
  2:{ apply lookup_ge_None in Hp. lia. }
  destruct (lt x p) eqn:Hxp.
  - assert (Hle : le x p) by (by apply lt_true_le).
    apply IH; [lia|]. split.
    + rewrite length_insert. lia.
    + intros i j q c Hij Hj Hi Hjl.
      apply list_lookup_insert_Some in Hi as [(<- & <- & _)|[Hi1 Hi]];
        apply list_lookup_insert_Some in Hjl as [(<- & <- & _)|[Hj1 Hjl]].
      * unfold is_child in Hij. lia.
      * by eapply (Ha P j).
      * assert (i = P) as -> by (unfold is_child in *; lia).
        assert (q = p) as -> by congruence. apply le_refl.
      * by eapply (Ho i j).
    + intros j c Hij Hjl.
      apply list_lookup_insert_Some in Hjl as [(<- & <- & _)|[Hj1 Hjl]]; [done|].
      eapply le_trans; [exact Hle|]. by eapply (Ho P j).
    + intros i j q c HiP HPj Hi Hjl.
      assert (i ≠ pos) by (unfold is_child in *; lia).
      rewrite list_lookup_insert_ne in Hi by done.
      assert (Hqp : le q p) by (eapply (Ho i P); eauto; lia).
      apply list_lookup_insert_Some in Hjl as [(<- & <- & _)|[Hj1 Hjl]]; [done|].
      eapply le_trans; [exact Hqp|]. by eapply (Ho P j).
  - apply sifting_down_place; [done|]. intros i q Hi Hq.
    assert (i = P) as -> by (unfold is_child in *; lia).
    assert (q = p) as -> by congruence. by apply lt_false_le.
Qed.

Lemma heappush_ordered (heap : list A) item :
  heap_ordered heap → heap_ordered (heappush lt heap item).
Proof.
  intros Hh. unfold heappush, _siftdown.
  rewrite lookup_app_r by lia. rewrite Nat.sub_diag. simpl.
  apply siftdown_loop_ordered; [done|]. split.
  - rewrite length_app. simpl. lia.
  - intros i j p c Hij Hj Hi Hjl.
    assert (j < length heap)%nat.
    { apply lookup_lt_Some in Hjl. rewrite length_app in Hjl. simpl in Hjl. lia. }
    rewrite lookup_app_l in Hi, Hjl by (unfold is_child in *; lia).
    by eapply Hh.
  - intros j c Hij Hjl. apply lookup_lt_Some in Hjl.
    rewrite length_app in Hjl. simpl in Hjl. unfold is_child in *. lia.
  - intros i j p c _ Hij _ Hjl. apply lookup_lt_Some in Hjl.
    rewrite length_app in Hjl. simpl in Hjl. unfold is_child in *. lia.
Qed.

(** The loop of [_siftup]: the place [pos] is free; the list is in heap
    order but for the pairs whose parent is [pos]. *)
Record sifting_up (a : list A) (pos : nat) : Prop := {
  su_pos : (pos < length a)%nat;
  su_others : ∀ i j p c,
    is_child i j → i ≠ pos → a !! i = Some p → a !! j = Some c → le p c;
  su_across : ∀ i j p c,
    is_child i pos → is_child pos j → a !! i = Some p → a !! j = Some c → le p c
}.

Lemma siftup_loop_ordered fuel (a : list A) endpos pos a' pos' :
  siftup_loop lt fuel a endpos pos = (a', pos') →
  endpos = length a → (length a ≤ fuel + pos)%nat → sifting_up a pos →
  sifting_up a' pos' ∧ (length a' ≤ 2 * pos' + 1)%nat.
Proof.
  revert a pos. induction fuel as [|k IH]; intros a pos Hrun -> Hfuel Hsu;
    pose proof Hsu as [Hpos Ho Ha]; [lia|].
  cbn [siftup_loop] in Hrun. case_decide as Hlt.
  2:{ injection Hrun as <- <-. split; [done|lia]. }
  set (L := (2 * pos + 1)%nat) in *. set (R := (L + 1)%nat) in *.
  set (cp := if decide (R < length a)%nat then
               match a !! L, a !! R with
               | Some c, Some r => if lt c r then L else R
               | _, _ => L
               end
             else L) in *.
  assert (Hcp : ∃ cv, a !! cp = Some cv ∧ is_child pos cp ∧
                 ∀ j c, is_child pos j → a !! j = Some c → le cv c).
  { unfold cp. destruct (a !! L) as [cl|] eqn:HL.
    2:{ apply lookup_ge_None in HL. lia. }
    assert (HcL : is_child pos L) by (left; done).
    assert (HcR : is_child pos R) by (right; unfold R, L; lia).
    assert (Hjs : ∀ j, is_child pos j → j = L ∨ j = R).
    { intros j Hj. unfold is_child, R, L in *. lia. }
    destruct (a !! R) as [cr|] eqn:HR.
    - rewrite decide_True by (by eapply lookup_lt_Some).
      destruct (lt cl cr) eqn:Hlr.
      + exists cl. split_and!; try done. intros j c [->| ->]%Hjs Hj.
        * assert (c = cl) as -> by congruence. apply le_refl.
        * assert (c = cr) as -> by congruence. by apply lt_true_le.
      + exists cr. split_and!; try done. intros j c [->| ->]%Hjs Hj.
        * assert (c = cl) as -> by congruence. by apply lt_false_le.
        * assert (c = cr) as -> by congruence. apply le_refl.
    - assert ((if decide (R < length a)%nat then L else L) = L) as ->
        by (by case_decide).
      exists cl. split_and!; try done. intros j c [->| ->]%Hjs Hj.
      + assert (c = cl) as -> by congruence. apply le_refl.
      + congruence. }
  destruct Hcp as (cv & Hcv & Hchild & Hmin).
  clearbody cp. rewrite Hcv in Hrun.
  assert (Hne : cp ≠ pos) by (unfold is_child in Hchild; lia).
  assert (Hcplt : (cp < length a)%nat) by (by eapply lookup_lt_Some).
  apply IH in Hrun.
  - done.
  - by rewrite length_insert.
  - rewrite length_insert. unfold is_child in Hchild. lia.
  - split.
    + by rewrite length_insert.
    + intros i j p c Hij Hi Hil Hjl.
      apply list_lookup_insert_Some in Hil as [(<- & <- & _)|[Hi1 Hil]];
        apply list_lookup_insert_Some in Hjl as [(<- & <- & _)|[Hj1 Hjl]].
      * unfold is_child in Hij. lia.
      * by eapply Hmin.
      * by eapply (Ha i cp).
      * by eapply (Ho i j).
    + intros i j p c Hic Hcj Hil Hjl.
      assert (i = pos) as -> by (unfold is_child in *; lia).
      rewrite list_lookup_insert_eq in Hil by done. injection Hil as <-.
      rewrite list_lookup_insert_ne in Hjl by (unfold is_child in *; lia).
      by eapply (Ho cp j).
Qed.

Lemma _siftup_ordered (h : list A) x :
  heap_ordered h → h ≠ [] → heap_ordered (_siftup lt (<[0%nat := x]> h) 0).
Proof.
  intros Hh Hne. set (a := <[0%nat := x]> h).
  assert (Hlen : (0 < length a)%nat).
  { unfold a. rewrite length_insert. destruct h; [done|simpl; lia]. }
  assert (Ha0 : a !! 0%nat = Some x).
  { unfold a in Hlen |- *. apply list_lookup_insert_eq.
    by rewrite length_insert in Hlen. }
  assert (Hsu : sifting_up a 0).
  { split; [done| |].
    - intros i j p c Hij Hi Hil Hjl. unfold a in Hil, Hjl.
      rewrite list_lookup_insert_ne in Hil by done.
      rewrite list_lookup_insert_ne in Hjl by (unfold is_child in Hij; lia).
      by eapply Hh.
    - intros i j p c Hi. unfold is_child in Hi. lia. }
  unfold _siftup. rewrite Ha0.
  destruct (siftup_loop lt (length a) a (length a) 0) as [a' pos'] eqn:Hrun.
  apply siftup_loop_ordered in Hrun as [[Hpos Ho Hac] Hleaf]; [|done|lia|done].
  unfold _siftdown. rewrite list_lookup_insert_eq by done.
  apply siftdown_loop_ordered; [done|]. split.
  - by rewrite length_insert.
  - intros i j p c Hij Hj Hil Hjl.
    rewrite list_lookup_insert_ne in Hjl by done.
    apply list_lookup_insert_Some in Hil as [(<- & <- & _)|[Hi1 Hil]].
    + apply lookup_lt_Some in Hjl. unfold is_child in Hij. lia.
    + by eapply (Ho i j).
  - intros j c Hij Hjl. apply lookup_lt_Some in Hjl.
    rewrite length_insert in Hjl. unfold is_child in Hij. lia.
  - intros i j p c _ Hij _ Hjl. apply lookup_lt_Some in Hjl.
    rewrite length_insert in Hjl. unfold is_child in Hij. lia.
Qed.

Lemma heappop_ordered (heap : list A) x rest :
  heap_ordered heap → heappop lt heap = Some (x, rest) →
  heap_ordered rest ∧ ∀ y, y ∈ heap → le x y.
Proof.
  intros Hh. unfold heappop.
  destruct (list_pop heap) as [[lastelt h]|] eqn:Hp; [|done].
  apply list_pop_Some in Hp as ->.
  destruct h as [|r t]; intros [= <- <-].
  - split; [by intros i j p c _ ?|].
    intros y ->%list_elem_of_singleton. apply le_refl.
  - split.
    + apply (_siftup_ordered (r :: t) lastelt); [|done].
      by eapply heap_ordered_prefix.
    + by apply (heap_ordered_root _ r Hh).
Qed.
End HeapOrder.

(** ** A-star returns a path of least cost *)

(** The heap of A-star is ordered by [f], the first component of its
    items. *)
Definition f_le (a b : astar_entry) : Prop := a.1.1.1 ≤ b.1.1.1.

Lemma entry_ltb_false_le (x y : astar_entry) : entry_ltb y x = false → f_le x y.
Proof.
  destruct x as [[[f1 g1] n1] p1], y as [[[f2 g2] n2] p2]. unfold f_le. simpl.
  destruct (f2 =? f1) eqn:Hf; simpl.
  - apply Z.eqb_eq in Hf. lia.
  - intros ?%Z.ltb_ge. lia.
Qed.

Lemma entry_ltb_true_le (x y : astar_entry) : entry_ltb x y = true → f_le x y.
Proof.
  destruct x as [[[f1 g1] n1] p1], y as [[[f2 g2] n2] p2]. unfold f_le. simpl.
  destruct (f1 =? f2) eqn:Hf; simpl.
  - apply Z.eqb_eq in Hf. lia.
  - intros ?%Z.ltb_lt. lia.
Qed.

Lemma f_le_refl x : f_le x x.
Proof. unfold f_le. lia. Qed.

Lemma f_le_trans x y z : f_le x y → f_le y z → f_le x z.
Proof. unfold f_le. lia. Qed.

Definition pq_ordered (open_pq : list astar_entry) : Prop := heap_ordered f_le open_pq.

Lemma pq_push_ordered open_pq item :
  pq_ordered open_pq → pq_ordered (heappush entry_ltb open_pq item).
Proof.
  exact (heappush_ordered entry_ltb f_le f_le_refl f_le_trans entry_ltb_false_le
           entry_ltb_true_le open_pq item).
Qed.

Lemma pq_pop_ordered open_pq e rest :
  pq_ordered open_pq → heappop entry_ltb open_pq = Some (e, rest) →
  pq_ordered rest ∧ ∀ e', e' ∈ open_pq → f_le e e'.
Proof.
  exact (heappop_ordered entry_ltb f_le f_le_refl f_le_trans entry_ltb_false_le
           entry_ltb_true_le open_pq e rest).
Qed.

Lemma astar_push_neighbors_ordered heuristic closed path g_score items open_pq k pq' k' :
  astar_push_neighbors heuristic closed path g_score items open_pq k = inr (pq', k') →
  pq_ordered open_pq → pq_ordered pq'.
Proof.
  revert open_pq k. induction items as [|[nb w] items IH]; intros open_pq k; simpl.
  { by intros [= <- <-]. }
  destruct (decide (nb ∈ closed)); [apply IH|].
  destruct (heuristic !! nb) as [h|]; [|done].
  intros Hrun Ho. eapply IH; [exact Hrun|]. by apply pq_push_ordered.
Qed.

(** The invariant of A-star's own: the heap is ordered, and the [f] of
    every item is its [g] plus the heuristic value of its node. *)
Definition astar_inv (heuristic : Heuristic) (st : State astar_entry (Z * string)) : Prop :=
  pq_ordered (st_open st) ∧
  ∀ e, e ∈ st_open st → heuristic !! e.1.2 = Some (e.1.1.1 - e.1.1.2).

Lemma astar_inv_body graph goal heuristic t0 t1 st st' :
  astar_inv heuristic st → astar_body graph goal heuristic t0 t1 st = inl st' →
  astar_inv heuristic st'.
Proof.
  intros [Ho Hf]. unfold astar_body.
  destruct (heappop entry_ltb (st_open st)) as [[[[[f g] cur] path] rest]|] eqn:Hpop;
    [|done].
  destruct (pq_pop_ordered _ _ _ Ho Hpop) as [Hrest _].
  apply heappop_perm in Hpop.
  assert (Hfr : ∀ e, e ∈ rest → heuristic !! e.1.2 = Some (e.1.1.1 - e.1.1.2)).
  { intros e He. apply Hf. rewrite Hpop. by apply elem_of_cons; right. }
  destruct (heuristic !! cur) as [h|]; [|done].
  destruct (decide (cur = goal)); [done|].
  destruct (decide (cur ∈ closed_set st)); [by intros [= <-]|].
  destruct (graph !! cur) as [adj|]; [|done].
  pose proof (astar_push_neighbors_spec heuristic ({[cur]} ∪ closed_set st) path g
                (sorted adj) rest 0) as Hspec.
  destruct (astar_push_neighbors _ _ _ _ _ _ _) as [e|[pq' k']] eqn:Hpush; [done|].
  intros [= <-]. split; simpl.
  - by eapply astar_push_neighbors_ordered.
  - destruct Hspec as (new & Hperm & _ & _ & Hnew). intros e He.
    rewrite Hperm in He. apply elem_of_app in He as [He|He]; auto.
Qed.

Definition astar_meas (p : list string) (c : Z) : Z := c.

(** The heuristic value of a node, as a function. *)
Definition h_value (heuristic : Heuristic) (v : string) : Z := default 0 (heuristic !! v).

Lemma astar_min_pop heuristic (st : State astar_entry (Z * string)) :
  astar_inv heuristic st →
  min_pop astar_view heap_top astar_meas (h_value heuristic) st.
Proof.
  intros [Ho Hf] e e' [rest Hpop] He'.
  destruct (pq_pop_ordered _ _ _ Ho Hpop) as [_ Hmin].
  assert (He : e ∈ st_open st).
  { apply heappop_perm in Hpop. rewrite Hpop. by apply elem_of_cons; left. }
  specialize (Hmin e' He'). unfold f_le in Hmin.
  unfold prio, score, astar_meas, h_value, e_node, e_cost, astar_view. simpl.
  rewrite (Hf e He), (Hf e' He'). simpl. lia.
Qed.

Lemma astar_run_optimal graph start goal heuristic t0 t1 r p' c' :
  wf_graph graph → dom graph ⊆ dom heuristic → consistent graph heuristic →
  astar_collect_trace graph start goal heuristic t0 t1 = Some (Returned r) →
  walk graph start p' goal c' →
  ∃ p c, r_path r = Some p ∧ r_cost r = Some c ∧ walk graph start p goal c ∧ c ≤ c'.
Proof.
  intros Hwf Hdom Hcons Hr Hw. unfold astar_collect_trace in Hr.
  destruct (heuristic !! start) as [h_start|] eqn:Hhs; [|done].
  assert (Hhc : ∀ (u : string) (adj : Adj) (v : string) (w : Z),
            graph !! u = Some adj → (v, w) ∈ adj →
            h_value heuristic u ≤ w + h_value heuristic v).
  { intros u adj v w Hu Hv. unfold h_value.
    assert (Hud : u ∈ dom heuristic) by (apply Hdom, elem_of_dom; eauto).
    assert (Hvd : v ∈ dom heuristic) by (apply Hdom; eapply Hwf; eauto).
    apply elem_of_dom in Hud as [hu Hhu]. apply elem_of_dom in Hvd as [hv Hhv].
    rewrite Hhu, Hhv. simpl. by eapply Hcons. }
  assert (Hinit : cut_inv astar_view graph goal start astar_meas (λ w, w)
                    (astar_inv heuristic) (astar_init start goal h_start)).
  { split_and!.
    - apply astar_init_basic.
    - split.
      + right. exists (h_start, 0, start, [start]).
        split; [by apply list_elem_of_singleton|done].
      + intros u adj v w p c Hu. by apply not_elem_of_empty in Hu.
    - split.
      + intros i j x y Hij Hi Hj. apply lookup_lt_Some in Hj.
        simpl in Hj. unfold is_child in Hij. lia.
      + intros e ->%list_elem_of_singleton. simpl. rewrite Hhs. f_equal. lia. }
  exact (run_optimal astar_view heap_top (has_h heuristic) "OPTIMAL GOAL!" graph goal
           start astar_meas (λ w, w) (h_value heuristic) eq_refl (λ _ _ _ _, eq_refl) Hhc
           (astar_body graph goal heuristic t0 t1) _
           (astar_body_step graph goal heuristic t0 t1)
           (λ st st', astar_inv_body graph goal heuristic t0 t1 st st')
           (astar_min_pop heuristic) _ _ r p' c' Hinit Hr Hw).
Qed.

(** C1. On a well-formed graph with positive weights and a heuristic table
    that has a value for every node and is admissible and consistent, when
    goal can be reached from start, A-star returns a path from start to goal
    whose cost is the least cost of all paths from start to goal. *)
Theorem astar_optimal (graph : Graph) (heuristic : Heuristic) (start goal : string)
    (start_time end_time : Z) :
  wf_graph graph → start ∈ dom graph → dom graph ⊆ dom heuristic →
  positive_weights graph → admissible graph heuristic goal →
  consistent graph heuristic →
  (∃ p c, walk graph start p goal c) →
  ∃ r p c,
    astar_collect_trace graph start goal heuristic start_time end_time
      = Some (Returned r) ∧
    r_path r = Some p ∧ r_cost r = Some c ∧ walk graph start p goal c ∧
    shortest_cost graph start goal c.
Proof.
  intros Hwf Hs Hdom _ _ Hcons (p0 & c0 & Hw0).
  destruct (astar_returns graph start goal heuristic start_time end_time Hwf Hs Hdom)
    as [r Hr].
  destruct (astar_run_optimal graph start goal heuristic _ _ r p0 c0 Hwf Hdom Hcons Hr Hw0)
    as (p & c & Hp & Hc & Hw & _).
  exists r, p, c. split_and!; try done. split; [by exists p|].
  intros p' c' Hw'.
  destruct (astar_run_optimal graph start goal heuristic _ _ r p' c' Hwf Hdom Hcons Hr Hw')
    as (p1 & c1 & Hp1 & Hc1 & _ & Hle).
  congruence.
Qed.

(** ** Identifiers that are not in the graph *)

Lemma run_goal_absent {E O} (view : E → string * list string * Z)
    PopOK key_ok gact graph goal start (body : State E O → State E O + Outcome O) init fuel :
  (∀ st, search_step view PopOK key_ok gact graph goal st (body st)) →
  wf_graph graph → (∀ v, v ∈ dom graph → key_ok v) →
  basic_inv view graph goal start init → inv_dom view key_ok graph init →
  (measure graph init < fuel)%nat → goal ∉ dom graph →
  absent_result (iterate body fuel init).
Proof.
  intros Hsim Hwf Hok H0 Hd0 Hfuel Hg.
  destruct (search_terminates view PopOK key_ok gact graph goal body Hsim init fuel
              Hwf Hok Hd0 Hfuel) as [r Hr].
  exists r. split; [done|].
  destruct (r_path r) as [p|] eqn:Hp.
  { exfalso. pose proof Hr as (st & Hruns & Hb)%iterate_runs.
    destruct (returned_popped view PopOK key_ok gact graph goal body Hsim st r p Hb Hp)
      as (e & _ & He & Hn & _).
    assert (Hdom : inv_dom view key_ok graph st).
    { eapply runs_invariant; [exact Hd0| |exact Hruns].
      intros s1 s2 H1 Hb'. pose proof (Hsim s1) as Hs. rewrite Hb' in Hs.
      by eapply inv_dom_step. }
    destruct (Hdom e He) as [Hin _]. by rewrite Hn in Hin. }
  destruct (run_absent view PopOK key_ok gact graph goal start body Hsim init fuel r
              H0 Hr Hp) as (? & ? & ?).
  destruct (run_general view PopOK key_ok gact graph goal start body Hsim init fuel r
              H0 Hr) as (? & ?).
  by split_and!.
Qed.

(** C4, as the code has it.  The searches do not check their arguments.
    When start is not a node of the graph and is not the goal, the lookup
    of its neighbours raises KeyError in the first round, after the
    Initialize record and the record of the first pop (A-star raises it
    before any record when the heuristic table has no value for start).
    When goal is not a node of a well-formed graph, nothing is raised: the
    search returns a Result without a path. *)
Theorem missing_identifier (graph : Graph) (heuristic : Heuristic) (start goal : string)
    (start_time end_time : Z) :
  (start ∉ dom graph → start ≠ goal →
   raises_after (KeyError start) 2
     (dfs_collect_trace graph start goal start_time end_time) ∧
   raises_after (KeyError start) 2
     (bfs_collect_trace graph start goal start_time end_time) ∧
   (start ∈ dom heuristic →
    raises_after (KeyError start) 2
      (astar_collect_trace graph start goal heuristic start_time end_time)) ∧
   (start ∉ dom heuristic →
    raises_after (KeyError start) 0
      (astar_collect_trace graph start goal heuristic start_time end_time))) ∧
  (goal ∉ dom graph → wf_graph graph → start ∈ dom graph →
   dom graph ⊆ dom heuristic →
   absent_result (dfs_collect_trace graph start goal start_time end_time) ∧
   absent_result (bfs_collect_trace graph start goal start_time end_time) ∧
   absent_result (astar_collect_trace graph start goal heuristic start_time end_time)).
Proof.
  split.
  - intros Hs%not_elem_of_dom Hne. split_and!.
    + unfold dfs_collect_trace, search_fuel. simpl. unfold dfs_body. simpl.
      rewrite decide_False by done. rewrite decide_False by apply not_elem_of_empty.
      rewrite Hs. by eexists.
    + unfold bfs_collect_trace, search_fuel. simpl. unfold bfs_body. simpl.
      rewrite decide_False by done. rewrite decide_False by apply not_elem_of_empty.
      rewrite Hs. by eexists.
    + intros [h_start Hh]%elem_of_dom.
      unfold astar_collect_trace, search_fuel. rewrite Hh. simpl.
      unfold astar_body. simpl. rewrite Hh.
      rewrite decide_False by done. rewrite decide_False by apply not_elem_of_empty.
      rewrite Hs. by eexists.
    + intros Hh%not_elem_of_dom. unfold astar_collect_trace. rewrite Hh. by eexists.
  - intros Hg Hwf Hs Hdom.
    assert (Hok : ∀ v, v ∈ dom graph → has_h heuristic v).
    { intros v Hv. apply elem_of_dom. set_solver. }
    split_and!.
    + apply (run_goal_absent dfs_view stack_top (λ _, True) "GOAL FOUND!" graph goal start
               _ _ _ (dfs_body_step graph goal _ _) Hwf (λ _ _, I)
               (dfs_init_basic graph start goal)); [|by apply search_fuel_enough|done].
      by intros e ->%list_elem_of_singleton.
    + apply (run_goal_absent dfs_view queue_head (λ _, True) "GOAL FOUND!" graph goal start
               _ _ _ (bfs_body_step graph goal _ _) Hwf (λ _ _, I)
               (bfs_init_basic graph start goal)); [|by apply search_fuel_enough|done].
      by intros e ->%list_elem_of_singleton.
    + unfold astar_collect_trace. destruct (Hok _ Hs) as [h_start ->].
      apply (run_goal_absent astar_view heap_top (has_h heuristic) "OPTIMAL GOAL!" graph
               goal start _ _ _ (astar_body_step graph goal heuristic _ _) Hwf Hok
               (astar_init_basic graph start goal h_start));
        [|by apply search_fuel_enough|done].
      intros e ->%list_elem_of_singleton. split; [done|].
      unfold e_node; simpl. by apply Hok.
Qed.

(** ** Two calls with the same arguments *)

(** Two rounds that differ in the elapsed time they report, at most. *)
Definition same_round {S O} (a b : S + Outcome O) : Prop :=
  match a, b with
  | inl s, inl s' => s = s'
  | inr o, inr o' => erase_time o = erase_time o'
  | _, _ => False
  end.

Lemma iterate_same_round {S O} (b1 b2 : S → S + Outcome O) fuel s :
  (∀ s, same_round (b1 s) (b2 s)) →
  erase_time <$> iterate b1 fuel s = erase_time <$> iterate b2 fuel s.
Proof.
  intros Hsame. revert s. induction fuel as [|k IH]; intros s; simpl; [done|].
  specialize (Hsame s). unfold same_round in Hsame.
  destruct (b1 s) as [s1|o1], (b2 s) as [s2|o2]; try done.
  - subst. apply IH.
  - simpl. by rewrite Hsame.
Qed.

Lemma dfs_body_same graph goal t0 t1 t0' t1' st :
  same_round (dfs_body graph goal t0 t1 st) (dfs_body graph goal t0' t1' st).
Proof. unfold dfs_body, same_round. repeat case_match; by simplify_eq. Qed.

Lemma bfs_body_same graph goal t0 t1 t0' t1' st :
  same_round (bfs_body graph goal t0 t1 st) (bfs_body graph goal t0' t1' st).
Proof. unfold bfs_body, same_round. repeat case_match; by simplify_eq. Qed.

Lemma astar_body_same graph goal heuristic t0 t1 t0' t1' st :
  same_round (astar_body graph goal heuristic t0 t1 st)
             (astar_body graph goal heuristic t0' t1' st).
Proof. unfold astar_body, same_round. repeat case_match; by simplify_eq. Qed.

Lemma dfs_body_time graph goal t0 t1 st r :
  dfs_body graph goal t0 t1 st = inr (Returned r) → r_time r = t1 - t0.
Proof. unfold dfs_body. repeat case_match; intros; by simplify_eq. Qed.

Lemma bfs_body_time graph goal t0 t1 st r :
  bfs_body graph goal t0 t1 st = inr (Returned r) → r_time r = t1 - t0.
Proof. unfold bfs_body. repeat case_match; intros; by simplify_eq. Qed.

Lemma astar_body_time graph goal heuristic t0 t1 st r :
  astar_body graph goal heuristic t0 t1 st = inr (Returned r) → r_time r = t1 - t0.
Proof. unfold astar_body. repeat case_match; intros; by simplify_eq. Qed.

(** C8, as the code has it.  Two calls of a strategy with the same graph,
    start, goal and heuristic table give the same path, cost, count of
    expanded nodes, count of steps and trace, whatever the clock shows.  The
    elapsed time of a Result is the difference of the two readings of the
    clock that the call makes. *)
Theorem same_inputs_same_result (graph : Graph) (heuristic : Heuristic)
    (start goal : string) (t0 t1 t0' t1' : Z) :
  (without_time (dfs_collect_trace graph start goal t0 t1) =
   without_time (dfs_collect_trace graph start goal t0' t1') ∧
   without_time (bfs_collect_trace graph start goal t0 t1) =
   without_time (bfs_collect_trace graph start goal t0' t1') ∧
   without_time (astar_collect_trace graph start goal heuristic t0 t1) =
   without_time (astar_collect_trace graph start goal heuristic t0' t1')) ∧
  (∀ r, dfs_collect_trace graph start goal t0 t1 = Some (Returned r) →
        r_time r = t1 - t0) ∧
  (∀ r, bfs_collect_trace graph start goal t0 t1 = Some (Returned r) →
        r_time r = t1 - t0) ∧
  (∀ r, astar_collect_trace graph start goal heuristic t0 t1 = Some (Returned r) →
        r_time r = t1 - t0).
Proof.
  split_and!.
  - apply iterate_same_round. intros s. apply dfs_body_same.
  - apply iterate_same_round. intros s. apply bfs_body_same.
  - unfold astar_collect_trace. destruct (heuristic !! start); [|done].
    apply iterate_same_round. intros s. apply astar_body_same.
  - intros r (s & _ & Hb)%iterate_runs. by eapply dfs_body_time.
  - intros r (s & _ & Hb)%iterate_runs. by eapply bfs_body_time.
  - unfold astar_collect_trace. destruct (heuristic !! start); [|done].
    intros r (s & _ & Hb)%iterate_runs. by eapply astar_body_time.
Qed.

(** ** Checks that compute *)

Lemma adj_lookup_elem v adj w : adj_lookup v adj = Some w → (v, w) ∈ adj.
Proof.
  induction adj as [|[k w'] adj IH]; simpl; [done|].
  case_decide as Hk.
  - intros [= ->]. subst. by apply elem_of_cons; left.
  - intros H. apply elem_of_cons; right. by apply IH.
Qed.

Lemma walk_cons g s v adj w p t c :
  g !! s = Some adj → (v, w) ∈ adj → walk g v p t c → walk g s (s :: p) t (w + c).
Proof.
  intros Hs Hv Hw. induction Hw as [|p u c adj' x w' Hw IH Hu Hx].
  - replace (w + 0) with (0 + w) by lia.
    apply (walk_snoc g s [s] s 0 adj v w); [apply walk_start|done..].
  - replace (w + (c + w')) with (w + c + w') by lia.
    apply (walk_snoc g s (s :: p) u (w + c) adj' x w'); done.
Qed.

Lemma route_cost_walk g s rest c :
  route_cost g s rest = Some c → walk g s (s :: rest) (default s (last rest)) c.
Proof.
  revert s c. induction rest as [|v rest IH]; intros s c; simpl.
  { intros [= <-]. apply walk_start. }
  destruct (g !! s) as [adj|] eqn:Hs; [|done].
  destruct (adj_lookup v adj) as [w|] eqn:Hv; [|done].
  destruct (route_cost g v rest) as [c'|] eqn:Hc; [|done].
  intros [= <-]. apply adj_lookup_elem in Hv.
  replace (default s (last (v :: rest))) with (default v (last rest)).
  - eapply walk_cons; eauto.
  - destruct rest as [|x rest]; [done|]. rewrite last_cons_cons.
    destruct (last (x :: rest)) eqn:Hl; [done|]. by apply last_None in Hl.
Qed.

(** A check of [wf_graph] that can be computed. *)
Lemma wf_graph_check (g : Graph) :
  map_Forall (λ _ adj, Forall (λ it : string * Z, it.1 ∈ dom g) adj) g → wf_graph g.
Proof.
  intros H u adj v w Hu Hv. specialize (H u adj Hu). simpl in H.
  rewrite Forall_forall in H. by apply (H (v, w)).
Qed.

Lemma positive_weights_check (g : Graph) :
  map_Forall (λ _ adj, Forall (λ it : string * Z, 0 < it.2) adj) g → positive_weights g.
Proof.
  intros H u adj v w Hu Hv. specialize (H u adj Hu). simpl in H.
  rewrite Forall_forall in H. by apply (H (v, w)).
Qed.

Lemma consistent_check (g : Graph) (heuristic : Heuristic) :
  map_Forall (λ u adj,
    Forall (λ it : string * Z,
      h_value heuristic u ≤ it.2 + h_value heuristic it.1) adj) g →
  consistent g heuristic.
Proof.
  intros H u adj v w hu hv Hu Hv Hhu Hhv. specialize (H u adj Hu). simpl in H.
  rewrite Forall_forall in H. specialize (H (v, w) Hv). simpl in H.
  unfold h_value in H. by rewrite Hhu, Hhv in H.
Qed.

(** A consistent table with [h(goal) = 0] is admissible. *)
Lemma consistent_admissible (g : Graph) (heuristic : Heuristic) goal :
  wf_graph g → dom g ⊆ dom heuristic → consistent g heuristic →
  heuristic !! goal = Some 0 → admissible g heuristic goal.
Proof.
  intros Hwf Hdom Hcons Hg v p c hv Hw Hv.
  assert (H : ∀ t, walk g v p t c → ∃ ht, heuristic !! t = Some ht ∧ hv ≤ c + ht).
  { clear Hw. intros t Hw. induction Hw as [|p u c adj x w Hw IH Hu Hx].
    - exists hv. split; [done|lia].
    - destruct IH as (hu & Hhu & Hle).
      assert (Hxd : x ∈ dom heuristic) by (apply Hdom; eapply Hwf; eauto).
      apply elem_of_dom in Hxd as [hx Hhx]. exists hx. split; [done|].
      pose proof (Hcons u adj x w hu hx Hu Hx Hhu Hhx). lia. }
  destruct (H goal Hw) as (ht & Hht & Hle). assert (ht = 0) by congruence. lia.
Qed.

(** No path leaves a set of nodes that is closed under the edges. *)
Lemma walk_stays (g : Graph) (comp : gset string) s p t c :
  map_Forall (λ u adj, u ∈ comp → Forall (λ it : string * Z, it.1 ∈ comp) adj) g →
  s ∈ comp → walk g s p t c → t ∈ comp.
Proof.
  intros Hcl Hs Hw. induction Hw as [|p u c adj x w Hw IH Hu Hx]; [done|].
  specialize (Hcl u adj Hu IH). rewrite Forall_forall in Hcl. by apply (Hcl (x, w)).
Qed.

(** ** The theorems at concrete inputs *)

Lemma graph_wf : wf_graph graph.
Proof. apply wf_graph_check. compute_done. Qed.

Lemma graph_reachable :
  walk graph "Glogow"
    ["Glogow"; "Leszno"; "Poznan"; "Bydgoszcz"; "Wloclawek"; "Plock"] "Plock" 440.
Proof.
  apply (route_cost_walk graph "Glogow"
           ["Leszno"; "Poznan"; "Bydgoszcz"; "Wloclawek"; "Plock"] 440).
  by vm_compute.
Qed.

Lemma two_islands_apart p c : ¬ walk two_islands "A" p "C" c.
Proof.
  intros Hw. apply (walk_stays two_islands {["A"; "B"]}) in Hw.
  - revert Hw. compute_done.
  - compute_done.
  - compute_done.
Qed.

Lemma astar_optimal_witness :
  wf_graph graph ∧ "Glogow" ∈ dom graph ∧ dom graph ⊆ dom heuristic ∧
  positive_weights graph ∧ admissible graph heuristic "Plock" ∧
  consistent graph heuristic ∧
  (∃ p c, walk graph "Glogow" p "Plock" c) ∧
  ∃ r p c,
    astar_collect_trace graph "Glogow" "Plock" heuristic 0 1 = Some (Returned r) ∧
    r_path r = Some p ∧ r_cost r = Some c ∧ walk graph "Glogow" p "Plock" c ∧
    shortest_cost graph "Glogow" "Plock" c.
Proof.
  assert (Hwf : wf_graph graph) by apply graph_wf.
  assert (Hs : "Glogow" ∈ dom graph) by compute_done.
  assert (Hd : dom graph ⊆ dom heuristic) by compute_done.
  assert (Hp : positive_weights graph) by (apply positive_weights_check; compute_done).
  assert (Hc : consistent graph heuristic) by (apply consistent_check; compute_done).
  assert (Ha : admissible graph heuristic "Plock").
  { apply consistent_admissible; [done..|]. by vm_compute. }
  assert (Hr : ∃ p c, walk graph "Glogow" p "Plock" c).
  { eexists _, _. apply graph_reachable. }
  split_and!; try done.
  by apply (astar_optimal graph heuristic "Glogow" "Plock" 0 1).
Defined.

Lemma search_total_witness :
  wf_graph graph ∧ "Glogow" ∈ dom graph ∧ "Plock" ∈ dom graph ∧
  dom graph ⊆ dom heuristic ∧
  (∃ r, dfs_collect_trace graph "Glogow" "Plock" 0 1 = Some (Returned r)) ∧
  (∃ r, bfs_collect_trace graph "Glogow" "Plock" 0 1 = Some (Returned r)) ∧
  (∃ r, astar_collect_trace graph "Glogow" "Plock" heuristic 0 1 = Some (Returned r)).
Proof.
  assert (Hwf : wf_graph graph) by apply graph_wf.
  assert (Hs : "Glogow" ∈ dom graph) by compute_done.
  assert (Hg : "Plock" ∈ dom graph) by compute_done.
  assert (Hh : dom graph ⊆ dom heuristic) by compute_done.
  split_and!; try done; by apply (search_total graph heuristic "Glogow" "Plock" 0 1).
Defined.

Lemma bfs_fewest_hops_witness :
  wf_graph graph ∧ "Glogow" ∈ dom graph ∧
  (∃ p c, walk graph "Glogow" p "Plock" c) ∧
  ∃ r p c,
    bfs_collect_trace graph "Glogow" "Plock" 0 1 = Some (Returned r) ∧
    r_path r = Some p ∧ r_cost r = Some c ∧ valid_path graph "Glogow" "Plock" p c ∧
    ∀ p' c', walk graph "Glogow" p' "Plock" c' → (hop_count p ≤ hop_count p')%nat.
Proof.
  assert (Hwf : wf_graph graph) by apply graph_wf.
  assert (Hs : "Glogow" ∈ dom graph) by compute_done.
  assert (Hr : ∃ p c, walk graph "Glogow" p "Plock" c).
  { eexists _, _. apply graph_reachable. }
  split_and!; try done.
  by apply (bfs_fewest_hops graph "Glogow" "Plock" 0 1).
Defined.

Lemma missing_identifier_witness :
  (("Z" ∉ dom lone_graph) ∧ "Z" ≠ "A" ∧
   raises_after (KeyError "Z") 2 (dfs_collect_trace lone_graph "Z" "A" 0 1) ∧
   raises_after (KeyError "Z") 2 (bfs_collect_trace lone_graph "Z" "A" 0 1) ∧
   raises_after (KeyError "Z") 0
     (astar_collect_trace lone_graph "Z" "A" lone_heuristic 0 1)) ∧
  (("Z" ∉ dom lone_graph) ∧ wf_graph lone_graph ∧ "A" ∈ dom lone_graph ∧
   dom lone_graph ⊆ dom lone_heuristic ∧
   absent_result (dfs_collect_trace lone_graph "A" "Z" 0 1) ∧
   absent_result (bfs_collect_trace lone_graph "A" "Z" 0 1) ∧
   absent_result (astar_collect_trace lone_graph "A" "Z" lone_heuristic 0 1)).
Proof.
  assert (Hz : "Z" ∉ dom lone_graph) by compute_done.
  assert (Hzh : "Z" ∉ dom lone_heuristic) by compute_done.
  assert (Hne : "Z" ≠ "A") by done.
  assert (Hwf : wf_graph lone_graph) by (apply wf_graph_check; compute_done).
  assert (Ha : "A" ∈ dom lone_graph) by compute_done.
  assert (Hd : dom lone_graph ⊆ dom lone_heuristic) by compute_done.
  destruct (missing_identifier lone_graph lone_heuristic "Z" "A" 0 1) as [H1 _].
  destruct (H1 Hz Hne) as (Hd1 & Hb1 & _ & Ha1).
  destruct (missing_identifier lone_graph lone_heuristic "A" "Z" 0 1) as [_ H2].
  destruct (H2 Hz Hwf Ha Hd) as (Hd2 & Hb2 & Ha2).
  split_and!; auto.
Defined.

(** Against C4 as stated: on a graph without the goal the searches return
    normally, with a full trace; on a graph without the start DFS and BFS
    have appended two records when the error is raised. *)
Lemma missing_identifier_not_fail_fast :
  ("Z" ∉ dom lone_graph) ∧
  ¬ fails_fast (dfs_collect_trace lone_graph "A" "Z" 0 1) ∧
  ¬ fails_fast (bfs_collect_trace lone_graph "A" "Z" 0 1) ∧
  ¬ fails_fast (astar_collect_trace lone_graph "A" "Z" lone_heuristic 0 1) ∧
  ¬ fails_fast (dfs_collect_trace lone_graph "Z" "A" 0 1) ∧
  ¬ fails_fast (bfs_collect_trace lone_graph "Z" "A" 0 1).
Proof.
  split_and!; [compute_done|..]; intros [e He]; vm_compute in He; discriminate He.
Qed.


Lemma goal_record_is_last_witness :
  ∃ rd rb ra,
    (dfs_collect_trace two_islands "A" "B" 0 1 = Some (Returned rd) ∧
     r_path rd = Some ["A"; "B"] ∧ goal_record_last "GOAL FOUND!" rd ["A"; "B"]) ∧
    (bfs_collect_trace two_islands "A" "B" 0 1 = Some (Returned rb) ∧
     r_path rb = Some ["A"; "B"] ∧ goal_record_last "GOAL FOUND!" rb ["A"; "B"]) ∧
    (astar_collect_trace two_islands "A" "B" flat_heuristic 0 1 = Some (Returned ra) ∧
     r_path ra = Some ["A"; "B"] ∧ goal_record_last "OPTIMAL GOAL!" ra ["A"; "B"]).
Proof.
  destruct (goal_record_is_last two_islands flat_heuristic "A" "B" 0 1 ["A"; "B"])
    as (Hd & Hb & Ha).
  eexists _, _, _. split_and!.
  - vm_compute. reflexivity.
  - reflexivity.
  - apply Hd; [vm_compute; reflexivity|reflexivity].
  - vm_compute. reflexivity.
  - reflexivity.
  - apply Hb; [vm_compute; reflexivity|reflexivity].
  - vm_compute. reflexivity.
  - reflexivity.
  - apply Ha; [vm_compute; reflexivity|reflexivity].
Defined.


(** Against C8 as stated: the same call at two times of the clock. *)
Lemma elapsed_time_differs :
  dfs_collect_trace graph "Glogow" "Plock" 0 1 ≠
    dfs_collect_trace graph "Glogow" "Plock" 5 7 ∧
  bfs_collect_trace graph "Glogow" "Plock" 0 1 ≠
    bfs_collect_trace graph "Glogow" "Plock" 5 7 ∧
  astar_collect_trace graph "Glogow" "Plock" heuristic 0 1 ≠
    astar_collect_trace graph "Glogow" "Plock" heuristic 5 7.
Proof.
  split_and!; intros H;
    apply (f_equal (λ o, match o with
                         | Some (Returned r) => r_time r
                         | _ => 0
                         end)) in H;
    vm_compute in H; discriminate H.
Qed.

Lemma same_inputs_same_result_witness :
  ∃ r, dfs_collect_trace two_islands "A" "B" 5 7 = Some (Returned r) ∧ r_time r = 2.
Proof.
  destruct (same_inputs_same_result two_islands flat_heuristic "A" "B" 5 7 0 0)
    as (_ & Hd & _).
  eexists. split; [vm_compute; reflexivity|]. apply Hd. vm_compute. reflexivity.
Defined.

Lemma returned_path_valid_witness :
  ∃ rd rb ra,
    (dfs_collect_trace two_islands "A" "B" 0 1 = Some (Returned rd) ∧
     r_path rd = Some ["A"; "B"] ∧
     ∃ c, r_cost rd = Some c ∧ valid_path two_islands "A" "B" ["A"; "B"] c) ∧
    (bfs_collect_trace two_islands "A" "B" 0 1 = Some (Returned rb) ∧
     r_path rb = Some ["A"; "B"] ∧
     ∃ c, r_cost rb = Some c ∧ valid_path two_islands "A" "B" ["A"; "B"] c) ∧
    (astar_collect_trace two_islands "A" "B" flat_heuristic 0 1 = Some (Returned ra) ∧
     r_path ra = Some ["A"; "B"] ∧
     ∃ c, r_cost ra = Some c ∧ valid_path two_islands "A" "B" ["A"; "B"] c).
Proof.
  destruct (returned_path_valid two_islands flat_heuristic "A" "B" 0 1)
    as ((_ & Hd) & (_ & Hb) & (_ & Ha)).
  eexists _, _, _. split_and!.
  - vm_compute. reflexivity.
  - reflexivity.
  - apply Hd; [vm_compute; reflexivity|reflexivity].
  - vm_compute. reflexivity.
  - reflexivity.
  - apply Hb; [vm_compute; reflexivity|reflexivity].
  - vm_compute. reflexivity.
  - reflexivity.
  - apply Ha; [vm_compute; reflexivity|reflexivity].
Defined.

Lemma start_is_goal_witness :
  "Glogow" ∈ dom graph ∧
  immediate_result "Glogow" (dfs_collect_trace graph "Glogow" "Glogow" 0 1) ∧
  immediate_result "Glogow" (bfs_collect_trace graph "Glogow" "Glogow" 0 1) ∧
  ("Glogow" ∈ dom heuristic ∧
   immediate_result "Glogow"
     (astar_collect_trace graph "Glogow" "Glogow" heuristic 0 1)).
Proof.
  assert (Hs : "Glogow" ∈ dom graph) by compute_done.
  assert (Hh : "Glogow" ∈ dom heuristic) by compute_done.
  destruct (start_is_goal graph heuristic "Glogow" 0 1 Hs) as (Hd & Hb & Ha).
  split_and!; auto.
Defined.

(** ** The reference run of the script *)

Example dfs_reference :
  (λ r, (r_path r, r_cost r, r_nodes_expanded r, r_steps r)) <$>
    (dfs_collect_trace graph "Glogow" "Plock" 0 0 ≫=
       λ o, match o with Returned r => Some r | Raised _ _ => None end) =
  Some (Some ["Glogow"; "Leszno"; "Poznan"; "Bydgoszcz"; "Wloclawek"; "Plock"],
        Some 440, 5%nat, 6%nat).
Proof. by vm_compute. Qed.

Example bfs_reference :
  (λ r, (r_path r, r_cost r, r_nodes_expanded r, r_steps r)) <$>
    (bfs_collect_trace graph "Glogow" "Plock" 0 0 ≫=
       λ o, match o with Returned r => Some r | Raised _ _ => None end) =
  Some (Some ["Glogow"; "Leszno"; "Kalisz"; "Lodz"; "Warsaw"; "Plock"],
        Some 575, 16%nat, 22%nat).
Proof. by vm_compute. Qed.

Example astar_reference :
  (λ r, (r_path r, r_cost r, r_nodes_expanded r, r_steps r)) <$>
    (astar_collect_trace graph "Glogow" "Plock" heuristic 0 0 ≫=
       λ o, match o with Returned r => Some r | Raised _ _ => None end) =
  Some (Some ["Glogow"; "Leszno"; "Poznan"; "Bydgoszcz"; "Wloclawek"; "Plock"],
        Some 440, 9%nat, 10%nat).
Proof. by vm_compute. Qed.

(** The heap after the pushes of the third expansion, as [heapq] lays it
    out. *)
Example heappush_layout :
  pq_snapshot
    (heappush entry_ltb
       (heappush entry_ltb [(395, 175, "Kalisz", []); (440, 140, "Wroclaw", [])]
          (375, 275, "Bydgoszcz", []))
       (405, 255, "Konin", [])) =
  [(375, "Bydgoszcz"); (405, "Konin"); (395, "Kalisz"); (440, "Wroclaw")].
Proof. by vm_compute. Qed.

(** More fuel than [search_fuel] changes nothing. *)
Lemma search_fuel_irrelevant {S R} (body : S → S + R) fuel fuel' s r :
  iterate body fuel s = Some r → (fuel ≤ fuel')%nat → iterate body fuel' s = Some r.
Proof. apply iterate_more. Qed.

(** * Further properties of the searches *)

(** The step index [n] as [2 * n], [n + 0.5] as [2 * n + 1]. *)
Definition step_code (i : step_ix) : nat :=
  match i with
  | Whole n => (2 * n)%nat
  | Half n => (2 * n + 1)%nat
  end.

(** The step indices of a trace increase from each record to the next. *)
Fixpoint steps_increasing {O} (tr : list (TraceRec O)) : Prop :=
  match tr with
  | [] => True
  | r :: tr' =>
      Forall (λ r', (step_code (t_step r) < step_code (t_step r'))%nat) tr' ∧
      steps_increasing tr'
  end.

(** [sum(len(v) for v in graph.values())] *)
Definition total_items (g : Graph) : nat := remaining g ∅.

Lemma steps_increasing_snoc {O} (tr : list (TraceRec O)) r :
  steps_increasing (tr ++ [r]) ↔
  steps_increasing tr ∧
  Forall (λ r', (step_code (t_step r') < step_code (t_step r))%nat) tr.
Proof.
  induction tr as [|r0 tr IH]; simpl.
  - split; [done|]. intros _. split; [constructor|done].
  - rewrite IH, Forall_app, Forall_singleton, Forall_cons. tauto.
Qed.

Section MoreInvariants.
Context {E O : Type} (view : E → string * list string * Z).
Context (PopOK : list E → E → Prop) (key_ok : string → Prop) (gact : string).
Context (graph : Graph) (goal start : string).

Abbreviation sstep := (search_step view PopOK key_ok gact graph goal).
Abbreviation nd := (e_node view).
Abbreviation pth := (e_path view).
Abbreviation cst := (e_cost view).

(** The path of a frontier entry ends at its node, visits no node twice,
    and all its nodes before the last are closed. *)
Definition inv_simple (st : State E O) : Prop :=
  ∀ e, e ∈ st_open st →
    ∃ q, pth e = q ++ [nd e] ∧ NoDup (pth e) ∧ ∀ v, v ∈ q → v ∈ closed_set st.

Lemma inv_simple_step (st st' : State E O) :
  sstep st (inl st') → inv_simple st → inv_simple st'.
Proof.
  inversion 1 as [| |e0 rest r1 Hp _ _ _ _
                 |e0 rest r1 adj new open' tr' Hp _ _ _ Hnc Hadj Ho Hn _|];
    subst; intros Hinv e He; simpl in *.
  - apply Hinv. rewrite Hp. by apply elem_of_cons; right.
  - destruct (expanded_entry view e0 _ adj new rest open' e Ho Hn He)
      as [Hr|(v & w & Hit & Hvc & Hv)].
    + destruct (Hinv e) as (q & Hq & Hnd & Hcl).
      { rewrite Hp. by apply elem_of_cons; right. }
      exists q. split_and!; try done. intros x Hx. set_solver.
    + destruct (Hinv e0) as (q & Hq & Hnd & Hcl).
      { rewrite Hp. by apply elem_of_cons; left. }
      assert (Hsub : ∀ x, x ∈ pth e0 → x ∈ {[nd e0]} ∪ closed_set st).
      { intros x. rewrite Hq. intros [Hx|Hx%list_elem_of_singleton]%elem_of_app.
        - apply elem_of_union; right. by apply Hcl.
        - apply elem_of_union; left. by apply elem_of_singleton. }
      exists (pth e0). unfold e_path, e_node at 1 2. rewrite Hv. simpl.
      split_and!; try done.
      apply NoDup_app. split_and!; [done| |apply NoDup_singleton].
      intros x Hx ->%list_elem_of_singleton. apply Hvc. by apply Hsub.
Qed.

(** Closed nodes are nodes of the graph that can be reached from start. *)
Definition inv_closed (st : State E O) : Prop :=
  ∀ v, v ∈ closed_set st → v ∈ dom graph ∧ ∃ p c, walk graph start p v c.

Lemma inv_closed_step (st st' : State E O) :
  sstep st (inl st') → inv_valid view graph start st → inv_closed st → inv_closed st'.
Proof.
  inversion 1 as [| |e0 rest r1 Hp _ _ _ _
                 |e0 rest r1 adj new open' tr' Hp _ _ _ Hnc Hadj Ho Hn _|];
    subst; intros Hval Hinv v Hv; simpl in *; [by apply Hinv|].
  apply elem_of_union in Hv as [->%elem_of_singleton|Hv]; [|by apply Hinv].
  split; [apply elem_of_dom; eauto|].
  eexists _, _. apply Hval. rewrite Hp. by apply elem_of_cons; left.
Qed.

(** Counters: a round expands at most one node and appends one or two
    records; [bound] is the measure of the initial state. *)
Definition inv_counts (bound : nat) (st : State E O) : Prop :=
  (nodes_expanded st ≤ step st)%nat ∧
  (step st + 1 ≤ length (trace st))%nat ∧
  (length (trace st) ≤ 2 * step st + 1)%nat ∧
  (step st + measure graph st ≤ bound)%nat ∧
  (step st = 0%nat → st_open st ≠ []).

Lemma inv_counts_step bound (st st' : State E O) :
  sstep st (inl st') → inv_counts bound st → inv_counts bound st'.
Proof.
  intros Hstep (Hn & Hlo & Hhi & Hb & _).
  pose proof (measure_step view PopOK key_ok gact graph goal st st' Hstep) as Hm.
  inversion Hstep as [| |e0 rest r1 Hp _ _ _ _
                     |e0 rest r1 adj new open' tr' Hp _ _ _ Hnc Hadj Ho Hn' Htr|];
    subst; unfold inv_counts; simpl in *.
  - rewrite length_app. simpl. split_and!; lia.
  - destruct Htr as [[-> ->]|(_ & r2 & _ & ->)]; rewrite length_app; simpl;
      split_and!; lia.
Qed.

(** Step indices: the trace starts at 0, its indices increase, and none is
    beyond the round that was last begun. *)
Definition inv_steps (st : State E O) : Prop :=
  (∃ r0 tl, trace st = r0 :: tl ∧ t_step r0 = Whole 0) ∧
  steps_increasing (trace st) ∧
  Forall (λ r, (step_code (t_step r) ≤ 2 * step st + 1)%nat) (trace st).

Lemma inv_steps_step (st st' : State E O) :
  sstep st (inl st') → inv_steps st → inv_steps st'.
Proof.
  intros Hstep ((r0 & tl & Htr0 & Hr0) & Hinc & Hle).
  assert (Hlt : ∀ k, (2 * step st + 1 < k)%nat →
            Forall (λ r : TraceRec O, (step_code (t_step r) < k)%nat) (trace st)).
  { intros k Hk. eapply Forall_impl; [exact Hle|]. simpl. intros r Hr. lia. }
  inversion Hstep as [| |e0 rest r1 Hp _ Hr1 _ _
                     |e0 rest r1 adj new open' tr' Hp _ Hr1 _ Hnc Hadj Ho Hn' Htr|];
    subst; unfold inv_steps; simpl in *; destruct Hr1 as [Hs1 _ _ _ _ _ _].
  - split_and!.
    + exists r0, (tl ++ [r1]). by rewrite Htr0.
    + apply steps_increasing_snoc. split; [done|]. rewrite Hs1. simpl. apply Hlt. lia.
    + apply Forall_app. split.
      * eapply Forall_impl; [exact Hle|]. simpl. intros r Hr. lia.
      * apply Forall_singleton. rewrite Hs1. simpl. lia.
  - destruct Htr as [[-> ->]|(_ & r2 & [Hs2 _ _ _ _ _ _] & ->)].
    + split_and!.
      * exists r0, (tl ++ [r1]). by rewrite Htr0.
      * apply steps_increasing_snoc. split; [done|]. rewrite Hs1. simpl. apply Hlt. lia.
      * apply Forall_app. split.
        -- eapply Forall_impl; [exact Hle|]. simpl. intros r Hr. lia.
        -- apply Forall_singleton. rewrite Hs1. simpl. lia.
    + replace (trace st ++ [r1; r2]) with ((trace st ++ [r1]) ++ [r2])
        by (by rewrite <- app_assoc).
      split_and!.
      * exists r0, (tl ++ [r1; r2]). rewrite Htr0. by rewrite <- app_assoc.
      * rewrite !steps_increasing_snoc, Forall_app, Forall_singleton, Hs1, Hs2.
        simpl. split_and!; [done|apply Hlt; lia|apply Hlt; lia|lia].
      * rewrite !Forall_app, !Forall_singleton, Hs1, Hs2. simpl. split_and!; [|lia..].
        eapply Forall_impl; [exact Hle|]. simpl. intros r Hr. lia.
Qed.
End MoreInvariants.

Section MoreReach.
Context {E O : Type} (view : E → string * list string * Z).
Context (PopOK : list E → E → Prop) (key_ok : string → Prop) (gact : string).
Context (graph : Graph) (goal start : string).
Context (body : State E O → State E O + Outcome O).
Hypothesis body_step : ∀ st, search_step view PopOK key_ok gact graph goal st (body st).

Definition more_inv (bound : nat) (st : State E O) : Prop :=
  basic_inv view graph goal start st ∧ inv_simple view st ∧
  inv_closed graph start st ∧ inv_counts graph bound st ∧ inv_steps st.

Lemma more_inv_runs bound init st :
  more_inv bound init → runs body init st → more_inv bound st.
Proof.
  intros H0 Hruns. eapply runs_invariant; [exact H0| |exact Hruns].
  intros s1 s2 (Hb & Hs & Hc & Hn & Hi) Hbody.
  pose proof (body_step s1) as Hstep. rewrite Hbody in Hstep. split_and!.
  - by eapply basic_inv_body.
  - by eapply inv_simple_step.
  - eapply inv_closed_step; [done| |done]. apply Hb.
  - by eapply inv_counts_step.
  - by eapply inv_steps_step.
Qed.

(** The counters and the step indices of a Result. *)
Lemma returned_counts bound st r :
  more_inv bound st → body st = inr (Returned r) →
  (1 ≤ r_steps r ≤ bound)%nat ∧
  (r_nodes_expanded r ≤ r_steps r)%nat ∧
  (is_Some (r_path r) → r_nodes_expanded r < r_steps r)%nat ∧
  (r_nodes_expanded r ≤ size (dom graph))%nat ∧
  (r_steps r + 1 ≤ length (r_trace r) ≤ 2 * r_steps r + 1)%nat.
Proof.
  intros (Hb & _ & Hc & (Hn & Hlo & Hhi & Hbd & H0) & _) Hbody.
  pose proof Hb as (_ & Hcount & _ & _). unfold inv_count in Hcount.
  assert (Hdom : (nodes_expanded st ≤ size (dom graph))%nat).
  { rewrite Hcount. apply subseteq_size. intros v Hv. by apply Hc. }
  pose proof (body_step st) as Hs. rewrite Hbody in Hs. unfold measure in Hbd.
  inversion Hs as [t Ho|e rest r1 r2 t Hp _ Hr1 He Hr2| | |]; subst; simpl.
  - assert (step st ≠ 0)%nat by (intros Hz; by apply H0).
    split_and!; try lia. by intros [? ?].
  - rewrite Hp in Hbd. simpl in Hbd. rewrite length_app. simpl.
    split_and!; try lia.
Qed.

Lemma returned_steps bound st r :
  more_inv bound st → body st = inr (Returned r) →
  (∃ r0 tl, r_trace r = r0 :: tl ∧ t_step r0 = Whole 0) ∧
  steps_increasing (r_trace r) ∧
  Forall (λ rec, (step_code (t_step rec) ≤ 2 * r_steps r + 1)%nat) (r_trace r).
Proof.
  intros (_ & _ & _ & _ & ((r0 & tl & Htr0 & Hr0) & Hinc & Hle)) Hbody.
  assert (Hlt : ∀ k, (2 * step st + 1 < k)%nat →
            Forall (λ r : TraceRec O, (step_code (t_step r) < k)%nat) (trace st)).
  { intros k Hk. eapply Forall_impl; [exact Hle|]. simpl. intros r' Hr'. lia. }
  pose proof (body_step st) as Hs. rewrite Hbody in Hs.
  inversion Hs as [t Ho|e rest r1 r2 t Hp _ Hr1 He Hr2| | |]; subst; simpl.
  { split_and!; eauto. }
  destruct Hr1 as [Hs1 _ _ _ _ _ _], Hr2 as [Hs2 _ _ _ _ _ _].
  replace (trace st ++ [r1; r2]) with ((trace st ++ [r1]) ++ [r2])
    by (by rewrite <- app_assoc).
  split_and!.
  - exists r0, (tl ++ [r1; r2]). rewrite Htr0. by rewrite <- app_assoc.
  - rewrite !steps_increasing_snoc, Forall_app, Forall_singleton, Hs1, Hs2.
    simpl. split_and!; [done|apply Hlt; lia|apply Hlt; lia|lia].
  - rewrite !Forall_app, !Forall_singleton, Hs1, Hs2. simpl. split_and!; [|lia..].
    eapply Forall_impl; [exact Hle|]. simpl. intros r' Hr'. lia.
Qed.

(** The path of a Result visits no node twice. *)
Lemma returned_simple bound st r p :
  more_inv bound st → body st = inr (Returned r) → r_path r = Some p → NoDup p.
Proof.
  intros (_ & Hsimple & _) Hbody Hp.
  destruct (returned_popped view PopOK key_ok gact graph goal body body_step st r p
              Hbody Hp) as (e & _ & He & _ & Hpath & _).
  destruct (Hsimple e He) as (q & _ & Hnd & _). by rewrite <- Hpath.
Qed.

(** The same, for a whole run. *)
Lemma run_counts bound init fuel r :
  more_inv bound init → iterate body fuel init = Some (Returned r) →
  (1 ≤ r_steps r ≤ bound)%nat ∧
  (r_nodes_expanded r ≤ r_steps r)%nat ∧
  (is_Some (r_path r) → r_nodes_expanded r < r_steps r)%nat ∧
  (r_nodes_expanded r ≤ size (dom graph))%nat ∧
  (r_steps r + 1 ≤ length (r_trace r) ≤ 2 * r_steps r + 1)%nat.
Proof.
  intros H0 (st & Hruns & Hb)%iterate_runs.
  apply (returned_counts bound st r); [by eapply more_inv_runs|done].
Qed.

Lemma run_steps bound init fuel r :
  more_inv bound init → iterate body fuel init = Some (Returned r) →
  (∃ r0 tl, r_trace r = r0 :: tl ∧ t_step r0 = Whole 0) ∧
  steps_increasing (r_trace r) ∧
  Forall (λ rec, (step_code (t_step rec) ≤ 2 * r_steps r + 1)%nat) (r_trace r).
Proof.
  intros H0 (st & Hruns & Hb)%iterate_runs.
  apply (returned_steps bound st r); [by eapply more_inv_runs|done].
Qed.

Lemma run_simple bound init fuel r p :
  more_inv bound init → iterate body fuel init = Some (Returned r) →
  r_path r = Some p → NoDup p.
Proof.
  intros H0 (st & Hruns & Hb)%iterate_runs Hp.
  apply (returned_simple bound st r p); [by eapply more_inv_runs|done..].
Qed.
End MoreReach.

Lemma init_more_inv {E O} (view : E → string * list string * Z) graph goal start
    (init : State E O) e r0 :
  basic_inv view graph goal start init →
  st_open init = [e] → view e = (start, [start], 0) →
  closed_set init = ∅ → trace init = [r0] → t_step r0 = Whole 0 →
  nodes_expanded init = 0%nat → step init = 0%nat →
  more_inv view graph goal start (S (total_items graph)) init.
Proof.
  intros Hb Ho Hv Hc Ht Hr0 Hn Hs. split_and!; [done|..].
  - intros e' He'. rewrite Ho in He'. apply list_elem_of_singleton in He' as ->.
    exists []. unfold e_path, e_node. rewrite Hv. simpl.
    split_and!; [done|apply NoDup_singleton|]. by intros v ?%elem_of_nil.
  - intros v Hv'. rewrite Hc in Hv'. by apply not_elem_of_empty in Hv'.
  - unfold inv_counts, measure, total_items. rewrite Ho, Hc, Ht, Hn, Hs. simpl.
    split_and!; try lia. done.
  - unfold inv_steps. rewrite Ht, Hs. split_and!.
    + by exists r0, [].
    + simpl. split; [constructor|done].
    + apply Forall_singleton. rewrite Hr0. simpl. lia.
Qed.

Lemma dfs_init_more graph start goal :
  more_inv dfs_view graph goal start (S (total_items graph)) (dfs_init start goal).
Proof. eapply init_more_inv; try done. apply dfs_init_basic. Qed.

Lemma bfs_init_more graph start goal :
  more_inv dfs_view graph goal start (S (total_items graph)) (bfs_init start goal).
Proof. eapply init_more_inv; try done. apply bfs_init_basic. Qed.

Lemma astar_init_more graph start goal h_start :
  more_inv astar_view graph goal start (S (total_items graph))
    (astar_init start goal h_start).
Proof. eapply init_more_inv; try done. apply astar_init_basic. Qed.

(** X1. The path that a search returns visits no node twice. *)
Theorem returned_path_simple (graph : Graph) (heuristic : Heuristic) (start goal : string)
    (start_time end_time : Z) :
  (∀ r p, dfs_collect_trace graph start goal start_time end_time = Some (Returned r) →
          r_path r = Some p → NoDup p) ∧
  (∀ r p, bfs_collect_trace graph start goal start_time end_time = Some (Returned r) →
          r_path r = Some p → NoDup p) ∧
  (∀ r p, astar_collect_trace graph start goal heuristic start_time end_time
          = Some (Returned r) →
          r_path r = Some p → NoDup p).
Proof.
  split_and!.
  - intros r p. apply (run_simple dfs_view stack_top (λ _, True) "GOAL FOUND!" graph goal
                         start _ (dfs_body_step graph goal _ _) _ _ _ r p
                         (dfs_init_more graph start goal)).
  - intros r p. apply (run_simple dfs_view queue_head (λ _, True) "GOAL FOUND!" graph goal
                         start _ (bfs_body_step graph goal _ _) _ _ _ r p
                         (bfs_init_more graph start goal)).
  - unfold astar_collect_trace. intros r p.
    destruct (heuristic !! start) as [h_start|]; [|done].
    apply (run_simple astar_view heap_top (has_h heuristic) "OPTIMAL GOAL!" graph goal
             start _ (astar_body_step graph goal heuristic _ _) _ _ _ r p
             (astar_init_more graph start goal h_start)).
Qed.

(** The counters of a Result: at least one round and at most one more
    than the graph has items; at most one node expanded a round, none in
    the round that finds the goal, and no more than the graph has nodes. *)
Definition effort_bounds {O} (g : Graph) (r : Result O) : Prop :=
  (1 ≤ r_steps r ≤ S (total_items g))%nat ∧
  (r_nodes_expanded r ≤ r_steps r)%nat ∧
  (is_Some (r_path r) → r_nodes_expanded r < r_steps r)%nat ∧
  (r_nodes_expanded r ≤ size (dom g))%nat.

(** X2. Every search takes between one round and one round more than the
    sum of the lengths of the inner dicts of the graph; it expands at most
    one node a round, none in the round that finds the goal, and never more
    nodes than the graph has. *)
Theorem search_effort (graph : Graph) (heuristic : Heuristic) (start goal : string)
    (start_time end_time : Z) :
  (∀ r, dfs_collect_trace graph start goal start_time end_time = Some (Returned r) →
        effort_bounds graph r) ∧
  (∀ r, bfs_collect_trace graph start goal start_time end_time = Some (Returned r) →
        effort_bounds graph r) ∧
  (∀ r, astar_collect_trace graph start goal heuristic start_time end_time
        = Some (Returned r) →
        effort_bounds graph r).
Proof.
  split_and!.
  - intros r Hr.
    destruct (run_counts dfs_view stack_top (λ _, True) "GOAL FOUND!" graph goal
                start _ (dfs_body_step graph goal _ _) _ _ _ r
                (dfs_init_more graph start goal) Hr) as (? & ? & ? & ? & _).
    unfold effort_bounds. split_and!; try done; lia.
  - intros r Hr.
    destruct (run_counts dfs_view queue_head (λ _, True) "GOAL FOUND!" graph goal
                start _ (bfs_body_step graph goal _ _) _ _ _ r
                (bfs_init_more graph start goal) Hr) as (? & ? & ? & ? & _).
    unfold effort_bounds. split_and!; try done; lia.
  - unfold astar_collect_trace. intros r Hr.
    destruct (heuristic !! start) as [h_start|]; [|done].
    destruct (run_counts astar_view heap_top (has_h heuristic) "OPTIMAL GOAL!" graph goal
                start _ (astar_body_step graph goal heuristic _ _) _ _ _ r
                (astar_init_more graph start goal h_start) Hr) as (? & ? & ? & ? & _).
    unfold effort_bounds. split_and!; try done; lia.
Qed.

(** The trace of a Result: it starts with the record of step 0, its step
    indices increase and end at the last round, and it has one or two
    records for each round. *)
Definition trace_shape {O} (r : Result O) : Prop :=
  (∃ r0 tl, r_trace r = r0 :: tl ∧ t_step r0 = Whole 0) ∧
  steps_increasing (r_trace r) ∧
  Forall (λ rec, (step_code (t_step rec) ≤ 2 * r_steps r + 1)%nat) (r_trace r) ∧
  (r_steps r + 1 ≤ length (r_trace r) ≤ 2 * r_steps r + 1)%nat.

(** X3. The trace of every Result starts at step 0; its step indices
    increase strictly from record to record and none is beyond the last
    round plus a half; it has the Initialize record and one or two records
    for each round. *)
Theorem trace_in_step_order (graph : Graph) (heuristic : Heuristic) (start goal : string)
    (start_time end_time : Z) :
  (∀ r, dfs_collect_trace graph start goal start_time end_time = Some (Returned r) →
        trace_shape r) ∧
  (∀ r, bfs_collect_trace graph start goal start_time end_time = Some (Returned r) →
        trace_shape r) ∧
  (∀ r, astar_collect_trace graph start goal heuristic start_time end_time
        = Some (Returned r) →
        trace_shape r).
Proof.
  split_and!.
  - intros r Hr.
    destruct (run_counts dfs_view stack_top (λ _, True) "GOAL FOUND!" graph goal
                start _ (dfs_body_step graph goal _ _) _ _ _ r
                (dfs_init_more graph start goal) Hr) as (_ & _ & _ & _ & ?).
    destruct (run_steps dfs_view stack_top (λ _, True) "GOAL FOUND!" graph goal
                start _ (dfs_body_step graph goal _ _) _ _ _ r
                (dfs_init_more graph start goal) Hr) as (? & ? & ?).
    unfold trace_shape. split_and!; try done; lia.
  - intros r Hr.
    destruct (run_counts dfs_view queue_head (λ _, True) "GOAL FOUND!" graph goal
                start _ (bfs_body_step graph goal _ _) _ _ _ r
                (bfs_init_more graph start goal) Hr) as (_ & _ & _ & _ & ?).
    destruct (run_steps dfs_view queue_head (λ _, True) "GOAL FOUND!" graph goal
                start _ (bfs_body_step graph goal _ _) _ _ _ r
                (bfs_init_more graph start goal) Hr) as (? & ? & ?).
    unfold trace_shape. split_and!; try done; lia.
  - unfold astar_collect_trace. intros r Hr.
    destruct (heuristic !! start) as [h_start|]; [|done].
    destruct (run_counts astar_view heap_top (has_h heuristic) "OPTIMAL GOAL!" graph goal
                start _ (astar_body_step graph goal heuristic _ _) _ _ _ r
                (astar_init_more graph start goal h_start) Hr) as (_ & _ & _ & _ & ?).
    destruct (run_steps astar_view heap_top (has_h heuristic) "OPTIMAL GOAL!" graph goal
                start _ (astar_body_step graph goal heuristic _ _) _ _ _ r
                (astar_init_more graph start goal h_start) Hr) as (? & ? & ?).
    unfold trace_shape. split_and!; try done; lia.
Qed.

(** *** Every reachable node is explored *)

(** The cut of the frontier, with every path measured 0: it holds for any
    order of the pops. *)
Section Explore.
Context {E O : Type} (view : E → string * list string * Z).
Context (PopOK : list E → E → Prop) (key_ok : string → Prop) (gact : string).
Context (graph : Graph) (goal start : string).
Context (body : State E O → State E O + Outcome O).
Hypothesis body_step : ∀ st, search_step view PopOK key_ok gact graph goal st (body st).

Definition flat_cut (st : State E O) : Prop :=
  cut_inv view graph goal start (λ _ _, 0) (λ _, 0) (λ _, True) st.

Lemma flat_cut_runs init st : flat_cut init → runs body init st → flat_cut st.
Proof.
  apply (cut_inv_runs view PopOK key_ok gact graph goal start (λ _ _, 0) (λ _, 0)
           (λ _, 0) eq_refl (λ _ _ _ _, eq_refl)
           (λ _ _ _ _ _ _, Z.le_refl 0) body (λ _, True) body_step (λ _ _ _ _, I)).
  intros s _ e e' _ _. unfold prio, score. lia.
Qed.

Lemma flat_cut_frontier st p v c :
  flat_cut st → walk graph start p v c → v ∉ closed_set st → st_open st ≠ [].
Proof.
  intros (_ & Hcut & _) Hw Hv.
  destruct (frontier_cut view graph start (λ _ _, 0) (λ _, 0) (λ _, 0) eq_refl
              (λ _ _ _ _, eq_refl) (λ _ _ _ _ _ _, Z.le_refl 0) st p v c Hcut Hw Hv)
    as (e & He & _).
  intros Ho. rewrite Ho in He. by apply elem_of_nil in He.
Qed.

(** A search that can reach the goal returns a path. *)
Lemma run_complete init fuel r p0 c0 :
  flat_cut init → iterate body fuel init = Some (Returned r) →
  walk graph start p0 goal c0 →
  ∃ p c, r_path r = Some p ∧ r_cost r = Some c ∧ walk graph start p goal c.
Proof.
  intros H0 (st & Hruns & Hb)%iterate_runs Hw.
  pose proof (flat_cut_runs init st H0 Hruns) as Hst.
  pose proof Hst as (Hbasic & _ & _). pose proof Hbasic as (_ & _ & Hg & _).
  destruct (r_path r) as [p|] eqn:Hp.
  - destruct (returned_success view PopOK key_ok gact graph goal start body body_step
                st r p Hbasic Hb Hp) as (c & _ & _ & Hc & Hwp & _).
    by exists p, c.
  - destruct (returned_absent view PopOK key_ok gact graph goal start body body_step
                st r Hbasic Hb Hp) as (_ & Ho & _).
    by destruct (flat_cut_frontier st p0 goal c0 Hst Hw Hg).
Qed.

(** A search that returns no path has closed exactly the nodes that can be
    reached from start. *)
Lemma run_exhaustive bound init fuel r :
  flat_cut init → more_inv view graph goal start bound init →
  iterate body fuel init = Some (Returned r) → r_path r = None →
  ∃ closed : gset string,
    r_nodes_expanded r = size closed ∧
    ∀ v, v ∈ closed ↔ ∃ p c, walk graph start p v c.
Proof.
  intros H0 Hm0 (st & Hruns & Hb)%iterate_runs Hp.
  pose proof (flat_cut_runs init st H0 Hruns) as Hst.
  pose proof (more_inv_runs view PopOK key_ok gact graph goal start body body_step
                bound init st Hm0 Hruns) as (Hbasic & _ & Hcl & _).
  destruct (returned_absent view PopOK key_ok gact graph goal start body body_step
              st r Hbasic Hb Hp) as (_ & Ho & _).
  destruct (returned_general view PopOK key_ok gact graph goal start body body_step
              st r Hbasic Hb) as (_ & Hn & _).
  exists (closed_set st). split; [done|]. intros v. split.
  - intros Hv. by apply Hcl.
  - intros (p & c & Hw). destruct (decide (v ∈ closed_set st)) as [|Hv]; [done|].
    by destruct (flat_cut_frontier st p v c Hst Hw Hv).
Qed.
End Explore.

Lemma init_flat_cut {E O} (view : E → string * list string * Z) graph goal start
    (init : State E O) e :
  basic_inv view graph goal start init →
  st_open init = [e] → view e = (start, [start], 0) → closed_set init = ∅ →
  flat_cut view graph goal start init.
Proof.
  intros Hb Ho Hv Hc. split_and!; [done| |done]. split.
  - right. exists e. rewrite Ho. split; [by apply list_elem_of_singleton|].
    unfold e_node, score. rewrite Hv. done.
  - intros u adj v w p c Hu. rewrite Hc in Hu. by apply not_elem_of_empty in Hu.
Qed.

(** The search returns a path from start to goal. *)
Definition finds_path {O} (g : Graph) (start goal : string) (o : option (Outcome O)) : Prop :=
  ∃ r p c, o = Some (Returned r) ∧ r_path r = Some p ∧ r_cost r = Some c ∧
           valid_path g start goal p c.

(** X4. On a well-formed graph, whenever the goal can be reached from
    start each of the three searches returns a path from start to goal;
    A-star does so for every heuristic table that has a value for each
    node, consistent or not. *)
Theorem search_complete (graph : Graph) (heuristic : Heuristic) (start goal : string)
    (start_time end_time : Z) :
  wf_graph graph → start ∈ dom graph → dom graph ⊆ dom heuristic →
  (∃ p c, walk graph start p goal c) →
  finds_path graph start goal (dfs_collect_trace graph start goal start_time end_time) ∧
  finds_path graph start goal (bfs_collect_trace graph start goal start_time end_time) ∧
  finds_path graph start goal
    (astar_collect_trace graph start goal heuristic start_time end_time).
Proof.
  intros Hwf Hs Hdom (p0 & c0 & Hw0). split_and!.
  - destruct (dfs_returns graph start goal start_time end_time Hwf Hs) as [r Hr].
    destruct (run_complete dfs_view stack_top (λ _, True) "GOAL FOUND!" graph goal start
                _ (dfs_body_step graph goal _ _) _ _ r p0 c0
                (init_flat_cut dfs_view graph goal start _ _
                   (dfs_init_basic graph start goal) eq_refl eq_refl eq_refl) Hr Hw0)
      as (p & c & Hp & Hc & Hw).
    exists r, p, c. split_and!; try done.
    destruct (walk_ends _ _ _ _ _ Hw). by split_and!.
  - destruct (bfs_returns graph start goal start_time end_time Hwf Hs) as [r Hr].
    destruct (run_complete dfs_view queue_head (λ _, True) "GOAL FOUND!" graph goal start
                _ (bfs_body_step graph goal _ _) _ _ r p0 c0
                (init_flat_cut dfs_view graph goal start _ _
                   (bfs_init_basic graph start goal) eq_refl eq_refl eq_refl) Hr Hw0)
      as (p & c & Hp & Hc & Hw).
    exists r, p, c. split_and!; try done.
    destruct (walk_ends _ _ _ _ _ Hw). by split_and!.
  - destruct (astar_returns graph start goal heuristic start_time end_time Hwf Hs Hdom)
      as [r Hr].
    pose proof Hr as Hr'. unfold astar_collect_trace in Hr'.
    destruct (heuristic !! start) as [h_start|] eqn:Hh; [|done].
    destruct (run_complete astar_view heap_top (has_h heuristic) "OPTIMAL GOAL!" graph goal
                start _ (astar_body_step graph goal heuristic _ _) _ _ r p0 c0
                (init_flat_cut astar_view graph goal start _ _
                   (astar_init_basic graph start goal h_start) eq_refl eq_refl eq_refl)
                Hr' Hw0)
      as (p & c & Hp & Hc & Hw).
    exists r, p, c. split_and!; try done.
    destruct (walk_ends _ _ _ _ _ Hw). by split_and!.
Qed.

(** The count of expanded nodes of [r] is the number of nodes that can be
    reached from start. *)
Definition explored_all {O} (g : Graph) (start : string) (r : Result O) : Prop :=
  ∃ closed : gset string,
    r_nodes_expanded r = size closed ∧
    ∀ v, v ∈ closed ↔ ∃ p c, walk g start p v c.

(** X5. A search that returns no path has expanded every node that can be
    reached from start, each once: its count of expanded nodes is the
    number of those nodes. *)
Theorem no_path_explores_all (graph : Graph) (heuristic : Heuristic) (start goal : string)
    (start_time end_time : Z) :
  (∀ r, dfs_collect_trace graph start goal start_time end_time = Some (Returned r) →
        r_path r = None → explored_all graph start r) ∧
  (∀ r, bfs_collect_trace graph start goal start_time end_time = Some (Returned r) →
        r_path r = None → explored_all graph start r) ∧
  (∀ r, astar_collect_trace graph start goal heuristic start_time end_time
        = Some (Returned r) →
        r_path r = None → explored_all graph start r).
Proof.
  split_and!.
  - intros r.
    apply (run_exhaustive dfs_view stack_top (λ _, True) "GOAL FOUND!" graph goal start
             _ (dfs_body_step graph goal _ _) _ _ _ r
             (init_flat_cut dfs_view graph goal start _ _
                (dfs_init_basic graph start goal) eq_refl eq_refl eq_refl)
             (dfs_init_more graph start goal)).
  - intros r.
    apply (run_exhaustive dfs_view queue_head (λ _, True) "GOAL FOUND!" graph goal start
             _ (bfs_body_step graph goal _ _) _ _ _ r
             (init_flat_cut dfs_view graph goal start _ _
                (bfs_init_basic graph start goal) eq_refl eq_refl eq_refl)
             (bfs_init_more graph start goal)).
  - unfold astar_collect_trace. intros r.
    destruct (heuristic !! start) as [h_start|]; [|done].
    apply (run_exhaustive astar_view heap_top (has_h heuristic) "OPTIMAL GOAL!" graph goal
             start _ (astar_body_step graph goal heuristic _ _) _ _ _ r
             (init_flat_cut astar_view graph goal start _ _
                (astar_init_basic graph start goal h_start) eq_refl eq_refl eq_refl)
             (astar_init_more graph start goal h_start)).
Qed.

(** *** What the records of the trace show *)

(** A record that has a current node shows a path of the graph from start
    to that node, and its cost. *)
Definition rec_valid {O} (g : Graph) (start : string) (r : TraceRec O) : Prop :=
  match t_current r with
  | Some v => walk g start (t_path r) v (t_cost r)
  | None => True
  end.

(** A record with a half step index shows a path to its current node that
    no path of the graph undercuts in the measure [meas]. *)
Definition rec_best {O} (g : Graph) (start : string) (meas : list string → Z → Z)
    (r : TraceRec O) : Prop :=
  ∀ n v p c, t_step r = Half n → t_current r = Some v → walk g start p v c →
             meas (t_path r) (t_cost r) ≤ meas p c.

Section TraceRecords.
Context {E O : Type} (view : E → string * list string * Z).
Context (PopOK : list E → E → Prop) (key_ok : string → Prop) (gact : string).
Context (graph : Graph) (goal start : string).
Context (meas : list string → Z → Z) (delta : Z → Z) (hf : string → Z).
Hypothesis meas_start : meas [start] 0 = 0.
Hypothesis meas_snoc : ∀ p c v w, meas (p ++ [v]) (c + w) = meas p c + delta w.
Hypothesis hf_consistent :
  ∀ u adj v w, graph !! u = Some adj → (v, w) ∈ adj → hf u ≤ delta w + hf v.

Abbreviation sstep := (search_step view PopOK key_ok gact graph goal).

Lemma rec_valid_step (st st' : State E O) :
  sstep st (inl st') → inv_valid view graph start st →
  Forall (rec_valid graph start) (trace st) → Forall (rec_valid graph start) (trace st').
Proof.
  inversion 1 as [| |e0 rest r1 Hp _ Hr1 _ _
                 |e0 rest r1 adj new open' tr' Hp _ Hr1 _ Hnc Hadj Ho Hn Htr|];
    subst; intros Hval Htr'; simpl in *;
    destruct Hr1 as [_ Hc1 Hp1 Hk1 _ _ _];
    assert (Hw : walk graph start (e_path view e0) (e_node view e0) (e_cost view e0))
      by (apply Hval; rewrite Hp; by apply elem_of_cons; left);
    assert (H1 : rec_valid graph start r1)
      by (unfold rec_valid; by rewrite Hc1, Hp1, Hk1).
  - apply Forall_app. split; [done|]. by apply Forall_singleton.
  - destruct Htr as [[-> ->]|(_ & r2 & [_ Hc2 Hp2 Hk2 _ _ _] & ->)].
    + apply Forall_app. split; [done|]. by apply Forall_singleton.
    + apply Forall_app. split; [done|]. repeat constructor; [done|].
      unfold rec_valid. by rewrite Hc2, Hp2, Hk2.
Qed.

Lemma rec_best_step (st st' : State E O) :
  sstep st (inl st') →
  inv_cut view graph start meas delta st → min_pop view PopOK meas hf st →
  Forall (rec_best graph start meas) (trace st) →
  Forall (rec_best graph start meas) (trace st').
Proof.
  inversion 1 as [| |e0 rest r1 Hp Hok Hr1 _ _
                 |e0 rest r1 adj new open' tr' Hp Hok Hr1 _ Hnc Hadj Ho Hn Htr|];
    subst; intros Hcut Hmin Htr'; simpl in *;
    destruct Hr1 as [Hs1 Hc1 Hp1 Hk1 _ _ _];
    assert (H1 : rec_best graph start meas r1)
      by (intros n v p c Hn'; by rewrite Hs1 in Hn').
  - apply Forall_app. split; [done|]. by apply Forall_singleton.
  - destruct Htr as [[-> ->]|(_ & r2 & [_ Hc2 Hp2 Hk2 _ _ _] & ->)].
    + apply Forall_app. split; [done|]. by apply Forall_singleton.
    + apply Forall_app. split; [done|]. repeat constructor; [done|].
      intros n v p c _ Hv Hw. rewrite Hc2 in Hv. injection Hv as <-.
      rewrite Hp2, Hk2.
      apply (popped_optimal view PopOK graph start meas delta hf meas_start meas_snoc
               hf_consistent st e0 p c Hcut Hmin Hok Hnc Hw).
Qed.

Context (body : State E O → State E O + Outcome O).
Hypothesis body_step : ∀ st, sstep st (body st).

Lemma run_rec_valid init fuel r :
  basic_inv view graph goal start init →
  Forall (rec_valid graph start) (trace init) →
  iterate body fuel init = Some (Returned r) →
  Forall (rec_valid graph start) (r_trace r).
Proof.
  intros H0 Ht0 (st & Hruns & Hb)%iterate_runs.
  assert (Hst : basic_inv view graph goal start st ∧
                Forall (rec_valid graph start) (trace st)).
  { refine (runs_invariant body
              (λ s, basic_inv view graph goal start s ∧
                    Forall (rec_valid graph start) (trace s))
              init (conj H0 Ht0) _ st Hruns).
    intros s1 s2 [Hb1 Ht1] Hbody. split; [by eapply basic_inv_body|].
    pose proof (body_step s1) as Hs. rewrite Hbody in Hs.
    eapply rec_valid_step; [done| |done]. apply Hb1. }
  destruct Hst as [(Hval & _) Htr].
  pose proof (body_step st) as Hs. rewrite Hb in Hs.
  inversion Hs as [t Ho|e rest r1 r2 t Hp _ Hr1 He Hr2| | |]; subst; simpl; [done|].
  assert (Hw : walk graph start (e_path view e) (e_node view e) (e_cost view e))
    by (apply Hval; rewrite Hp; by apply elem_of_cons; left).
  destruct Hr1 as [_ Hc1 Hp1 Hk1 _ _ _], Hr2 as [_ Hc2 Hp2 Hk2 _ _ _].
  apply Forall_app. split; [done|].
  repeat constructor; unfold rec_valid.
  - by rewrite Hc1, Hp1, Hk1.
  - by rewrite Hc2, Hp2, Hk2.
Qed.

Context (J : State E O → Prop).
Hypothesis J_body : ∀ st st', J st → body st = inl st' → J st'.
Hypothesis J_min : ∀ st, J st → min_pop view PopOK meas hf st.

Lemma run_rec_best init fuel r :
  cut_inv view graph goal start meas delta J init →
  Forall (rec_best graph start meas) (trace init) →
  iterate body fuel init = Some (Returned r) →
  Forall (rec_best graph start meas) (r_trace r).
Proof.
  intros H0 Ht0 (st & Hruns & Hb)%iterate_runs.
  assert (Hst : cut_inv view graph goal start meas delta J st ∧
                Forall (rec_best graph start meas) (trace st)).
  { refine (runs_invariant body
              (λ s, cut_inv view graph goal start meas delta J s ∧
                    Forall (rec_best graph start meas) (trace s))
              init (conj H0 Ht0) _ st Hruns).
    intros s1 s2 [Hc1 Ht1] Hbody. split.
    - eapply (cut_inv_runs view PopOK key_ok gact graph goal start meas delta hf
                meas_start meas_snoc hf_consistent body J body_step J_body J_min s1 s2);
        [done|]. eapply runs_step; [apply runs_refl|done].
    - pose proof (body_step s1) as Hs. rewrite Hbody in Hs.
      destruct Hc1 as (_ & Hcut & HJ).
      eapply rec_best_step; eauto. }
  destruct Hst as [((_ & _ & Hg & _) & Hcut & HJ) Htr].
  pose proof (body_step st) as Hs. rewrite Hb in Hs.
  inversion Hs as [t Ho|e rest r1 r2 t Hp Hok Hr1 He Hr2| | |]; subst; simpl; [done|].
  destruct Hr1 as [Hs1 Hc1 Hp1 Hk1 _ _ _], Hr2 as [_ Hc2 Hp2 Hk2 _ _ _].
  apply Forall_app. split; [done|]. repeat constructor.
  - intros n v p c Hn'. by rewrite Hs1 in Hn'.
  - intros n v p c _ Hv Hw. rewrite Hc2 in Hv. injection Hv as <-.
    rewrite Hp2, Hk2. unfold inv_goal in Hg.
    apply (popped_optimal view PopOK graph start meas delta hf meas_start meas_snoc
             hf_consistent st e p c Hcut (J_min st HJ) Hok Hg Hw).
Qed.
End TraceRecords.

(** X6. Every record of the trace of a Result that has a current node
    shows a path of the graph from start to that node, with the sum of its
    weights as the cost. *)
Theorem trace_records_valid (graph : Graph) (heuristic : Heuristic) (start goal : string)
    (start_time end_time : Z) :
  (∀ r, dfs_collect_trace graph start goal start_time end_time = Some (Returned r) →
        Forall (rec_valid graph start) (r_trace r)) ∧
  (∀ r, bfs_collect_trace graph start goal start_time end_time = Some (Returned r) →
        Forall (rec_valid graph start) (r_trace r)) ∧
  (∀ r, astar_collect_trace graph start goal heuristic start_time end_time
        = Some (Returned r) →
        Forall (rec_valid graph start) (r_trace r)).
Proof.
  split_and!.
  - intros r.
    apply (run_rec_valid dfs_view stack_top (λ _, True) "GOAL FOUND!" graph goal start
             _ (dfs_body_step graph goal _ _) _ _ r (dfs_init_basic graph start goal)).
    by repeat constructor.
  - intros r.
    apply (run_rec_valid dfs_view queue_head (λ _, True) "GOAL FOUND!" graph goal start
             _ (bfs_body_step graph goal _ _) _ _ r (bfs_init_basic graph start goal)).
    by repeat constructor.
  - unfold astar_collect_trace. intros r.
    destruct (heuristic !! start) as [h_start|]; [|done].
    apply (run_rec_valid astar_view heap_top (has_h heuristic) "OPTIMAL GOAL!" graph goal
             start _ (astar_body_step graph goal heuristic _ _) _ _ r
             (astar_init_basic graph start goal h_start)).
    by repeat constructor.
Qed.

Lemma bfs_meas_snoc (p : list string) (c : Z) (v : string) (w : Z) :
  bfs_meas (p ++ [v]) (c + w) = bfs_meas p c + 1.
Proof. unfold bfs_meas. rewrite length_app. simpl. lia. Qed.

Lemma zero_consistent (graph : Graph) (u : string) (adj : Adj) (v : string) (w : Z) :
  graph !! u = Some adj → (v, w) ∈ adj → 0 ≤ 1 + 0.
Proof. lia. Qed.

Lemma bfs_cut_init graph start goal :
  cut_inv dfs_view graph goal start bfs_meas (λ _, 1)
    (λ st : State dfs_entry string, bfs_levels (st_open st)) (bfs_init start goal).
Proof.
  split_and!.
  - apply bfs_init_basic.
  - split.
    + right. exists (start, [start], 0). split; [by apply list_elem_of_singleton|done].
    + intros u adj v w p c Hu. by apply not_elem_of_empty in Hu.
  - simpl. done.
Qed.

Lemma h_value_consistent graph heuristic :
  wf_graph graph → dom graph ⊆ dom heuristic → consistent graph heuristic →
  ∀ (u : string) (adj : Adj) (v : string) (w : Z),
    graph !! u = Some adj → (v, w) ∈ adj →
    h_value heuristic u ≤ w + h_value heuristic v.
Proof.
  intros Hwf Hdom Hcons u adj v w Hu Hv. unfold h_value.
  assert (Hud : u ∈ dom heuristic) by (apply Hdom, elem_of_dom; eauto).
  assert (Hvd : v ∈ dom heuristic) by (apply Hdom; eapply Hwf; eauto).
  apply elem_of_dom in Hud as [hu Hhu]. apply elem_of_dom in Hvd as [hv Hhv].
  rewrite Hhu, Hhv. simpl. by eapply Hcons.
Qed.

Lemma astar_inv_init heuristic start goal h_start :
  heuristic !! start = Some h_start →
  astar_inv heuristic (astar_init start goal h_start).
Proof.
  intros Hhs. split.
  - intros i j x y Hij Hi Hj. apply lookup_lt_Some in Hj.
    simpl in Hj. unfold is_child in Hij. lia.
  - intros e ->%list_elem_of_singleton. simpl. rewrite Hhs. f_equal. lia.
Qed.

Lemma astar_cut_init graph heuristic start goal h_start :
  heuristic !! start = Some h_start →
  cut_inv astar_view graph goal start astar_meas (λ w, w) (astar_inv heuristic)
    (astar_init start goal h_start).
Proof.
  intros Hhs. split_and!.
  - apply astar_init_basic.
  - split.
    + right. exists (h_start, 0, start, [start]).
      split; [by apply list_elem_of_singleton|done].
    + intros u adj v w p c Hu. by apply not_elem_of_empty in Hu.
  - by apply astar_inv_init.
Qed.

(** The record, if its step index is a half, shows a path to its current
    node with the fewest edges, or of the least cost. *)
Definition shows_fewest_hops {O} (g : Graph) (start : string) (r : TraceRec O) : Prop :=
  ∀ n v p c, t_step r = Half n → t_current r = Some v → walk g start p v c →
             (hop_count (t_path r) ≤ hop_count p)%nat.

Definition shows_least_cost {O} (g : Graph) (start : string) (r : TraceRec O) : Prop :=
  ∀ n v p c, t_step r = Half n → t_current r = Some v → walk g start p v c →
             t_cost r ≤ c.

(** X7. Not only the goal is reached by a best path.  In a trace of BFS
    every record with a half step index (an expansion, or the goal) shows a
    path to its current node that has the fewest edges of all paths from
    start to that node; in a trace of A-star with a consistent heuristic it
    shows a path of the least cost. *)
Theorem expansions_by_best_path (graph : Graph) (heuristic : Heuristic)
    (start goal : string) (start_time end_time : Z) :
  (∀ r, bfs_collect_trace graph start goal start_time end_time = Some (Returned r) →
        Forall (shows_fewest_hops graph start) (r_trace r)) ∧
  (wf_graph graph → dom graph ⊆ dom heuristic → consistent graph heuristic →
   ∀ r, astar_collect_trace graph start goal heuristic start_time end_time
        = Some (Returned r) →
        Forall (shows_least_cost graph start) (r_trace r)).
Proof.
  split.
  - intros r Hr.
    assert (H : Forall (rec_best graph start bfs_meas) (r_trace r)).
    { refine (run_rec_best dfs_view queue_head (λ _, True) "GOAL FOUND!" graph goal start
               bfs_meas (λ _, 1) (λ _, 0) eq_refl bfs_meas_snoc
               (zero_consistent graph)
               (bfs_body graph goal start_time end_time)
               (bfs_body_step graph goal _ _) _
               (λ st st', bfs_levels_body graph goal _ _ st st') bfs_min_pop
               _ _ r (bfs_cut_init graph start goal) _ Hr).
      repeat constructor. intros n v p c Hn. done. }
    eapply Forall_impl; [exact H|]. simpl. intros rec Hrec n v p c Hn Hv Hw.
    specialize (Hrec n v p c Hn Hv Hw). unfold bfs_meas, hop_count in *. lia.
  - intros Hwf Hdom Hcons r. unfold astar_collect_trace.
    destruct (heuristic !! start) as [h_start|] eqn:Hhs; [|done].
    intros Hr.
    assert (H : Forall (rec_best graph start astar_meas) (r_trace r)).
    { refine (run_rec_best astar_view heap_top (has_h heuristic) "OPTIMAL GOAL!" graph goal
               start astar_meas (λ w, w) (h_value heuristic) eq_refl
               (λ _ _ _ _, eq_refl) (h_value_consistent graph heuristic Hwf Hdom Hcons)
               (astar_body graph goal heuristic start_time end_time)
               (astar_body_step graph goal heuristic _ _) _
               (λ st st', astar_inv_body graph goal heuristic _ _ st st')
               (astar_min_pop heuristic)
               _ _ r (astar_cut_init graph heuristic start goal h_start Hhs) _ Hr).
      repeat constructor. intros n v p c Hn. done. }
    eapply Forall_impl; [exact H|]. simpl. intros rec Hrec n v p c Hn Hv Hw.
    apply (Hrec n v p c Hn Hv Hw).
Qed.

(** *** The three searches side by side *)

Lemma dfs_found_iff graph start goal t0 t1 r :
  dfs_collect_trace graph start goal t0 t1 = Some (Returned r) →
  (∃ p c, r_path r = Some p ∧ r_cost r = Some c ∧ walk graph start p goal c) ↔
  (∃ p c, walk graph start p goal c).
Proof.
  intros Hr. split; [intros (p & c & _ & _ & Hw); eauto|].
  intros (p0 & c0 & Hw0).
  apply (run_complete dfs_view stack_top (λ _, True) "GOAL FOUND!" graph goal start
           _ (dfs_body_step graph goal _ _) _ _ r p0 c0
           (init_flat_cut dfs_view graph goal start _ _
              (dfs_init_basic graph start goal) eq_refl eq_refl eq_refl) Hr Hw0).
Qed.

Lemma bfs_found_iff graph start goal t0 t1 r :
  bfs_collect_trace graph start goal t0 t1 = Some (Returned r) →
  (∃ p c, r_path r = Some p ∧ r_cost r = Some c ∧ walk graph start p goal c) ↔
  (∃ p c, walk graph start p goal c).
Proof.
  intros Hr. split; [intros (p & c & _ & _ & Hw); eauto|].
  intros (p0 & c0 & Hw0).
  apply (run_complete dfs_view queue_head (λ _, True) "GOAL FOUND!" graph goal start
           _ (bfs_body_step graph goal _ _) _ _ r p0 c0
           (init_flat_cut dfs_view graph goal start _ _
              (bfs_init_basic graph start goal) eq_refl eq_refl eq_refl) Hr Hw0).
Qed.

Lemma astar_found_iff graph heuristic start goal t0 t1 r :
  astar_collect_trace graph start goal heuristic t0 t1 = Some (Returned r) →
  (∃ p c, r_path r = Some p ∧ r_cost r = Some c ∧ walk graph start p goal c) ↔
  (∃ p c, walk graph start p goal c).
Proof.
  intros Hr. split; [intros (p & c & _ & _ & Hw); eauto|].
  intros (p0 & c0 & Hw0). unfold astar_collect_trace in Hr.
  destruct (heuristic !! start) as [h_start|] eqn:Hh; [|done].
  apply (run_complete astar_view heap_top (has_h heuristic) "OPTIMAL GOAL!" graph goal
           start _ (astar_body_step graph goal heuristic _ _) _ _ r p0 c0
           (init_flat_cut astar_view graph goal start _ _
              (astar_init_basic graph start goal h_start) eq_refl eq_refl eq_refl)
           Hr Hw0).
Qed.

Lemma dfs_path_walk graph start goal t0 t1 r p :
  dfs_collect_trace graph start goal t0 t1 = Some (Returned r) → r_path r = Some p →
  ∃ c, r_cost r = Some c ∧ walk graph start p goal c.
Proof.
  intros Hr Hp.
  destruct (run_success dfs_view stack_top (λ _, True) "GOAL FOUND!" graph goal start
              _ (dfs_body_step graph goal _ _) _ _ r p
              (dfs_init_basic graph start goal) Hr Hp) as (c & _ & _ & Hc & Hw & _).
  eauto.
Qed.

Lemma bfs_path_walk graph start goal t0 t1 r p :
  bfs_collect_trace graph start goal t0 t1 = Some (Returned r) → r_path r = Some p →
  ∃ c, r_cost r = Some c ∧ walk graph start p goal c.
Proof.
  intros Hr Hp.
  destruct (run_success dfs_view queue_head (λ _, True) "GOAL FOUND!" graph goal start
              _ (bfs_body_step graph goal _ _) _ _ r p
              (bfs_init_basic graph start goal) Hr Hp) as (c & _ & _ & Hc & Hw & _).
  eauto.
Qed.

Lemma astar_path_walk graph heuristic start goal t0 t1 r p :
  astar_collect_trace graph start goal heuristic t0 t1 = Some (Returned r) →
  r_path r = Some p →
  ∃ c, r_cost r = Some c ∧ walk graph start p goal c.
Proof.
  intros Hr Hp. unfold astar_collect_trace in Hr.
  destruct (heuristic !! start) as [h_start|] eqn:Hh; [|done].
  destruct (run_success astar_view heap_top (has_h heuristic) "OPTIMAL GOAL!" graph goal
              start _ (astar_body_step graph goal heuristic _ _) _ _ r p
              (astar_init_basic graph start goal h_start) Hr Hp)
    as (c & _ & _ & Hc & Hw & _).
  eauto.
Qed.

(** The results of the three searches on the same input: all have a path
    or none has. *)
Definition agree {O O' O''} (rd : Result O) (rb : Result O') (ra : Result O'') : Prop :=
  (is_Some (r_path rd) ↔ is_Some (r_path rb)) ∧
  (is_Some (r_path rb) ↔ is_Some (r_path ra)).

(** X8. When the three searches return on the same graph, start and goal,
    either all of them return a path or none does; with a consistent
    heuristic on a well-formed graph the cost that A-star returns is at most
    the costs that DFS and BFS return, and the path that BFS returns has at
    most as many edges as the paths of DFS and of A-star. *)
Theorem searches_compared (graph : Graph) (heuristic : Heuristic) (start goal : string)
    (start_time end_time : Z) (rd rb : Result string) (ra : Result (Z * string)) :
  dfs_collect_trace graph start goal start_time end_time = Some (Returned rd) →
  bfs_collect_trace graph start goal start_time end_time = Some (Returned rb) →
  astar_collect_trace graph start goal heuristic start_time end_time = Some (Returned ra) →
  agree rd rb ra ∧
  (∀ pd pa, r_path rd = Some pd → r_path ra = Some pa →
     ∃ pb cd cb ca,
       r_path rb = Some pb ∧
       r_cost rd = Some cd ∧ r_cost rb = Some cb ∧ r_cost ra = Some ca ∧
       (hop_count pb ≤ hop_count pd)%nat ∧ (hop_count pb ≤ hop_count pa)%nat ∧
       (wf_graph graph → dom graph ⊆ dom heuristic → consistent graph heuristic →
        ca ≤ cd ∧ ca ≤ cb)).
Proof.
  intros Hd Hb Ha.
  pose proof (dfs_found_iff _ _ _ _ _ _ Hd) as Id.
  pose proof (bfs_found_iff _ _ _ _ _ _ Hb) as Ib.
  pose proof (astar_found_iff _ _ _ _ _ _ _ Ha) as Ia.
  split.
  - split; split; intros [p Hp].
    + destruct (dfs_path_walk _ _ _ _ _ _ _ Hd Hp) as (c & _ & Hw).
      destruct (proj2 Ib (ex_intro _ p (ex_intro _ c Hw))) as (p' & _ & -> & _). eauto.
    + destruct (bfs_path_walk _ _ _ _ _ _ _ Hb Hp) as (c & _ & Hw).
      destruct (proj2 Id (ex_intro _ p (ex_intro _ c Hw))) as (p' & _ & -> & _). eauto.
    + destruct (bfs_path_walk _ _ _ _ _ _ _ Hb Hp) as (c & _ & Hw).
      destruct (proj2 Ia (ex_intro _ p (ex_intro _ c Hw))) as (p' & _ & -> & _). eauto.
    + destruct (astar_path_walk _ _ _ _ _ _ _ _ Ha Hp) as (c & _ & Hw).
      destruct (proj2 Ib (ex_intro _ p (ex_intro _ c Hw))) as (p' & _ & -> & _). eauto.
  - intros pd pa Hpd Hpa.
    destruct (dfs_path_walk _ _ _ _ _ _ _ Hd Hpd) as (cd & Hcd & Hwd).
    destruct (astar_path_walk _ _ _ _ _ _ _ _ Ha Hpa) as (ca & Hca & Hwa).
    destruct (bfs_run_fewest_hops _ _ _ _ _ _ _ _ Hb Hwd) as (pb & cb & Hpb & Hcb & Hwb & Hle).
    destruct (bfs_run_fewest_hops _ _ _ _ _ _ _ _ Hb Hwa) as (pb' & cb' & Hpb' & _ & _ & Hle').
    rewrite Hpb in Hpb'. injection Hpb' as <-.
    exists pb, cd, cb, ca. split_and!; try done.
    intros Hwf Hdom Hcons.
    destruct (astar_run_optimal _ _ _ _ _ _ _ _ _ Hwf Hdom Hcons Ha Hwd)
      as (p1 & c1 & _ & Hc1 & _ & Hle1).
    destruct (astar_run_optimal _ _ _ _ _ _ _ _ _ Hwf Hdom Hcons Ha Hwb)
      as (p2 & c2 & _ & Hc2 & _ & Hle2).
    rewrite Hca in Hc1, Hc2. injection Hc1 as <-. injection Hc2 as <-. done.
Qed.

(** *** What a KeyError says *)

Lemma astar_push_neighbors_raises heuristic closed path g_score items open_pq k e :
  astar_push_neighbors heuristic closed path g_score items open_pq k = inl e →
  ∃ v w, e = KeyError v ∧ (v, w) ∈ items ∧ heuristic !! v = None.
Proof.
  revert open_pq k. induction items as [|[nb w] items IH]; intros open_pq k; simpl; [done|].
  destruct (decide (nb ∈ closed)).
  - intros (v & w' & ? & ? & ?)%IH. exists v, w'. split_and!; [done| |done].
    by apply elem_of_cons; right.
  - destruct (heuristic !! nb) as [h|] eqn:Hh.
    + intros (v & w' & ? & ? & ?)%IH. exists v, w'. split_and!; [done| |done].
      by apply elem_of_cons; right.
    + intros [= <-]. exists nb, w. split_and!; [done| |done]. by apply elem_of_cons; left.
Qed.

Lemma dfs_body_raises graph goal t0 t1 st k tr :
  dfs_body graph goal t0 t1 st = inr (Raised (KeyError k) tr) →
  ∃ path cost, (k, path, cost) ∈ st_open st ∧ k ≠ goal ∧ graph !! k = None.
Proof.
  unfold dfs_body.
  destruct (list_pop (st_open st)) as [[[[cur path] cost] rest]|] eqn:Hpop; [|done].
  apply list_pop_Some in Hpop.
  destruct (decide (cur = goal)); [done|].
  destruct (decide (cur ∈ closed_set st)); [done|].
  destruct (graph !! cur) as [adj|] eqn:Hadj.
  { by destruct (push_neighbors _ _ _ _ _ _). }
  intros [= <- _]. exists path, cost. split_and!; [|done..].
  rewrite Hpop. apply elem_of_app. right. by apply list_elem_of_singleton.
Qed.

Lemma bfs_body_raises graph goal t0 t1 st k tr :
  bfs_body graph goal t0 t1 st = inr (Raised (KeyError k) tr) →
  ∃ path cost, (k, path, cost) ∈ st_open st ∧ k ≠ goal ∧ graph !! k = None.
Proof.
  unfold bfs_body.
  destruct (st_open st) as [|[[cur path] cost] rest] eqn:Hpop; [done|].
  destruct (decide (cur = goal)); [done|].
  destruct (decide (cur ∈ closed_set st)); [done|].
  destruct (graph !! cur) as [adj|] eqn:Hadj.
  { by destruct (push_neighbors _ _ _ _ _ _). }
  intros [= <- _]. exists path, cost. split_and!; [|done..].
  by apply elem_of_cons; left.
Qed.

Lemma astar_body_raises graph goal heuristic t0 t1 st k tr :
  astar_body graph goal heuristic t0 t1 st = inr (Raised (KeyError k) tr) →
  ∃ f g cur path, (f, g, cur, path) ∈ st_open st ∧
    (k = cur ∧ (graph !! k = None ∨ heuristic !! k = None) ∨
     ∃ adj w, graph !! cur = Some adj ∧ (k, w) ∈ adj ∧ heuristic !! k = None).
Proof.
  unfold astar_body.
  destruct (heappop entry_ltb (st_open st)) as [[[[[f g] cur] path] rest]|] eqn:Hpop;
    [|done].
  apply heappop_perm in Hpop.
  assert (Hin : (f, g, cur, path) ∈ st_open st).
  { rewrite Hpop. by apply elem_of_cons; left. }
  intros Hb. exists f, g, cur, path. split; [done|]. revert Hb.
  destruct (heuristic !! cur) as [h|] eqn:Hh.
  2:{ intros [= <- _]. left. auto. }
  destruct (decide (cur = goal)); [done|].
  destruct (decide (cur ∈ closed_set st)); [done|].
  destruct (graph !! cur) as [adj|] eqn:Hadj.
  2:{ intros [= <- _]. left. auto. }
  destruct (astar_push_neighbors _ _ _ _ _ _ _) as [e|[pq' k']] eqn:Hpush; [|done].
  apply astar_push_neighbors_raises in Hpush as (v & w & -> & Hv & Hnone).
  intros [= <- _]. right. exists adj, w. split_and!; [done| |done].
  by rewrite <- (sorted_perm adj).
Qed.

(** The key [k] of a KeyError: a node that a path of the graph leads to
    from start, and that the table [tbl] has no entry for. *)
Definition reachable_unknown (g : Graph) (start : string) (tbl : string → Prop)
    (k : string) : Prop :=
  ¬ tbl k ∧ ∃ p c, walk g start p k c.

(** X9. The key that the KeyError of a search names is a node that a path
    of the graph leads to from start: for DFS and BFS one that is no key of
    the graph and is not the goal; for A-star one that is no key of the graph
    or has no heuristic value. *)
Theorem key_error_names_missing_node (graph : Graph) (heuristic : Heuristic)
    (start goal : string) (start_time end_time : Z) :
  (∀ k tr, dfs_collect_trace graph start goal start_time end_time
           = Some (Raised (KeyError k) tr) →
     k ≠ goal ∧ reachable_unknown graph start (λ v, v ∈ dom graph) k) ∧
  (∀ k tr, bfs_collect_trace graph start goal start_time end_time
           = Some (Raised (KeyError k) tr) →
     k ≠ goal ∧ reachable_unknown graph start (λ v, v ∈ dom graph) k) ∧
  (∀ k tr, astar_collect_trace graph start goal heuristic start_time end_time
           = Some (Raised (KeyError k) tr) →
     reachable_unknown graph start (λ v, v ∈ dom graph ∧ v ∈ dom heuristic) k).
Proof.
  split_and!.
  - intros k tr (st & Hruns & Hb)%iterate_runs.
    pose proof (basic_inv_runs dfs_view stack_top (λ _, True) "GOAL FOUND!" graph goal start
                  _ (dfs_body_step graph goal _ _) _ st
                  (dfs_init_basic graph start goal) Hruns) as (Hv & _).
    apply dfs_body_raises in Hb as (path & cost & Hin & Hne & Hnone).
    split; [done|]. split; [by apply not_elem_of_dom|].
    exists path, cost. apply (Hv _ Hin).
  - intros k tr (st & Hruns & Hb)%iterate_runs.
    pose proof (basic_inv_runs dfs_view queue_head (λ _, True) "GOAL FOUND!" graph goal start
                  _ (bfs_body_step graph goal _ _) _ st
                  (bfs_init_basic graph start goal) Hruns) as (Hv & _).
    apply bfs_body_raises in Hb as (path & cost & Hin & Hne & Hnone).
    split; [done|]. split; [by apply not_elem_of_dom|].
    exists path, cost. apply (Hv _ Hin).
  - intros k tr. unfold astar_collect_trace.
    destruct (heuristic !! start) as [h_start|] eqn:Hhs.
    2:{ intros [= <- _]. split.
        - intros [_ Hk]. apply elem_of_dom in Hk as [? Hk]. by rewrite Hhs in Hk.
        - exists [start], 0. apply walk_start. }
    intros (st & Hruns & Hb)%iterate_runs.
    pose proof (basic_inv_runs astar_view heap_top (has_h heuristic) "OPTIMAL GOAL!" graph
                  goal start _ (astar_body_step graph goal heuristic _ _) _ st
                  (astar_init_basic graph start goal h_start) Hruns) as (Hv & _).
    apply astar_body_raises in Hb as (f & g & cur & path & Hin & Hcase).
    specialize (Hv _ Hin). unfold e_path, e_node, e_cost in Hv. simpl in Hv.
    destruct Hcase as [[-> Hnone]|(adj & w & Hadj & Hk & Hnone)].
    + split; [|by exists path, g].
      intros [Hg Hh]. apply elem_of_dom in Hg as [? Hg], Hh as [? Hh].
      destruct Hnone as [Hn|Hn]; congruence.
    + split.
      * intros [_ Hh]. apply elem_of_dom in Hh as [? Hh]. congruence.
      * exists (path ++ [k]), (g + w). by eapply walk_snoc.
Qed.

(** ** PerformanceMetrics *)

(** The exceptions of [record]: [len(None)] and [max] of nothing. *)
Inductive py_error := TypeError | ValueError.

(** The dict that [record] stores for an algorithm. *)
Record Metrics (O : Type) := mkMetrics {
  m_path : list string;
  m_cost : option Z;
  m_path_length : nat;
  m_nodes_expanded : nat;
  m_steps : nat;
  m_execution_time : Z;
  m_trace : list (TraceRec O);
  m_max_open_size : nat;
  m_max_closed_size : nat
}.
Arguments mkMetrics {O}.
Arguments m_path {O}. Arguments m_cost {O}. Arguments m_path_length {O}.
Arguments m_nodes_expanded {O}. Arguments m_steps {O}. Arguments m_execution_time {O}.
Arguments m_trace {O}. Arguments m_max_open_size {O}. Arguments m_max_closed_size {O}.

(** [self.metrics]: the traces of the algorithms differ in the type of
    their ['open'] items. *)
Definition MetricsDict : Type := gmap string {O : Type & Metrics O}.

(** [max(...)] of a generator of numbers. *)
Definition py_max (l : list nat) : py_error + nat :=
  match l with
  | [] => inl ValueError
  | x :: rest => inr (foldl Nat.max x rest)
  end.

(** [PerformanceMetrics.record]; the values of the dict display are computed
    in the order they are written. *)
Definition record {O} (metrics : MetricsDict) (algorithm : string)
    (path : option (list string)) (cost : option Z) (nodes_expanded steps : nat)
    (execution_time : Z) (trace : list (TraceRec O)) : py_error + MetricsDict :=
  match path with
  | None => inl TypeError
  | Some p =>
      let path_length := length p in
      match py_max ((λ t, length (t_open t)) <$> trace) with
      | inl e => inl e
      | inr max_open_size =>
          match py_max ((λ t, size (t_closed t)) <$> trace) with
          | inl e => inl e
          | inr max_closed_size =>
              inr (<[algorithm :=
                      existT O (mkMetrics p cost path_length nodes_expanded steps
                                  execution_time trace max_open_size max_closed_size)]>
                     metrics)
          end
      end
  end.

(** [metrics.record(algo, result[0], result[1], result[2], result[3],
    result[4], result[5])] *)
Definition record_result {O} (metrics : MetricsDict) (algo : string) (r : Result O)
    : py_error + MetricsDict :=
  record metrics algo (r_path r) (r_cost r) (r_nodes_expanded r) (r_steps r) (r_time r)
    (r_trace r).

Lemma foldl_max_spec (l : list nat) (x : nat) :
  (foldl Nat.max x l = x ∨ foldl Nat.max x l ∈ l) ∧
  (x ≤ foldl Nat.max x l)%nat ∧ Forall (λ y, (y ≤ foldl Nat.max x l)%nat) l.
Proof.
  revert x. induction l as [|y l IH]; intros x; simpl.
  { split_and!; [by left|lia|constructor]. }
  destruct (IH (Nat.max x y)) as (Hin & Hle & Hall). split_and!.
  - destruct Hin as [Heq|Hin]; [|right; by apply elem_of_cons; right].
    rewrite Heq. destruct (Nat.max_spec x y) as [[_ ->]|[_ ->]]; [|by left].
    right. by apply elem_of_cons; left.
  - lia.
  - constructor; [lia|done].
Qed.

Lemma py_max_spec (l : list nat) (m : nat) :
  py_max l = inr m → m ∈ l ∧ Forall (λ y, (y ≤ m)%nat) l.
Proof.
  destruct l as [|x l]; simpl; [done|]. intros [= <-].
  destruct (foldl_max_spec l x) as (Hin & Hle & Hall). split.
  - destruct Hin as [->|Hin]; [by apply elem_of_cons; left|by apply elem_of_cons; right].
  - by constructor.
Qed.

Lemma py_max_is_inr (l : list nat) : l ≠ [] → ∃ m, py_max l = inr m.
Proof. destruct l; [done|]. simpl. eauto. Qed.

(** *** The sizes that the trace of a search shows *)

Section Sizes.
Context {E O : Type} (view : E → string * list string * Z).
Context (PopOK : list E → E → Prop) (key_ok : string → Prop) (gact : string).
Context (graph : Graph) (goal start : string).
Abbreviation sstep := (search_step view PopOK key_ok gact graph goal).

(** The first record shows a frontier of one entry, no record shows a
    frontier of more than [bound] entries, and some record shows all closed
    nodes but at most one. *)
Definition inv_sizes (bound : nat) (st : State E O) : Prop :=
  (∃ r0 tl, trace st = r0 :: tl ∧ length (t_open r0) = 1%nat) ∧
  Forall (λ r, (length (t_open r) ≤ bound)%nat) (trace st) ∧
  (∃ r, r ∈ trace st ∧ (size (closed_set st) ≤ size (t_closed r) + 1)%nat).

Lemma inv_sizes_step bound (st st' : State E O) :
  sstep st (inl st') → inv_counts graph bound st → inv_sizes bound st →
  inv_sizes bound st'.
Proof.
  intros Hstep Hc ((r0 & tl & Htr0 & Hr0) & Hop & (rc & Hrc & Hsz)).
  pose proof (inv_counts_step view PopOK key_ok gact graph goal bound st st' Hstep Hc)
    as (_ & _ & _ & Hb' & _).
  destruct Hc as (_ & _ & _ & Hb & _). unfold measure in Hb, Hb'.
  inversion Hstep as [| |e0 rest r1 Hp _ Hr1 _ _
                     |e0 rest r1 adj new open' tr' Hp _ Hr1 _ Hnc Hadj Ho Hn Htr|];
    subst; unfold inv_sizes; simpl in *.
  - destruct Hr1 as [_ _ _ _ Hop1 Hcl1 _].
    assert (Hl : length (st_open st) = S (length rest)) by (by rewrite Hp).
    split_and!.
    + exists r0, (tl ++ [r1]). by rewrite Htr0.
    + rewrite Forall_app, Forall_singleton. split; [done|]. lia.
    + exists r1. split; [apply elem_of_app; right; by apply list_elem_of_singleton|].
      rewrite Hcl1. lia.
  - destruct Hr1 as [_ _ _ _ Hop1 Hcl1 _].
    assert (Hl : length (st_open st) = S (length rest)) by (by rewrite Hp).
    assert (Hsize : size ({[e_node view e0]} ∪ closed_set st) = S (size (closed_set st))).
    { rewrite size_union by set_solver. by rewrite size_singleton. }
    assert (Hin1 : ∀ t, r1 ∈ (trace st ++ r1 :: t)).
    { intros t. apply elem_of_app; right. by apply elem_of_cons; left. }
    destruct Htr as [[-> ->]|(Hne & r2 & [_ _ _ _ Hop2 Hcl2 _] & ->)].
    + split_and!.
      * exists r0, (tl ++ [r1]). by rewrite Htr0.
      * rewrite Forall_app, Forall_singleton. split; [done|]. lia.
      * exists r1. split; [apply Hin1|]. rewrite Hsize, Hcl1. lia.
    + split_and!.
      * exists r0, (tl ++ [r1; r2]). by rewrite Htr0.
      * rewrite Forall_app, Forall_cons, Forall_singleton. split_and!; [done|lia|lia].
      * exists r1. split; [apply Hin1|]. rewrite Hsize, Hcl1. lia.
Qed.

Context (body : State E O → State E O + Outcome O).
Hypothesis body_step : ∀ st, sstep st (body st).

Definition sizes_inv (bound : nat) (st : State E O) : Prop :=
  more_inv view graph goal start bound st ∧ inv_sizes bound st.

Lemma sizes_inv_runs bound init st :
  sizes_inv bound init → runs body init st → sizes_inv bound st.
Proof.
  intros H0 Hruns. eapply runs_invariant; [exact H0| |exact Hruns].
  intros s1 s2 [Hm Hs] Hbody. split.
  - apply (more_inv_runs view PopOK key_ok gact graph goal start body body_step bound s1
             s2 Hm).
    eapply runs_step; [apply runs_refl|done].
  - pose proof (body_step s1) as Hstep. rewrite Hbody in Hstep.
    eapply inv_sizes_step; [done| |done]. apply Hm.
Qed.

(** What [record] reads off a Result. *)
Lemma returned_sizes bound st r :
  sizes_inv bound st → body st = inr (Returned r) →
  r_trace r ≠ [] ∧
  (∃ r0, r0 ∈ r_trace r ∧ length (t_open r0) = 1%nat) ∧
  Forall (λ rec, (length (t_open rec) ≤ bound)%nat) (r_trace r) ∧
  Forall (λ rec, (size (t_closed rec) ≤ r_nodes_expanded r)%nat) (r_trace r) ∧
  (∃ rec, rec ∈ r_trace r ∧ (r_nodes_expanded r ≤ size (t_closed rec) + 1)%nat) ∧
  (∀ p, r_path r = Some p →
     (∃ rec, rec ∈ r_trace r ∧ size (t_closed rec) = r_nodes_expanded r) ∧
     (length p ≤ r_nodes_expanded r + 1)%nat).
Proof.
  intros [(Hb & Hsimple & _ & Hc & _) ((r0 & tl & Htr0 & Hr0) & Hop & (rc & Hrc & Hsz))] Hbody.
  pose proof Hb as (_ & Hcount & _ & (_ & _ & _ & Hsub)). unfold inv_count in Hcount.
  destruct Hc as (_ & _ & _ & Hbd & _). unfold measure in Hbd.
  assert (Hle : Forall (λ rec : TraceRec O, (size (t_closed rec) ≤ nodes_expanded st)%nat)
                  (trace st)).
  { eapply Forall_impl; [exact Hsub|]. simpl. intros rec Hrec. rewrite Hcount.
    by apply subseteq_size. }
  pose proof (body_step st) as Hs. rewrite Hbody in Hs.
  inversion Hs as [t Ho|e rest r1 r2 t Hp _ Hr1 He Hr2| | |]; subst; simpl.
  - split_and!.
    + by rewrite Htr0.
    + exists r0. split; [rewrite Htr0; by apply elem_of_cons; left|done].
    + done.
    + done.
    + exists rc. split; [done|]. lia.
    + done.
  - destruct Hr1 as [_ _ _ _ Hop1 Hcl1 _], Hr2 as [_ _ Hpath2 _ Hop2 Hcl2 _].
    assert (Hl : length (st_open st) = S (length rest)) by (by rewrite Hp).
    assert (Hin2 : r2 ∈ trace st ++ [r1; r2]).
    { apply elem_of_app; right. apply elem_of_cons; right. by apply elem_of_cons; left. }
    split_and!.
    + rewrite Htr0. done.
    + exists r0. split; [|done]. apply elem_of_app; left. rewrite Htr0.
      by apply elem_of_cons; left.
    + rewrite Forall_app, Forall_cons, Forall_singleton. split_and!; [done|lia|lia].
    + rewrite Forall_app, Forall_cons, Forall_singleton, Hcl1, Hcl2.
      split_and!; [done|lia|lia].
    + exists r2. split; [done|]. rewrite Hcl2. lia.
    + intros p [= <-]. split.
      * exists r2. split; [done|]. by rewrite Hcl2.
      * destruct (Hsimple e) as (q & Hq & Hnd & Hcl).
        { rewrite Hp. by apply elem_of_cons; left. }
        rewrite Hq, length_app. simpl.
        assert (Hqnd : NoDup q) by (rewrite Hq in Hnd; by apply NoDup_app in Hnd as (? & _)).
        assert (Hsz' : (length q ≤ size (closed_set st))%nat).
        { rewrite <- (size_list_to_set (C := gset string) q Hqnd).
          apply subseteq_size. intros v Hv. apply elem_of_list_to_set in Hv. by apply Hcl. }
        lia.
Qed.

Lemma run_sizes bound init fuel r :
  sizes_inv bound init → iterate body fuel init = Some (Returned r) →
  r_trace r ≠ [] ∧
  (∃ r0, r0 ∈ r_trace r ∧ length (t_open r0) = 1%nat) ∧
  Forall (λ rec, (length (t_open rec) ≤ bound)%nat) (r_trace r) ∧
  Forall (λ rec, (size (t_closed rec) ≤ r_nodes_expanded r)%nat) (r_trace r) ∧
  (∃ rec, rec ∈ r_trace r ∧ (r_nodes_expanded r ≤ size (t_closed rec) + 1)%nat) ∧
  (∀ p, r_path r = Some p →
     (∃ rec, rec ∈ r_trace r ∧ size (t_closed rec) = r_nodes_expanded r) ∧
     (length p ≤ r_nodes_expanded r + 1)%nat).
Proof.
  intros H0 (st & Hruns & Hb)%iterate_runs.
  apply (returned_sizes bound st r); [by eapply sizes_inv_runs|done].
Qed.
End Sizes.

Lemma init_sizes_inv {E O} (view : E → string * list string * Z) graph goal start
    (init : State E O) r0 :
  more_inv view graph goal start (S (total_items graph)) init →
  closed_set init = ∅ → trace init = [r0] → length (t_open r0) = 1%nat →
  sizes_inv view graph goal start (S (total_items graph)) init.
Proof.
  intros Hm Hc Ht Hr0. split; [done|]. unfold inv_sizes. rewrite Ht, Hc. split_and!.
  - by exists r0, [].
  - apply Forall_singleton. lia.
  - exists r0. split; [by apply list_elem_of_singleton|]. rewrite size_empty. lia.
Qed.

(** The entry that [record] stores for the Result [r] of a search on [g]:
    the path and its length, which is at most one more than the number of
    expanded nodes; the largest closed set of the trace, which is the set of
    all expanded nodes; the largest frontier of the trace. *)
Definition search_metrics {O} (g : Graph) (r : Result O) (m : Metrics O) : Prop :=
  r_path r = Some (m_path m) ∧ m_cost m = r_cost r ∧
  m_nodes_expanded m = r_nodes_expanded r ∧ m_steps m = r_steps r ∧
  m_execution_time m = r_time r ∧ m_trace m = r_trace r ∧
  m_path_length m = length (m_path m) ∧
  (1 ≤ m_path_length m ≤ m_nodes_expanded m + 1)%nat ∧
  m_max_closed_size m = m_nodes_expanded m ∧
  (1 ≤ m_max_open_size m ≤ S (total_items g))%nat.

(** [record] on the Result of a search: TypeError when there is no path,
    and else the entry above under the key [algo]. *)
Definition record_outcome {O} (g : Graph) (metrics : MetricsDict) (algo : string)
    (r : Result O) : Prop :=
  match r_path r with
  | None => record_result metrics algo r = inl TypeError
  | Some _ =>
      ∃ m, record_result metrics algo r = inr (<[algo := existT O m]> metrics) ∧
           search_metrics g r m
  end.

Lemma record_result_outcome {O} (g : Graph) (metrics : MetricsDict) (algo : string)
    (r : Result O) :
  r_trace r ≠ [] →
  (∃ r0, r0 ∈ r_trace r ∧ length (t_open r0) = 1%nat) →
  Forall (λ rec, (length (t_open rec) ≤ S (total_items g))%nat) (r_trace r) →
  Forall (λ rec, (size (t_closed rec) ≤ r_nodes_expanded r)%nat) (r_trace r) →
  (∀ p, r_path r = Some p →
     (∃ rec, rec ∈ r_trace r ∧ size (t_closed rec) = r_nodes_expanded r) ∧
     (1 ≤ length p ≤ r_nodes_expanded r + 1)%nat) →
  record_outcome g metrics algo r.
Proof.
  intros Hne (r0 & Hr0 & Hl0) Hop Hcl Hpath.
  unfold record_outcome, record_result, record.
  destruct (r_path r) as [p|] eqn:Hp; [|done].
  destruct (Hpath p eq_refl) as ((rc & Hrc & Hsz) & Hlen).
  destruct (py_max_is_inr ((λ t, length (t_open t)) <$> r_trace r)) as [mo Hmo].
  { by destruct (r_trace r). }
  destruct (py_max_is_inr ((λ t, size (t_closed t)) <$> r_trace r)) as [mc Hmc].
  { by destruct (r_trace r). }
  rewrite Hmo, Hmc. eexists. split; [done|].
  apply py_max_spec in Hmo as [Hmo_in Hmo_le], Hmc as [Hmc_in Hmc_le].
  rewrite Forall_fmap in Hmo_le, Hmc_le.
  apply list_elem_of_fmap in Hmo_in as (ro & -> & Hro).
  apply list_elem_of_fmap in Hmc_in as (rc' & -> & Hrc').
  rewrite Forall_forall in Hop, Hcl, Hmo_le, Hmc_le.
  pose proof (Hop _ Hro). pose proof (Hcl _ Hrc').
  pose proof (Hmo_le _ Hr0) as H1. pose proof (Hmc_le _ Hrc) as H2. simpl in H1, H2.
  unfold search_metrics. simpl. split_and!; try done; lia.
Qed.

Section RecordRun.
Context {E O : Type} (view : E → string * list string * Z).
Context (PopOK : list E → E → Prop) (key_ok : string → Prop) (gact : string).
Context (graph : Graph) (goal start : string).
Context (body : State E O → State E O + Outcome O).
Hypothesis body_step : ∀ st, search_step view PopOK key_ok gact graph goal st (body st).

Lemma run_record_outcome init fuel r metrics algo :
  sizes_inv view graph goal start (S (total_items graph)) init →
  iterate body fuel init = Some (Returned r) →
  record_outcome graph metrics algo r.
Proof.
  intros H0 Hr.
  destruct (run_sizes view PopOK key_ok gact graph goal start body body_step _ init fuel r
              H0 Hr) as (Hne & Hfirst & Hop & Hcl & _ & Hpath).
  apply record_result_outcome; try done.
  intros p Hp. destruct (Hpath p Hp) as [Hrec Hlen]. split; [done|]. split; [|done].
  destruct H0 as [(Hb & _) _].
  destruct (run_success view PopOK key_ok gact graph goal start body body_step init fuel
              r p Hb Hr Hp) as (c & _ & _ & _ & Hw & _).
  destruct (walk_ends _ _ _ _ _ Hw) as [Hh _]. destruct p; [done|]. simpl. lia.
Qed.
End RecordRun.

(** X10. What [PerformanceMetrics.record] does with the Result of a search.
    For a Result without a path it raises TypeError and stores nothing.
    For a Result with a path it raises nothing and stores an entry under the
    name of the algorithm, in which the path length is at least 1 and at
    most one more than the number of expanded nodes, the largest closed set
    of the trace has as many nodes as were expanded, and the largest
    frontier of the trace has at least one entry and at most one more than
    the graph has adjacency items. *)
Theorem record_of_search_result (graph : Graph) (heuristic : Heuristic)
    (start goal : string) (start_time end_time : Z) (metrics : MetricsDict)
    (algo : string) :
  (∀ r, dfs_collect_trace graph start goal start_time end_time = Some (Returned r) →
        record_outcome graph metrics algo r) ∧
  (∀ r, bfs_collect_trace graph start goal start_time end_time = Some (Returned r) →
        record_outcome graph metrics algo r) ∧
  (∀ r, astar_collect_trace graph start goal heuristic start_time end_time
        = Some (Returned r) →
        record_outcome graph metrics algo r).
Proof.
  split_and!.
  - intros r.
    apply (run_record_outcome dfs_view stack_top (λ _, True) "GOAL FOUND!" graph goal start
             _ (dfs_body_step graph goal _ _) _ _ r metrics algo).
    eapply init_sizes_inv; [apply dfs_init_more|done..].
  - intros r.
    apply (run_record_outcome dfs_view queue_head (λ _, True) "GOAL FOUND!" graph goal start
             _ (bfs_body_step graph goal _ _) _ _ r metrics algo).
    eapply init_sizes_inv; [apply bfs_init_more|done..].
  - unfold astar_collect_trace. intros r.
    destruct (heuristic !! start) as [h_start|]; [|done].
    apply (run_record_outcome astar_view heap_top (has_h heuristic) "OPTIMAL GOAL!" graph
             goal start _ (astar_body_step graph goal heuristic _ _) _ _ r metrics algo).
    eapply init_sizes_inv; [apply astar_init_more|done..].
Qed.

(** *** The f values of a trace of A-star *)

(** The ['f'] values of the records never decrease along the trace. *)
Fixpoint f_nondecreasing {O} (tr : list (TraceRec O)) : Prop :=
  match tr with
  | [] => True
  | r :: tr' =>
      Forall (λ r', ∀ a b, t_f r = Some a → t_f r' = Some b → a ≤ b) tr' ∧
      f_nondecreasing tr'
  end.

Lemma f_nondecreasing_snoc {O} (tr : list (TraceRec O)) r :
  f_nondecreasing (tr ++ [r]) ↔
  f_nondecreasing tr ∧
  Forall (λ r', ∀ a b, t_f r' = Some a → t_f r = Some b → a ≤ b) tr.
Proof.
  induction tr as [|r0 tr IH]; simpl.
  - split; [done|]. intros _. split; [constructor|done].
  - rewrite IH, Forall_app, Forall_singleton, Forall_cons. tauto.
Qed.

(** No record of the trace has an ['f'] above that of a frontier item. *)
Definition f_inv (st : State astar_entry (Z * string)) : Prop :=
  f_nondecreasing (trace st) ∧
  Forall (λ r, ∀ a, t_f r = Some a → ∀ e : astar_entry, e ∈ st_open st → a ≤ e.1.1.1)
    (trace st).

Lemma f_below_snoc {O} (tr : list (TraceRec O)) (f : Z) (r : TraceRec O) :
  f_nondecreasing tr → Forall (λ r', ∀ a, t_f r' = Some a → a ≤ f) tr →
  t_f r = Some f →
  f_nondecreasing (tr ++ [r]) ∧ Forall (λ r', ∀ a, t_f r' = Some a → a ≤ f) (tr ++ [r]).
Proof.
  intros Hnd Hle Hr. rewrite f_nondecreasing_snoc, Forall_app, Forall_singleton.
  split_and!; [done| |done|].
  - eapply Forall_impl; [exact Hle|]. simpl. intros r' Hr' a b Ha Hb.
    rewrite Hr in Hb. injection Hb as <-. by apply Hr'.
  - intros a Ha. rewrite Hr in Ha. injection Ha as <-. lia.
Qed.

Lemma astar_f_body graph goal heuristic t0 t1 st :
  consistent graph heuristic → astar_inv heuristic st → f_inv st →
  match astar_body graph goal heuristic t0 t1 st with
  | inl st' => f_inv st'
  | inr (Returned r) => f_nondecreasing (r_trace r)
  | inr (Raised _ _) => True
  end.
Proof.
  intros Hcons [Ho Hf] [Hnd Hbelow]. unfold astar_body.
  destruct (heappop entry_ltb (st_open st)) as [[[[[f g] cur] path] rest]|] eqn:Hpop;
    [|done].
  destruct (pq_pop_ordered _ _ _ Ho Hpop) as [_ Hmin].
  apply heappop_perm in Hpop.
  assert (Hin : (f, g, cur, path) ∈ st_open st).
  { rewrite Hpop. by apply elem_of_cons; left. }
  assert (Hrest : ∀ e : astar_entry, e ∈ rest → f ≤ e.1.1.1).
  { intros e He. apply (Hmin e). rewrite Hpop. by apply elem_of_cons; right. }
  assert (Hle : Forall (λ r' : TraceRec (Z * string), ∀ a, t_f r' = Some a → a ≤ f)
                  (trace st)).
  { eapply Forall_impl; [exact Hbelow|]. simpl. intros r' Hr' a Ha.
    apply (Hr' a Ha _ Hin). }
  pose proof (Hf _ Hin) as Hcur. simpl in Hcur.
  destruct (heuristic !! cur) as [h|] eqn:Hh; [|done].
  set (r1 := mkRec _ _ _ _ _ _ _ "Pop min f(n)" _).
  destruct (f_below_snoc (trace st) f r1 Hnd Hle eq_refl) as [Hnd1 Hle1].
  assert (Hlift : ∀ (tr : list (TraceRec (Z * string))) (pq : list astar_entry),
            Forall (λ r', ∀ a, t_f r' = Some a → a ≤ f) tr →
            (∀ e : astar_entry, e ∈ pq → f ≤ e.1.1.1) →
            Forall (λ r, ∀ a, t_f r = Some a → ∀ e : astar_entry, e ∈ pq → a ≤ e.1.1.1) tr).
  { intros tr pq Htr Hpq. eapply Forall_impl; [exact Htr|]. simpl.
    intros r' Hr' a Ha e He. specialize (Hr' a Ha). specialize (Hpq e He). lia. }
  destruct (decide (cur = goal)).
  { set (r2 := mkRec _ _ _ _ _ _ _ "OPTIMAL GOAL!" _). simpl.
    by destruct (f_below_snoc (trace st ++ [r1]) f r2 Hnd1 Hle1 eq_refl). }
  destruct (decide (cur ∈ closed_set st)).
  { split; simpl; [done|]. by apply Hlift. }
  destruct (graph !! cur) as [adj|] eqn:Hadj; [|done].
  pose proof (astar_push_neighbors_spec heuristic ({[cur]} ∪ closed_set st) path g
                (sorted adj) rest 0) as Hspec.
  destruct (astar_push_neighbors _ _ _ _ _ _ _) as [e|[pq' k']] eqn:Hpush; [done|].
  destruct Hspec as (new & Hperm & Hview & _ & Hnew).
  assert (Hpq : ∀ e : astar_entry, e ∈ pq' → f ≤ e.1.1.1).
  { intros e He. rewrite Hperm in He. apply elem_of_app in He as [He|He]; [|by apply Hrest].
    assert (Hv : astar_view e ∈ astar_view <$> new) by (by apply list_elem_of_fmap_2).
    rewrite Hview in Hv. apply list_elem_of_fmap in Hv as ([v w] & Hev & Hvw).
    apply list_elem_of_filter in Hvw as [_ Hvw]. rewrite sorted_perm in Hvw.
    specialize (Hnew e He). unfold astar_view in Hev. simpl in Hev.
    injection Hev as Hn Hp Hg. rewrite Hn, Hg in Hnew.
    pose proof (Hcons cur adj v w _ _ Hadj Hvw Hh Hnew) as Hc.
    injection Hcur as ->. lia. }
  destruct k' as [|k'].
  - split; simpl; [done|]. by apply Hlift.
  - set (r2 := mkRec _ _ _ _ _ _ _ "Expand" _).
    destruct (f_below_snoc (trace st ++ [r1]) f r2 Hnd1 Hle1 eq_refl) as [Hnd2 Hle2].
    split; simpl; [done|]. by apply Hlift.
Qed.

(** X11. With a consistent heuristic the ['f'] values that the records of
    a trace of A-star show never decrease: no node is popped with an f below
    that of a node popped before it. *)
Theorem astar_f_never_decreases (graph : Graph) (heuristic : Heuristic)
    (start goal : string) (start_time end_time : Z) (r : Result (Z * string)) :
  consistent graph heuristic →
  astar_collect_trace graph start goal heuristic start_time end_time = Some (Returned r) →
  f_nondecreasing (r_trace r).
Proof.
  intros Hcons. unfold astar_collect_trace.
  destruct (heuristic !! start) as [h_start|] eqn:Hhs; [|done].
  intros (st & Hruns & Hb)%iterate_runs.
  assert (H : astar_inv heuristic st ∧ f_inv st).
  { refine (runs_invariant (astar_body graph goal heuristic start_time end_time)
              (λ s, astar_inv heuristic s ∧ f_inv s) (astar_init start goal h_start)
              _ _ st Hruns).
    - split; [by apply astar_inv_init|]. split; simpl.
      + split; [constructor|done].
      + apply Forall_singleton. simpl. intros a [= <-] e ->%list_elem_of_singleton.
        simpl. lia.
    - intros s1 s2 [Ha Hfi] Hbody. split; [by eapply astar_inv_body|].
      pose proof (astar_f_body graph goal heuristic start_time end_time s1 Hcons Ha Hfi)
        as Hstep.
      by rewrite Hbody in Hstep. }
  destruct H as [Ha Hfi].
  pose proof (astar_f_body graph goal heuristic start_time end_time st Hcons Ha Hfi)
    as Hstep.
  by rewrite Hb in Hstep.
Qed.

(** *** The order in which the frontier is served *)

(** The paths of the records never get shorter along the trace. *)
Fixpoint depth_nondecreasing {O} (tr : list (TraceRec O)) : Prop :=
  match tr with
  | [] => True
  | r :: tr' =>
      Forall (λ r', (length (t_path r) ≤ length (t_path r'))%nat) tr' ∧
      depth_nondecreasing tr'
  end.

Lemma depth_nondecreasing_snoc {O} (tr : list (TraceRec O)) r :
  depth_nondecreasing (tr ++ [r]) ↔
  depth_nondecreasing tr ∧
  Forall (λ r', (length (t_path r') ≤ length (t_path r))%nat) tr.
Proof.
  induction tr as [|r0 tr IH]; simpl.
  - split; [done|]. intros _. split; [constructor|done].
  - rewrite IH, Forall_app, Forall_singleton, Forall_cons. tauto.
Qed.

(** No record of the trace has a longer path than an entry of the queue. *)
Definition depth_inv (st : State dfs_entry string) : Prop :=
  depth_nondecreasing (trace st) ∧
  Forall (λ r, ∀ e : dfs_entry, e ∈ st_open st → (length (t_path r) ≤ length e.1.2)%nat)
    (trace st).

Lemma depth_below_snoc {O} (tr : list (TraceRec O)) (n : nat) (r : TraceRec O) :
  depth_nondecreasing tr → Forall (λ r', (length (t_path r') ≤ n)%nat) tr →
  length (t_path r) = n →
  depth_nondecreasing (tr ++ [r]) ∧
  Forall (λ r', (length (t_path r') ≤ n)%nat) (tr ++ [r]).
Proof.
  intros Hnd Hle Hr. rewrite depth_nondecreasing_snoc, Forall_app, Forall_singleton.
  split_and!; [done| |done|lia].
  eapply Forall_impl; [exact Hle|]. simpl. intros r' Hr'. lia.
Qed.

Lemma bfs_depth_body graph goal t0 t1 st :
  bfs_levels (st_open st) → depth_inv st →
  match bfs_body graph goal t0 t1 st with
  | inl st' => depth_inv st'
  | inr (Returned r) => depth_nondecreasing (r_trace r)
  | inr (Raised _ _) => True
  end.
Proof.
  intros Hl [Hnd Hbelow]. unfold bfs_body.
  destruct (st_open st) as [|[[cur path] cost] rest] eqn:Hopen; [done|].
  destruct Hl as [Hb _].
  assert (Hrest : ∀ e : dfs_entry, e ∈ rest → (length path ≤ length e.1.2)%nat).
  { intros e He. rewrite Forall_forall in Hb. specialize (Hb e He).
    unfold hops in Hb. simpl in Hb. lia. }
  assert (Hle : Forall (λ r' : TraceRec string, (length (t_path r') ≤ length path)%nat)
                  (trace st)).
  { eapply Forall_impl; [exact Hbelow|]. simpl. intros r' Hr'.
    apply (Hr' (cur, path, cost)). by apply elem_of_cons; left. }
  set (r1 := mkRec _ _ _ _ _ _ _ "Dequeue" _).
  destruct (depth_below_snoc (trace st) (length path) r1 Hnd Hle eq_refl) as [Hnd1 Hle1].
  assert (Hlift : ∀ (tr : list (TraceRec string)) (q : list dfs_entry),
            Forall (λ r', (length (t_path r') ≤ length path)%nat) tr →
            (∀ e : dfs_entry, e ∈ q → (length path ≤ length e.1.2)%nat) →
            Forall (λ r, ∀ e : dfs_entry, e ∈ q →
                         (length (t_path r) ≤ length e.1.2)%nat) tr).
  { intros tr q Htr Hq. eapply Forall_impl; [exact Htr|]. simpl.
    intros r' Hr' e He. specialize (Hq e He). lia. }
  destruct (decide (cur = goal)).
  { set (r2 := mkRec _ _ _ _ _ _ _ "GOAL FOUND!" _). simpl.
    by destruct (depth_below_snoc (trace st ++ [r1]) (length path) r2 Hnd1 Hle1 eq_refl). }
  destruct (decide (cur ∈ closed_set st)).
  { split; simpl; [done|]. by apply Hlift. }
  destruct (graph !! cur) as [adj|] eqn:Hadj; [|done].
  rewrite push_neighbors_spec.
  assert (Hq : ∀ e : dfs_entry,
            e ∈ rest ++ ((λ it : string * Z, (it.1, path ++ [it.1], cost + it.2)) <$>
                           filter (λ it, it.1 ∉ {[cur]} ∪ closed_set st) (sorted adj)) →
            (length path ≤ length e.1.2)%nat).
  { intros e [He|He]%elem_of_app; [by apply Hrest|].
    apply list_elem_of_fmap in He as (it & -> & _). simpl. rewrite length_app. lia. }
  destruct ([] ++ _) as [|nb added] eqn:Hadded.
  - split; simpl; [done|]. by apply Hlift.
  - set (r2 := mkRec _ _ _ _ _ _ _ "Expand" _).
    destruct (depth_below_snoc (trace st ++ [r1]) (length path) r2 Hnd1 Hle1 eq_refl)
      as [Hnd2 Hle2].
    split; simpl; [done|]. by apply Hlift.
Qed.

(** X12. BFS serves the graph level by level: along its trace the paths of
    the records never get shorter, so no node is dequeued after a node that
    is more edges away from start. *)
Theorem bfs_level_order (graph : Graph) (start goal : string)
    (start_time end_time : Z) (r : Result string) :
  bfs_collect_trace graph start goal start_time end_time = Some (Returned r) →
  depth_nondecreasing (r_trace r).
Proof.
  intros (st & Hruns & Hb)%iterate_runs.
  assert (H : bfs_levels (st_open st) ∧ depth_inv st).
  { refine (runs_invariant (bfs_body graph goal start_time end_time)
              (λ s, bfs_levels (st_open s) ∧ depth_inv s) (bfs_init start goal)
              _ _ st Hruns).
    - split; [simpl; done|]. split; simpl.
      + split; [constructor|done].
      + apply Forall_singleton. simpl. intros e _. lia.
    - intros s1 s2 [Hl Hd] Hbody. split; [by eapply bfs_levels_body|].
      pose proof (bfs_depth_body graph goal start_time end_time s1 Hl Hd) as Hstep.
      by rewrite Hbody in Hstep. }
  destruct H as [Hl Hd].
  pose proof (bfs_depth_body graph goal start_time end_time st Hl Hd) as Hstep.
  by rewrite Hb in Hstep.
Qed.

Lemma list_pop_snoc {A} (l : list A) (x : A) : list_pop (l ++ [x]) = Some (x, l).
Proof. unfold list_pop. by rewrite reverse_snoc, reverse_involutive. Qed.

Lemma filter_reverse_list {A} (P : A → Prop) `{!∀ x, Decision (P x)} (l : list A) :
  filter P (reverse l) = reverse (filter P l).
Proof.
  induction l as [|x l IH]; [done|].
  rewrite reverse_cons, filter_app, IH, filter_cons.
  destruct (decide (P x)); simpl.
  - by rewrite filter_cons_True, filter_nil, reverse_cons by done.
  - by rewrite filter_cons_False, filter_nil, app_nil_r by done.
Qed.

(** X13. DFS goes first into the neighbour that the graph lists first:
    when a round expands a node, the entry that the next round pops is that
    of the first item of the node's inner dict that is not closed. *)
Theorem dfs_first_listed_neighbour (graph : Graph) (goal : string)
    (start_time end_time : Z) (st : State dfs_entry string)
    (current_node : string) (path : list string) (cost : Z) (rest : list dfs_entry)
    (adj : Adj) (neighbor : string) (weight : Z) (more : Adj) :
  list_pop (st_open st) = Some ((current_node, path, cost), rest) →
  current_node ≠ goal → current_node ∉ closed_set st →
  graph !! current_node = Some adj →
  filter (λ it, it.1 ∉ {[current_node]} ∪ closed_set st) adj = (neighbor, weight) :: more →
  ∃ st' open_list,
    dfs_body graph goal start_time end_time st = inl st' ∧
    closed_set st' = {[current_node]} ∪ closed_set st ∧
    list_pop (st_open st') =
      Some ((neighbor, path ++ [neighbor], cost + weight), open_list).
Proof.
  intros Hpop Hg Hc Hadj Hfilter. unfold dfs_body.
  rewrite Hpop, decide_False, decide_False, Hadj by done.
  rewrite push_neighbors_spec, filter_reverse_list, Hfilter, reverse_cons, !fmap_app.
  simpl. eexists _, _. split; [done|]. simpl. split; [done|].
  rewrite app_assoc. apply list_pop_snoc.
Qed.

(** X14. A-star serves the frontier by f: in every state that a search
    reaches, the item that heappop takes has the least f of the frontier, and
    its f is its g plus the heuristic value of its node. *)
Theorem astar_pops_least_f (graph : Graph) (heuristic : Heuristic) (start goal : string)
    (start_time end_time : Z) (h_start : Z) (st : State astar_entry (Z * string))
    (f_score g_score : Z) (current_node : string) (path : list string)
    (open_pq : list astar_entry) :
  heuristic !! start = Some h_start →
  runs (astar_body graph goal heuristic start_time end_time)
    (astar_init start goal h_start) st →
  heappop entry_ltb (st_open st) = Some ((f_score, g_score, current_node, path), open_pq) →
  heuristic !! current_node = Some (f_score - g_score) ∧
  st_open st ≡ₚ (f_score, g_score, current_node, path) :: open_pq ∧
  ∀ f g n p, (f, g, n, p) ∈ st_open st → f_score ≤ f.
Proof.
  intros Hhs Hruns Hpop.
  assert (H : astar_inv heuristic st).
  { refine (runs_invariant (astar_body graph goal heuristic start_time end_time)
              (astar_inv heuristic) (astar_init start goal h_start)
              (astar_inv_init heuristic start goal h_start Hhs) _ st Hruns).
    intros s1 s2. apply astar_inv_body. }
  destruct H as [Ho Hf].
  destruct (pq_pop_ordered _ _ _ Ho Hpop) as [_ Hmin].
  pose proof (heappop_perm _ _ _ _ Hpop) as Hperm.
  split_and!; [|done|].
  - apply (Hf (f_score, g_score, current_node, path)). rewrite Hperm.
    by apply elem_of_cons; left.
  - intros f g n p Hin. apply (Hmin _ Hin).
Qed.

(** *** The last record of a trace *)

Section LastRecord.
Context {E O : Type} (view : E → string * list string * Z).
Context (PopOK : list E → E → Prop) (key_ok : string → Prop) (gact : string).
Context (graph : Graph) (goal start : string).
Abbreviation sstep := (search_step view PopOK key_ok gact graph goal).

(** Every record but the first has a current node. *)
Definition has_currents (tr : list (TraceRec O)) : Prop :=
  ∃ r0 tl, tr = r0 :: tl ∧ Forall (λ r, is_Some (t_current r)) tl.

Lemma has_currents_snoc tr r :
  has_currents tr → is_Some (t_current r) → has_currents (tr ++ [r]).
Proof.
  intros (r0 & tl & -> & Htl) Hr. exists r0, (tl ++ [r]). split; [done|].
  rewrite Forall_app, Forall_singleton. done.
Qed.

Lemma has_currents_step (st st' : State E O) :
  sstep st (inl st') → has_currents (trace st) → has_currents (trace st').
Proof.
  inversion 1 as [| |e0 rest r1 Hp _ Hr1 _ _
                 |e0 rest r1 adj new open' tr' Hp _ Hr1 _ _ _ _ _ Htr|];
    subst; simpl; intros Hc.
  - destruct Hr1 as [_ Hcur _ _ _ _ _]. apply has_currents_snoc; [done|].
    by rewrite Hcur.
  - destruct Hr1 as [_ Hcur _ _ _ _ _].
    assert (H1 : has_currents (trace st ++ [r1])).
    { apply has_currents_snoc; [done|]. by rewrite Hcur. }
    destruct Htr as [[_ ->]|(_ & r2 & [_ Hcur2 _ _ _ _ _] & ->)]; [done|].
    replace (trace st ++ [r1; r2]) with ((trace st ++ [r1]) ++ [r2])
      by (by rewrite <- app_assoc).
    apply has_currents_snoc; [done|]. by rewrite Hcur2.
Qed.

Lemma has_currents_return (st : State E O) r :
  sstep st (inr (Returned r)) → has_currents (trace st) → has_currents (r_trace r).
Proof.
  inversion 1 as [t Ho|e rest r1 r2 t Hp _ Hr1 He Hr2| | |]; subst; simpl; [done|].
  intros Hc. destruct Hr1 as [_ Hcur _ _ _ _ _], Hr2 as [_ Hcur2 _ _ _ _ _].
  replace (trace st ++ [r1; r2]) with ((trace st ++ [r1]) ++ [r2])
    by (by rewrite <- app_assoc).
  apply has_currents_snoc; [apply has_currents_snoc; [done|]|].
  - by rewrite Hcur.
  - by rewrite Hcur2.
Qed.

Context (body : State E O → State E O + Outcome O).
Hypothesis body_step : ∀ st, sstep st (body st).

Lemma run_has_currents init fuel r :
  has_currents (trace init) → iterate body fuel init = Some (Returned r) →
  has_currents (r_trace r).
Proof.
  intros H0 (st & Hruns & Hb)%iterate_runs.
  pose proof (body_step st) as Hs. rewrite Hb in Hs.
  apply (has_currents_return st r Hs).
  refine (runs_invariant body (λ s, has_currents (trace s)) init H0 _ st Hruns).
  intros s1 s2 H1 Hbody. pose proof (body_step s1) as Hs1. rewrite Hbody in Hs1.
  by eapply has_currents_step.
Qed.

(** The last record of the trace of a Result shows a path of the graph
    from [start]; it is the returned path when there is one. *)
Lemma run_last_record init fuel r :
  more_inv view graph goal start (S (total_items graph)) init →
  Forall (rec_valid graph start) (trace init) → has_currents (trace init) →
  iterate body fuel init = Some (Returned r) →
  ∃ rec v, last (r_trace r) = Some rec ∧ t_current rec = Some v ∧
           walk graph start (t_path rec) v (t_cost rec) ∧
           (∀ p, r_path r = Some p → t_path rec = p ∧ v = goal).
Proof.
  intros Hm Hv0 Hc0 Hr.
  pose proof (run_has_currents init fuel r Hc0 Hr) as (r0 & tl & Htr & Htl).
  destruct (run_counts view PopOK key_ok gact graph goal start body body_step _ init fuel
              r Hm Hr) as (Hsteps & _ & _ & _ & Hlen & _).
  pose proof Hm as (Hb & _).
  pose proof (run_rec_valid view PopOK key_ok gact graph goal start body body_step init
                fuel r Hb Hv0 Hr) as Hvalid.
  rewrite Htr in Hlen, Hvalid. simpl in Hlen.
  destruct (last tl) as [rec|] eqn:Hlast.
  2:{ apply last_None in Hlast. subst tl. simpl in Hlen. lia. }
  assert (Hlast' : last (r_trace r) = Some rec).
  { rewrite Htr. destruct tl; [done|]. by rewrite last_cons_cons. }
  assert (Hin : rec ∈ tl).
  { apply last_Some in Hlast as (l' & ->). apply elem_of_app; right.
    by apply list_elem_of_singleton. }
  rewrite Forall_forall in Htl. destruct (Htl rec Hin) as [v Hcur].
  apply Forall_cons in Hvalid as [_ Hvalid]. rewrite Forall_forall in Hvalid.
  pose proof (Hvalid rec Hin) as Hrec. unfold rec_valid in Hrec. rewrite Hcur in Hrec.
  exists rec, v. split_and!; try done.
  intros p Hp.
  destruct (run_success view PopOK key_ok gact graph goal start body body_step init fuel
              r p Hb Hr Hp) as (c & tr & rec' & _ & Hw & Htrace & _ & _ & Hpath & _).
  rewrite Htrace, last_snoc in Hlast'. injection Hlast' as ->.
  split; [done|].
  destruct (walk_ends _ _ _ _ _ Hw) as [_ Hend].
  destruct (walk_ends _ _ _ _ _ Hrec) as [_ Hend'].
  rewrite Hpath in Hend'. congruence.
Qed.
End LastRecord.

(** [trace[-1]['path']] *)
Definition last_path {O} (trace : list (TraceRec O)) : option (list string) :=
  t_path <$> last trace.

(** X15. The path that the script takes from the last record of the
    trace of A-star, to move the robot along, is always there and is a path
    of the graph from start; when A-star found the goal it is the path that
    A-star returned. *)
Theorem last_record_path (graph : Graph) (heuristic : Heuristic) (start goal : string)
    (start_time end_time : Z) (r : Result (Z * string)) :
  astar_collect_trace graph start goal heuristic start_time end_time = Some (Returned r) →
  ∃ path v c, last_path (r_trace r) = Some path ∧ walk graph start path v c ∧
              (∀ p, r_path r = Some p → path = p ∧ v = goal).
Proof.
  unfold astar_collect_trace.
  destruct (heuristic !! start) as [h_start|]; [|done]. intros Hr.
  destruct (run_last_record astar_view heap_top (has_h heuristic) "OPTIMAL GOAL!" graph
              goal start _ (astar_body_step graph goal heuristic _ _) _ _ r
              (astar_init_more graph start goal h_start)
              ltac:(by repeat constructor)
              ltac:(by eexists _, []) Hr)
    as (rec & v & Hlast & Hcur & Hw & Hp).
  exists (t_path rec), v, (t_cost rec). unfold last_path. rewrite Hlast. done.
Qed.

(** ** The further properties, on the graphs above *)

Lemma graph_has_start : "Glogow" ∈ dom graph.
Proof. compute_done. Qed.

Lemma graph_heuristic_dom : dom graph ⊆ dom heuristic.
Proof. compute_done. Qed.

Lemma heuristic_consistent : consistent graph heuristic.
Proof. apply consistent_check. compute_done. Qed.

Lemma flat_heuristic_consistent : consistent two_islands flat_heuristic.
Proof. apply consistent_check. compute_done. Qed.

Lemma two_islands_wf : wf_graph two_islands.
Proof. apply wf_graph_check. compute_done. Qed.

Lemma returned_path_simple_witness :
  ∃ rd rb ra,
    (dfs_collect_trace two_islands "A" "B" 0 1 = Some (Returned rd) ∧
     r_path rd = Some ["A"; "B"] ∧ NoDup ["A"; "B"]) ∧
    (bfs_collect_trace two_islands "A" "B" 0 1 = Some (Returned rb) ∧
     r_path rb = Some ["A"; "B"] ∧ NoDup ["A"; "B"]) ∧
    (astar_collect_trace two_islands "A" "B" flat_heuristic 0 1 = Some (Returned ra) ∧
     r_path ra = Some ["A"; "B"] ∧ NoDup ["A"; "B"]).
Proof.
  destruct (returned_path_simple two_islands flat_heuristic "A" "B" 0 1) as (Hd & Hb & Ha).
  eexists _, _, _. split_and!.
  - vm_compute. reflexivity.
  - reflexivity.
  - eapply Hd; [vm_compute; reflexivity|reflexivity].
  - vm_compute. reflexivity.
  - reflexivity.
  - eapply Hb; [vm_compute; reflexivity|reflexivity].
  - vm_compute. reflexivity.
  - reflexivity.
  - eapply Ha; [vm_compute; reflexivity|reflexivity].
Defined.

Lemma search_effort_witness :
  ∃ rd rb ra,
    (dfs_collect_trace two_islands "A" "B" 0 1 = Some (Returned rd) ∧
     effort_bounds two_islands rd) ∧
    (bfs_collect_trace two_islands "A" "B" 0 1 = Some (Returned rb) ∧
     effort_bounds two_islands rb) ∧
    (astar_collect_trace two_islands "A" "B" flat_heuristic 0 1 = Some (Returned ra) ∧
     effort_bounds two_islands ra).
Proof.
  destruct (search_effort two_islands flat_heuristic "A" "B" 0 1) as (Hd & Hb & Ha).
  eexists _, _, _. split_and!.
  - vm_compute. reflexivity.
  - apply Hd. vm_compute. reflexivity.
  - vm_compute. reflexivity.
  - apply Hb. vm_compute. reflexivity.
  - vm_compute. reflexivity.
  - apply Ha. vm_compute. reflexivity.
Defined.

Lemma trace_in_step_order_witness :
  ∃ rd rb ra,
    (dfs_collect_trace two_islands "A" "B" 0 1 = Some (Returned rd) ∧ trace_shape rd) ∧
    (bfs_collect_trace two_islands "A" "B" 0 1 = Some (Returned rb) ∧ trace_shape rb) ∧
    (astar_collect_trace two_islands "A" "B" flat_heuristic 0 1 = Some (Returned ra) ∧
     trace_shape ra).
Proof.
  destruct (trace_in_step_order two_islands flat_heuristic "A" "B" 0 1) as (Hd & Hb & Ha).
  eexists _, _, _. split_and!.
  - vm_compute. reflexivity.
  - apply Hd. vm_compute. reflexivity.
  - vm_compute. reflexivity.
  - apply Hb. vm_compute. reflexivity.
  - vm_compute. reflexivity.
  - apply Ha. vm_compute. reflexivity.
Defined.

Lemma search_complete_witness :
  wf_graph graph ∧ "Glogow" ∈ dom graph ∧ dom graph ⊆ dom heuristic ∧
  (∃ p c, walk graph "Glogow" p "Plock" c) ∧
  finds_path graph "Glogow" "Plock" (dfs_collect_trace graph "Glogow" "Plock" 0 1) ∧
  finds_path graph "Glogow" "Plock" (bfs_collect_trace graph "Glogow" "Plock" 0 1) ∧
  finds_path graph "Glogow" "Plock"
    (astar_collect_trace graph "Glogow" "Plock" heuristic 0 1).
Proof.
  assert (Hr : ∃ p c, walk graph "Glogow" p "Plock" c).
  { eexists _, _. apply graph_reachable. }
  split_and!; [apply graph_wf|apply graph_has_start|apply graph_heuristic_dom|done|..];
    apply (search_complete graph heuristic "Glogow" "Plock" 0 1 graph_wf graph_has_start
             graph_heuristic_dom Hr).
Defined.

Lemma no_path_explores_all_witness :
  ∃ rd rb ra,
    (dfs_collect_trace two_islands "A" "C" 0 1 = Some (Returned rd) ∧
     r_path rd = None ∧ explored_all two_islands "A" rd) ∧
    (bfs_collect_trace two_islands "A" "C" 0 1 = Some (Returned rb) ∧
     r_path rb = None ∧ explored_all two_islands "A" rb) ∧
    (astar_collect_trace two_islands "A" "C" flat_heuristic 0 1 = Some (Returned ra) ∧
     r_path ra = None ∧ explored_all two_islands "A" ra).
Proof.
  destruct (no_path_explores_all two_islands flat_heuristic "A" "C" 0 1) as (Hd & Hb & Ha).
  eexists _, _, _. split_and!.
  - vm_compute. reflexivity.
  - reflexivity.
  - apply Hd; [vm_compute; reflexivity|reflexivity].
  - vm_compute. reflexivity.
  - reflexivity.
  - apply Hb; [vm_compute; reflexivity|reflexivity].
  - vm_compute. reflexivity.
  - reflexivity.
  - apply Ha; [vm_compute; reflexivity|reflexivity].
Defined.

Lemma trace_records_valid_witness :
  ∃ rd rb ra,
    (dfs_collect_trace two_islands "A" "B" 0 1 = Some (Returned rd) ∧
     Forall (rec_valid two_islands "A") (r_trace rd)) ∧
    (bfs_collect_trace two_islands "A" "B" 0 1 = Some (Returned rb) ∧
     Forall (rec_valid two_islands "A") (r_trace rb)) ∧
    (astar_collect_trace two_islands "A" "B" flat_heuristic 0 1 = Some (Returned ra) ∧
     Forall (rec_valid two_islands "A") (r_trace ra)).
Proof.
  destruct (trace_records_valid two_islands flat_heuristic "A" "B" 0 1) as (Hd & Hb & Ha).
  eexists _, _, _. split_and!.
  - vm_compute. reflexivity.
  - apply Hd. vm_compute. reflexivity.
  - vm_compute. reflexivity.
  - apply Hb. vm_compute. reflexivity.
  - vm_compute. reflexivity.
  - apply Ha. vm_compute. reflexivity.
Defined.

Lemma expansions_by_best_path_witness :
  wf_graph two_islands ∧ dom two_islands ⊆ dom flat_heuristic ∧
  consistent two_islands flat_heuristic ∧
  ∃ rb ra,
    (bfs_collect_trace two_islands "A" "B" 0 1 = Some (Returned rb) ∧
     Forall (shows_fewest_hops two_islands "A") (r_trace rb)) ∧
    (astar_collect_trace two_islands "A" "B" flat_heuristic 0 1 = Some (Returned ra) ∧
     Forall (shows_least_cost two_islands "A") (r_trace ra)).
Proof.
  assert (Hd : dom two_islands ⊆ dom flat_heuristic) by compute_done.
  destruct (expansions_by_best_path two_islands flat_heuristic "A" "B" 0 1) as (Hb & Ha).
  split_and!; [apply two_islands_wf|done|apply flat_heuristic_consistent|].
  eexists _, _. split_and!.
  - vm_compute. reflexivity.
  - apply Hb. vm_compute. reflexivity.
  - vm_compute. reflexivity.
  - apply (Ha two_islands_wf Hd flat_heuristic_consistent). vm_compute. reflexivity.
Defined.

Lemma searches_compared_witness :
  wf_graph graph ∧ dom graph ⊆ dom heuristic ∧ consistent graph heuristic ∧
  ∃ rd rb ra,
    dfs_collect_trace graph "Glogow" "Plock" 0 1 = Some (Returned rd) ∧
    bfs_collect_trace graph "Glogow" "Plock" 0 1 = Some (Returned rb) ∧
    astar_collect_trace graph "Glogow" "Plock" heuristic 0 1 = Some (Returned ra) ∧
    agree rd rb ra ∧
    (∀ pd pa, r_path rd = Some pd → r_path ra = Some pa →
       ∃ pb cd cb ca,
         r_path rb = Some pb ∧
         r_cost rd = Some cd ∧ r_cost rb = Some cb ∧ r_cost ra = Some ca ∧
         (hop_count pb ≤ hop_count pd)%nat ∧ (hop_count pb ≤ hop_count pa)%nat ∧
         (wf_graph graph → dom graph ⊆ dom heuristic → consistent graph heuristic →
          ca ≤ cd ∧ ca ≤ cb)).
Proof.
  split_and!; [apply graph_wf|apply graph_heuristic_dom|apply heuristic_consistent|].
  destruct (dfs_returns graph "Glogow" "Plock" 0 1 graph_wf graph_has_start) as [rd Hd].
  destruct (bfs_returns graph "Glogow" "Plock" 0 1 graph_wf graph_has_start) as [rb Hb].
  destruct (astar_returns graph "Glogow" "Plock" heuristic 0 1 graph_wf graph_has_start
              graph_heuristic_dom) as [ra Ha].
  exists rd, rb, ra. split_and!; [done..| |];
    apply (searches_compared graph heuristic "Glogow" "Plock" 0 1 rd rb ra Hd Hb Ha).
Defined.

Lemma key_error_names_missing_node_witness :
  ∃ tr,
    dfs_collect_trace lone_graph "Z" "A" 0 1 = Some (Raised (KeyError "Z") tr) ∧
    "Z" ≠ "A" ∧ reachable_unknown lone_graph "Z" (λ v, v ∈ dom lone_graph) "Z".
Proof.
  destruct (key_error_names_missing_node lone_graph lone_heuristic "Z" "A" 0 1)
    as (Hd & _ & _).
  eexists. split.
  - vm_compute. reflexivity.
  - eapply Hd. vm_compute. reflexivity.
Defined.

Lemma record_of_search_result_witness :
  ∃ rd rb ra,
    (dfs_collect_trace two_islands "A" "B" 0 1 = Some (Returned rd) ∧
     record_outcome two_islands ∅ "dfs" rd) ∧
    (bfs_collect_trace two_islands "A" "C" 0 1 = Some (Returned rb) ∧
     record_outcome two_islands ∅ "bfs" rb) ∧
    (astar_collect_trace two_islands "A" "B" flat_heuristic 0 1 = Some (Returned ra) ∧
     record_outcome two_islands ∅ "astar" ra).
Proof.
  destruct (record_of_search_result two_islands flat_heuristic "A" "B" 0 1 ∅ "dfs")
    as (Hd & _ & _).
  destruct (record_of_search_result two_islands flat_heuristic "A" "C" 0 1 ∅ "bfs")
    as (_ & Hb & _).
  destruct (record_of_search_result two_islands flat_heuristic "A" "B" 0 1 ∅ "astar")
    as (_ & _ & Ha).
  eexists _, _, _. split_and!.
  - vm_compute. reflexivity.
  - apply Hd. vm_compute. reflexivity.
  - vm_compute. reflexivity.
  - apply Hb. vm_compute. reflexivity.
  - vm_compute. reflexivity.
  - apply Ha. vm_compute. reflexivity.
Defined.

Lemma astar_f_never_decreases_witness :
  consistent two_islands flat_heuristic ∧
  ∃ r, astar_collect_trace two_islands "A" "B" flat_heuristic 0 1 = Some (Returned r) ∧
       f_nondecreasing (r_trace r).
Proof.
  split; [apply flat_heuristic_consistent|]. eexists. split.
  - vm_compute. reflexivity.
  - apply (astar_f_never_decreases two_islands flat_heuristic "A" "B" 0 1 _
             flat_heuristic_consistent).
    vm_compute. reflexivity.
Defined.

Lemma bfs_level_order_witness :
  ∃ r, bfs_collect_trace two_islands "A" "B" 0 1 = Some (Returned r) ∧
       depth_nondecreasing (r_trace r).
Proof.
  eexists. split.
  - vm_compute. reflexivity.
  - apply (bfs_level_order two_islands "A" "B" 0 1). vm_compute. reflexivity.
Defined.

Lemma dfs_first_listed_neighbour_witness :
  list_pop (st_open (dfs_init "Glogow" "Plock")) = Some (("Glogow", ["Glogow"], 0), []) ∧
  "Glogow" ≠ "Plock" ∧ ("Glogow" ∉ closed_set (dfs_init "Glogow" "Plock")) ∧
  graph !! "Glogow" = Some [("Leszno", 45); ("Wroclaw", 140)] ∧
  ∃ st' open_list,
    dfs_body graph "Plock" 0 1 (dfs_init "Glogow" "Plock") = inl st' ∧
    closed_set st' = {["Glogow"]} ∪ closed_set (dfs_init "Glogow" "Plock") ∧
    list_pop (st_open st') = Some (("Leszno", ["Glogow"] ++ ["Leszno"], 0 + 45), open_list).
Proof.
  assert (H1 : list_pop (st_open (dfs_init "Glogow" "Plock"))
               = Some (("Glogow", ["Glogow"], 0), [])) by reflexivity.
  assert (H2 : "Glogow" ≠ "Plock") by discriminate.
  assert (H3 : "Glogow" ∉ closed_set (dfs_init "Glogow" "Plock")) by compute_done.
  assert (H4 : graph !! "Glogow" = Some [("Leszno", 45); ("Wroclaw", 140)])
    by (vm_compute; reflexivity).
  split_and!; try done.
  apply (dfs_first_listed_neighbour graph "Plock" 0 1 (dfs_init "Glogow" "Plock")
           "Glogow" ["Glogow"] 0 [] _ "Leszno" 45 [("Wroclaw", 140)] H1 H2 H3 H4).
  vm_compute. reflexivity.
Defined.


Lemma last_record_path_witness :
  ∃ r path v c,
    astar_collect_trace two_islands "A" "C" flat_heuristic 0 1 = Some (Returned r) ∧
    last_path (r_trace r) = Some path ∧ walk two_islands "A" path v c ∧
    (∀ p, r_path r = Some p → path = p ∧ v = "C").
Proof.
  eexists.
  assert (Hr : astar_collect_trace two_islands "A" "C" flat_heuristic 0 1
               = Some (Returned _)) by (vm_compute; reflexivity).
  destruct (last_record_path two_islands flat_heuristic "A" "C" 0 1 _ Hr)
    as (path & v & c & H).
  exists path, v, c. split; [exact Hr|exact H].
Defined.

(** ** The frames of RealTimeSearchVisualizer *)

(** The colour and the size that [_update_frame] gives to [node] in the
    frame of the trace record [state]: the body of its loop over the nodes.
    [open_node] is [n if isinstance(n, str) else n[1]] on the items of the
    ['open'] snapshot. *)
Definition node_style {O} (open_node : O → string) (start goal : string)
    (state : TraceRec O) (node : string) : string * Z :=
  if decide (Some node = t_current state) then ("#f39c12"%string, 2500)
  else if decide (node = start) then ("#3498db"%string, 2200)
  else if decide (node = goal) then ("#e74c3c"%string, 2200)
  else if decide (node ∈ t_closed state) then ("#9b59b6"%string, 1800)
  else if decide (node ∈ t_path state) then ("#2ecc71"%string, 2000)
  else if decide (node ∈ open_node <$> t_open state) then ("#f1c40f"%string, 1800)
  else ("#bdc3c7"%string, 1500).

(** Every node of the path of the record is its current node or is in its
    closed snapshot. *)
Definition path_covered {O} (r : TraceRec O) : Prop :=
  ∀ v, v ∈ t_path r → t_current r = Some v ∨ v ∈ t_closed r.

Section PathCovered.
Context {E O : Type} (view : E → string * list string * Z).
Context (PopOK : list E → E → Prop) (key_ok : string → Prop) (gact : string).
Context (graph : Graph) (goal start : string).
Abbreviation sstep := (search_step view PopOK key_ok gact graph goal).

Lemma popped_covered (st : State E O) e rest (r : TraceRec O) (extra : gset string) :
  inv_simple view st → st_open st ≡ₚ e :: rest →
  t_current r = Some (e_node view e) → t_path r = e_path view e →
  t_closed r = extra ∪ closed_set st →
  path_covered r.
Proof.
  intros Hs Hp Hcur Hpath Hcl v Hv. rewrite Hpath in Hv.
  destruct (Hs e) as (q & Hq & _ & Hclosed).
  { rewrite Hp. by apply elem_of_cons; left. }
  rewrite Hq in Hv. apply elem_of_app in Hv as [Hv|Hv%list_elem_of_singleton].
  - right. rewrite Hcl. apply elem_of_union; right. by apply Hclosed.
  - left. by rewrite Hcur, Hv.
Qed.

Lemma path_covered_step (st : State E O) out :
  sstep st out → inv_simple view st → Forall path_covered (trace st) →
  match out with
  | inl st' => Forall path_covered (trace st')
  | inr (Returned r) => Forall path_covered (r_trace r)
  | inr (Raised _ _) => True
  end.
Proof.
  inversion 1 as [t Ho|e rest r1 r2 t Hp _ Hr1 He Hr2
                 |e0 rest r1 Hp _ Hr1 _ _
                 |e0 rest r1 adj new open' tr' Hp _ Hr1 _ _ _ _ _ Htr|];
    subst; simpl; intros Hs Hc; [done| | | |done].
  - destruct Hr1 as [_ Hcur1 Hpath1 _ _ Hcl1 _], Hr2 as [_ Hcur2 Hpath2 _ _ Hcl2 _].
    rewrite Forall_app, Forall_cons, Forall_singleton. split_and!; [done|..].
    + apply (popped_covered st e rest r1 ∅ Hs Hp Hcur1 Hpath1).
      rewrite Hcl1. set_solver.
    + apply (popped_covered st e rest r2 ∅ Hs Hp Hcur2 Hpath2).
      rewrite Hcl2. set_solver.
  - destruct Hr1 as [_ Hcur1 Hpath1 _ _ Hcl1 _].
    rewrite Forall_app, Forall_singleton. split; [done|].
    apply (popped_covered st e0 rest r1 ∅ Hs Hp Hcur1 Hpath1).
    rewrite Hcl1. set_solver.
  - destruct Hr1 as [_ Hcur1 Hpath1 _ _ Hcl1 _].
    assert (H1 : path_covered r1).
    { apply (popped_covered st e0 rest r1 ∅ Hs Hp Hcur1 Hpath1).
      rewrite Hcl1. set_solver. }
    destruct Htr as [[_ ->]|(_ & r2 & [_ Hcur2 Hpath2 _ _ Hcl2 _] & ->)].
    + rewrite Forall_app, Forall_singleton. done.
    + rewrite Forall_app, Forall_cons, Forall_singleton. split_and!; [done..|].
      apply (popped_covered st e0 rest r2 {[e_node view e0]} Hs Hp Hcur2 Hpath2 Hcl2).
Qed.

Context (body : State E O → State E O + Outcome O).
Hypothesis body_step : ∀ st, sstep st (body st).

Lemma run_path_covered bound init fuel r :
  more_inv view graph goal start bound init → Forall path_covered (trace init) →
  iterate body fuel init = Some (Returned r) →
  Forall path_covered (r_trace r).
Proof.
  intros Hm H0 (st & Hruns & Hb)%iterate_runs.
  assert (H : more_inv view graph goal start bound st ∧ Forall path_covered (trace st)).
  { refine (runs_invariant body
              (λ s, more_inv view graph goal start bound s ∧
                    Forall path_covered (trace s))
              init (conj Hm H0) _ st Hruns).
    intros s1 s2 [Hm1 Hc1] Hbody. split.
    - apply (more_inv_runs view PopOK key_ok gact graph goal start body body_step bound
               s1 s2 Hm1).
      eapply runs_step; [apply runs_refl|done].
    - pose proof (path_covered_step s1 _ (body_step s1)) as Hstep.
      rewrite Hbody in Hstep. apply Hstep; [apply Hm1|done]. }
  destruct H as [Hmst Hcst].
  pose proof (path_covered_step st _ (body_step st)) as Hstep.
  rewrite Hb in Hstep. apply Hstep; [apply Hmst|done].
Qed.
End PathCovered.

Lemma covered_never_path_style {O} (open_node : O → string) (start goal : string)
    (state : TraceRec O) (node : string) :
  path_covered state →
  (node_style open_node start goal state node).1 ≠ "#2ecc71"%string.
Proof.
  intros Hc. unfold node_style.
  repeat (case_decide; [done|]).
  case_decide as Hp; [|by case_decide].
  destruct (Hc node Hp) as [Hcur|Hcl]; [by rewrite Hcur in *|done].
Qed.

(** No frame of the trace of [r] gives a node the colour of the path. *)
Definition path_style_unused {O} (open_node : O → string) (start goal : string)
    (r : Result O) : Prop :=
  ∀ state node, state ∈ r_trace r →
    (node_style open_node start goal state node).1 ≠ "#2ecc71"%string.

(** X16. In no frame of the animation of a search does [_update_frame]
    give a node the colour of its 'Path' branch: in every record of a trace
    each node of the path is the current node or is in the closed snapshot,
    and those branches come first. *)
Theorem path_colour_never_shown (graph : Graph) (heuristic : Heuristic)
    (start goal : string) (start_time end_time : Z) :
  (∀ r, dfs_collect_trace graph start goal start_time end_time = Some (Returned r) →
        path_style_unused id start goal r) ∧
  (∀ r, bfs_collect_trace graph start goal start_time end_time = Some (Returned r) →
        path_style_unused id start goal r) ∧
  (∀ r, astar_collect_trace graph start goal heuristic start_time end_time
        = Some (Returned r) →
        path_style_unused snd start goal r).
Proof.
  assert (Hinit : ∀ O (r0 : TraceRec O), t_path r0 = [] → Forall path_covered [r0]).
  { intros O r0 Hr0. apply Forall_singleton. intros v Hv. rewrite Hr0 in Hv.
    by apply elem_of_nil in Hv. }
  split_and!.
  - intros r Hr state node Hin. apply covered_never_path_style.
    pose proof (run_path_covered dfs_view stack_top (λ _, True) "GOAL FOUND!" graph goal
                  start _ (dfs_body_step graph goal start_time end_time) _ (dfs_init start goal)
                  (search_fuel graph) r (dfs_init_more graph start goal)) as Hall.
    specialize (Hall ltac:(by apply Hinit) Hr).
    rewrite Forall_forall in Hall. by apply Hall.
  - intros r Hr state node Hin. apply covered_never_path_style.
    pose proof (run_path_covered dfs_view queue_head (λ _, True) "GOAL FOUND!" graph goal
                  start _ (bfs_body_step graph goal start_time end_time) _ (bfs_init start goal)
                  (search_fuel graph) r (bfs_init_more graph start goal)) as Hall.
    specialize (Hall ltac:(by apply Hinit) Hr).
    rewrite Forall_forall in Hall. by apply Hall.
  - unfold astar_collect_trace. intros r.
    destruct (heuristic !! start) as [h_start|]; [|done].
    intros Hr state node Hin. apply covered_never_path_style.
    pose proof (run_path_covered astar_view heap_top (has_h heuristic) "OPTIMAL GOAL!"
                  graph goal start _ (astar_body_step graph goal heuristic start_time end_time) _
                  (astar_init start goal h_start) (search_fuel graph) r
                  (astar_init_more graph start goal h_start)) as Hall.
    specialize (Hall ltac:(by apply Hinit) Hr).
    rewrite Forall_forall in Hall. by apply Hall.
Qed.

Lemma path_colour_never_shown_witness :
  ∃ rd rb ra,
    (dfs_collect_trace two_islands "A" "B" 0 1 = Some (Returned rd) ∧
     path_style_unused id "A" "B" rd) ∧
    (bfs_collect_trace two_islands "A" "B" 0 1 = Some (Returned rb) ∧
     path_style_unused id "A" "B" rb) ∧
    (astar_collect_trace two_islands "A" "B" flat_heuristic 0 1 = Some (Returned ra) ∧
     path_style_unused snd "A" "B" ra).
Proof.
  destruct (path_colour_never_shown two_islands flat_heuristic "A" "B" 0 1)
    as (Hd & Hb & Ha).
  eexists _, _, _. split_and!.
  - vm_compute. reflexivity.
  - apply Hd. vm_compute. reflexivity.
  - vm_compute. reflexivity.
  - apply Hb. vm_compute. reflexivity.
  - vm_compute. reflexivity.
  - apply Ha. vm_compute. reflexivity.
Defined.

(** ** A search that exhausts the frontier *)

(** The search returned without a path, after exploring all it could.
    [reached] is the set of the nodes that a path of the graph leads to from
    [start].  The count of expanded nodes is the size of [reached] and is
    within the bounds of the counters.  The trace has the shape of every
    trace; its records show paths of the graph; each node of [reached] is the
    current node of some record; the closed snapshots hold nodes of
    [reached] only, grow, and none is larger than the count; no record is a
    goal record; and the last record has an empty open snapshot. *)
Definition exhausted_result {O} (g : Graph) (start : string) (o : option (Outcome O))
    : Prop :=
  ∃ (r : Result O) (reached : gset string),
    o = Some (Returned r) ∧ r_path r = None ∧ r_cost r = None ∧
    (∀ v, v ∈ reached ↔ ∃ p c, walk g start p v c) ∧
    r_nodes_expanded r = size reached ∧
    effort_bounds g r ∧
    trace_shape r ∧
    Forall (rec_valid g start) (r_trace r) ∧
    (∀ v, v ∈ reached → ∃ rec, rec ∈ r_trace r ∧ t_current rec = Some v) ∧
    Forall (λ rec, t_closed rec ⊆ reached) (r_trace r) ∧
    closed_monotone (r_trace r) ∧
    Forall (λ rec, (size (t_closed rec) ≤ r_nodes_expanded r)%nat) (r_trace r) ∧
    Forall (λ rec, is_goal_action (t_action rec) = false) (r_trace r) ∧
    (∃ tr rec, r_trace r = tr ++ [rec] ∧ t_open rec = []).

Section Exhausted.
Context {E O : Type} (view : E → string * list string * Z).
Context (PopOK : list E → E → Prop) (key_ok : string → Prop) (gact : string).
Context (graph : Graph) (goal start : string).
Abbreviation sstep := (search_step view PopOK key_ok gact graph goal).

(** Every closed node is the current node of a record of the trace. *)
Definition inv_shown (st : State E O) : Prop :=
  ∀ v, v ∈ closed_set st → ∃ rec, rec ∈ trace st ∧ t_current rec = Some v.

Lemma inv_shown_step (st st' : State E O) :
  sstep st (inl st') → inv_shown st → inv_shown st'.
Proof.
  inversion 1 as [| |e0 rest r1 Hp _ Hr1 _ _
                 |e0 rest r1 adj new open' tr' Hp _ Hr1 _ _ _ _ _ Htr|];
    subst; simpl; intros Hinv v Hv; simpl in *.
  - destruct (Hinv v Hv) as (rec & Hrec & Hcur). exists rec. split; [|done].
    apply elem_of_app. by left.
  - destruct Hr1 as [_ Hcur1 _ _ _ _ _].
    assert (Hsub : ∀ rec, rec ∈ trace st ++ [r1] → rec ∈ tr').
    { intros rec Hrec. destruct Htr as [[_ ->]|(_ & r2 & _ & ->)]; [done|].
      apply elem_of_app in Hrec as [Hrec|Hrec%list_elem_of_singleton].
      - apply elem_of_app. by left.
      - apply elem_of_app. right. subst rec. by apply elem_of_cons; left. }
    apply elem_of_union in Hv as [->%elem_of_singleton|Hv].
    + exists r1. split; [|done]. apply Hsub, elem_of_app. right.
      by apply list_elem_of_singleton.
    + destruct (Hinv v Hv) as (rec & Hrec & Hcur). exists rec. split; [|done].
      apply Hsub, elem_of_app. by left.
Qed.

Context (body : State E O → State E O + Outcome O).
Hypothesis body_step : ∀ st, sstep st (body st).

Lemma inv_shown_runs init st : inv_shown init → runs body init st → inv_shown st.
Proof.
  intros H0 Hruns. refine (runs_invariant body inv_shown init H0 _ st Hruns).
  intros s1 s2 H1 Hbody. pose proof (body_step s1) as Hs. rewrite Hbody in Hs.
  by eapply inv_shown_step.
Qed.

(** What is closed when the frontier is exhausted. *)
Lemma run_reached bound init fuel r :
  flat_cut view graph goal start init →
  more_inv view graph goal start bound init → inv_shown init →
  iterate body fuel init = Some (Returned r) → r_path r = None →
  ∃ reached : gset string,
    (∀ v, v ∈ reached ↔ ∃ p c, walk graph start p v c) ∧
    r_nodes_expanded r = size reached ∧
    (∀ v, v ∈ reached → ∃ rec, rec ∈ r_trace r ∧ t_current rec = Some v) ∧
    Forall (λ rec, t_closed rec ⊆ reached) (r_trace r).
Proof.
  intros H0 Hm0 Hs0 (st & Hruns & Hb)%iterate_runs Hp.
  pose proof (flat_cut_runs view PopOK key_ok gact graph goal start body body_step
                init st H0 Hruns) as Hst.
  pose proof (more_inv_runs view PopOK key_ok gact graph goal start body body_step
                bound init st Hm0 Hruns) as (Hbasic & _ & Hcl & _).
  pose proof (inv_shown_runs init st Hs0 Hruns) as Hshown.
  destruct (returned_absent view PopOK key_ok gact graph goal start body body_step
              st r Hbasic Hb Hp) as (_ & Ho & _).
  destruct (returned_general view PopOK key_ok gact graph goal start body body_step
              st r Hbasic Hb) as (_ & Hn & Hsub).
  assert (Htr : r_trace r = trace st).
  { pose proof (body_step st) as Hs. rewrite Hb in Hs.
    inversion Hs as [t Ho'|e rest r1 r2 t Hperm _ _ _ _| | |]; subst; simpl in *; [done|].
    rewrite Ho in Hperm. by apply Permutation_nil_cons in Hperm. }
  exists (closed_set st). split_and!; [|done| |done].
  - intros v. split.
    + intros Hv. by apply Hcl.
    + intros (p & c & Hw). destruct (decide (v ∈ closed_set st)) as [|Hv]; [done|].
      exfalso. eapply flat_cut_frontier; [exact Hst|exact Hw|exact Hv|exact Ho].
  - intros v Hv. rewrite Htr. by apply Hshown.
Qed.

Lemma run_exhausted_result init fuel e r0 :
  basic_inv view graph goal start init →
  st_open init = [e] → view e = (start, [start], 0) →
  closed_set init = ∅ → trace init = [r0] → t_step r0 = Whole 0 →
  t_current r0 = None →
  nodes_expanded init = 0%nat → step init = 0%nat →
  (∀ p c, ¬ walk graph start p goal c) →
  (∃ r, iterate body fuel init = Some (Returned r)) →
  exhausted_result graph start (iterate body fuel init).
Proof.
  intros Hb Ho Hv Hc Ht Hr0 Hcur0 Hn Hs Hun [r Hr].
  pose proof (init_more_inv view graph goal start init e r0 Hb Ho Hv Hc Ht Hr0 Hn Hs)
    as Hm.
  pose proof (init_flat_cut view graph goal start init e Hb Ho Hv Hc) as Hf.
  assert (Hp : r_path r = None).
  { destruct (r_path r) as [p|] eqn:Hp; [|done].
    destruct (run_success view PopOK key_ok gact graph goal start body body_step init fuel
                r p Hb Hr Hp) as (c & _ & _ & _ & Hw & _).
    by destruct (Hun p c). }
  assert (Hshown : inv_shown init).
  { intros v Hv'. rewrite Hc in Hv'. by apply not_elem_of_empty in Hv'. }
  assert (Hvalid0 : Forall (rec_valid graph start) (trace init)).
  { rewrite Ht. apply Forall_singleton. unfold rec_valid. by rewrite Hcur0. }
  destruct (run_reached _ init fuel r Hf Hm Hshown Hr Hp)
    as (reached & Hreach & Hcount & Hcurrent & Hwithin).
  destruct (run_absent view PopOK key_ok gact graph goal start body body_step init fuel r
              Hb Hr Hp) as (Hcost & Hlast & Hnogoal).
  destruct (run_general view PopOK key_ok gact graph goal start body body_step init fuel r
              Hb Hr) as (Hmon & Hsizes).
  destruct (run_counts view PopOK key_ok gact graph goal start body body_step _ init fuel
              r Hm Hr) as (Hsteps & Hle & Hlt & Hdom & Hlen).
  destruct (run_steps view PopOK key_ok gact graph goal start body body_step _ init fuel
              r Hm Hr) as (Hfirst & Hinc & Hbound).
  pose proof (run_rec_valid view PopOK key_ok gact graph goal start body body_step init
                fuel r Hb Hvalid0 Hr) as Hvalid.
  exists r, reached. rewrite Hr.
  unfold effort_bounds, trace_shape. split_and!; try done; lia.
Qed.
End Exhausted.

(** C5. On a well-formed graph in which no path leads from start to goal
    (as when they lie in two disconnected components), each of the three
    searches returns, without raising, a Result with no path and no cost.
    Its count of expanded nodes is the number of the nodes that can be
    reached from start, and its trace is a trace as any other: well-shaped,
    with a valid path in every record, with every reachable node shown as the
    current node of a record, with growing closed snapshots of reachable
    nodes, with no goal record, and ending with a record whose open snapshot
    is empty. *)
Theorem unreachable_goal (graph : Graph) (heuristic : Heuristic) (start goal : string)
    (start_time end_time : Z) :
  wf_graph graph → start ∈ dom graph → goal ∈ dom graph →
  dom graph ⊆ dom heuristic →
  (∀ p c, ¬ walk graph start p goal c) →
  exhausted_result graph start
    (dfs_collect_trace graph start goal start_time end_time) ∧
  exhausted_result graph start
    (bfs_collect_trace graph start goal start_time end_time) ∧
  exhausted_result graph start
    (astar_collect_trace graph start goal heuristic start_time end_time).
Proof.
  intros Hwf Hs _ Hh Hun. split_and!.
  - apply (run_exhausted_result dfs_view stack_top (λ _, True) "GOAL FOUND!" graph goal
             start (dfs_body graph goal start_time end_time)
             (dfs_body_step graph goal start_time end_time)
             (dfs_init start goal) (search_fuel graph) (start, [start], 0) _
             (dfs_init_basic graph start goal) eq_refl eq_refl eq_refl eq_refl eq_refl
             eq_refl eq_refl eq_refl Hun).
    apply (dfs_returns graph start goal start_time end_time Hwf Hs).
  - apply (run_exhausted_result dfs_view queue_head (λ _, True) "GOAL FOUND!" graph goal
             start (bfs_body graph goal start_time end_time)
             (bfs_body_step graph goal start_time end_time)
             (bfs_init start goal) (search_fuel graph) (start, [start], 0) _
             (bfs_init_basic graph start goal) eq_refl eq_refl eq_refl eq_refl eq_refl
             eq_refl eq_refl eq_refl Hun).
    apply (bfs_returns graph start goal start_time end_time Hwf Hs).
  - pose proof (astar_returns graph start goal heuristic start_time end_time Hwf Hs Hh)
      as Hret.
    unfold astar_collect_trace in *.
    destruct (heuristic !! start) as [h_start|]; [|by destruct Hret].
    apply (run_exhausted_result astar_view heap_top (has_h heuristic) "OPTIMAL GOAL!"
             graph goal start (astar_body graph goal heuristic start_time end_time)
             (astar_body_step graph goal heuristic start_time end_time)
             (astar_init start goal h_start) (search_fuel graph)
             (h_start, 0, start, [start]) _
             (astar_init_basic graph start goal h_start) eq_refl eq_refl eq_refl eq_refl
             eq_refl eq_refl eq_refl eq_refl Hun Hret).
Qed.

(** ** Runs of several rounds *)

(** [n] rounds of the loop from [s], when none of them leaves it. *)
Fixpoint rounds {S R : Type} (body : S → S + R) (n : nat) (s : S) : option S :=
  match n with
  | O => Some s
  | S k => match body s with
           | inl s' => rounds body k s'
           | inr _ => None
           end
  end.

Lemma runs_first {S R : Type} (body : S → S + R) (s s1 s' : S) :
  body s = inl s1 → runs body s1 s' → runs body s s'.
Proof.
  intros Hb Hruns. induction Hruns as [|s2 s3 Hruns IH Hb2].
  - eapply runs_step; [apply runs_refl|done].
  - eapply runs_step; [exact IH|done].
Qed.

Lemma rounds_runs {S R : Type} (body : S → S + R) (n : nat) (s s' : S) :
  rounds body n s = Some s' → runs body s s'.
Proof.
  revert s. induction n as [|k IH]; intros s; simpl.
  - intros [= <-]. apply runs_refl.
  - destruct (body s) as [s1|r] eqn:Hb; [|done].
    intros H. eapply runs_first; [exact Hb|]. by apply IH.
Qed.

(** A triangle of roads, and a town that no road leads to. *)
Definition loop_graph : Graph := list_to_map [
  ("A", [("B", 1); ("C", 4)]); ("B", [("A", 1); ("C", 2)]);
  ("C", [("A", 4); ("B", 2)]); ("D", []) ].

(** Three states of a search from [init], each reached by rounds of the
    loop and each with the discipline of the closed set: [s1], where the
    closed set has one node and the next round adds a second; [s2], where it
    has [n] nodes and the next round pops a node that is closed already and
    adds nothing; [s3], where the next round returns a Result that counts
    [n] expanded nodes. *)
Definition three_kinds_of_round {E O} (body : State E O → State E O + Outcome O)
    (init : State E O) (n : nat) : Prop :=
  ∃ s1 s1' s2 s2' s3 r,
    (runs body init s1 ∧ closed_set_discipline body s1 ∧ body s1 = inl s1' ∧
     size (closed_set s1) = 1%nat ∧ size (closed_set s1') = 2%nat ∧
     nodes_expanded s1' = 2%nat) ∧
    (runs body init s2 ∧ closed_set_discipline body s2 ∧ body s2 = inl s2' ∧
     size (closed_set s2) = n ∧ closed_set s2' = closed_set s2 ∧
     nodes_expanded s2' = n) ∧
    (runs body init s3 ∧ closed_set_discipline body s3 ∧ body s3 = inr (Returned r) ∧
     size (closed_set s3) = n ∧ r_nodes_expanded r = n ∧
     closed_monotone (r_trace r) ∧ (n < length (r_trace r))%nat).

Lemma unreachable_goal_witness :
  wf_graph two_islands ∧ "A" ∈ dom two_islands ∧ "C" ∈ dom two_islands ∧
  dom two_islands ⊆ dom flat_heuristic ∧
  (∀ p c, ¬ walk two_islands "A" p "C" c) ∧
  exhausted_result two_islands "A" (dfs_collect_trace two_islands "A" "C" 0 1) ∧
  exhausted_result two_islands "A" (bfs_collect_trace two_islands "A" "C" 0 1) ∧
  exhausted_result two_islands "A"
    (astar_collect_trace two_islands "A" "C" flat_heuristic 0 1).
Proof.
  assert (Hs : "A" ∈ dom two_islands) by compute_done.
  assert (Hg : "C" ∈ dom two_islands) by compute_done.
  assert (Hd : dom two_islands ⊆ dom flat_heuristic) by compute_done.
  split_and!; [apply two_islands_wf|done|done|done|apply two_islands_apart|..];
    apply (unreachable_goal two_islands flat_heuristic "A" "C" 0 1 two_islands_wf Hs Hg
             Hd two_islands_apart).
Defined.

(** The three states of [three_kinds_of_round] after one, three and four
    rounds; [H] is the discipline in the states that [body] reaches. *)
Ltac after_rounds H body init :=
  let H1 := fresh "H1" in
  let H2 := fresh "H2" in
  let H3 := fresh "H3" in
  assert (H1 : runs body init (default init (rounds body 1 init)))
    by (apply (rounds_runs body 1); vm_compute; reflexivity);
  assert (H2 : runs body init (default init (rounds body 3 init)))
    by (apply (rounds_runs body 3); vm_compute; reflexivity);
  assert (H3 : runs body init (default init (rounds body 4 init)))
    by (apply (rounds_runs body 4); vm_compute; reflexivity);
  exists (default init (rounds body 1 init)), (default init (rounds body 2 init)),
    (default init (rounds body 3 init)), (default init (rounds body 4 init)),
    (default init (rounds body 4 init));
  eexists; split; [|split];
  [ split_and!; [exact H1|exact (H _ H1)|vm_compute; reflexivity..]
  | split_and!; [exact H2|exact (H _ H2)|vm_compute; reflexivity..]
  | split_and!;
    [ exact H3 | exact (H _ H3)
    | vm_compute; reflexivity | vm_compute; reflexivity | vm_compute; reflexivity
    | refine (proj2 (proj2 (proj2 (H _ H3)) _ _)); vm_compute; reflexivity
    | vm_compute; lia ] ].

Lemma closed_set_monotone_witness :
  three_kinds_of_round (dfs_body loop_graph "D" 0 1) (dfs_init "A" "D") 3 ∧
  three_kinds_of_round (bfs_body loop_graph "D" 0 1) (bfs_init "A" "D") 3 ∧
  three_kinds_of_round (astar_body loop_graph "D" flat_heuristic 0 1)
    (astar_init "A" "D" 0) 3.
Proof.
  destruct (closed_set_monotone loop_graph flat_heuristic "A" "D" 0 1) as (Hd & Hb & Ha).
  specialize (Ha 0).
  split_and!.
  - after_rounds Hd (dfs_body loop_graph "D" 0 1) (dfs_init "A" "D").
  - after_rounds Hb (bfs_body loop_graph "D" 0 1) (bfs_init "A" "D").
  - after_rounds Ha (astar_body loop_graph "D" flat_heuristic 0 1) (astar_init "A" "D" 0).
Defined.

Lemma astar_pops_least_f_witness :
  ∃ st,
    heuristic !! "Glogow" = Some 280 ∧
    runs (astar_body graph "Plock" heuristic 0 1) (astar_init "Glogow" "Plock" 280) st ∧
    pq_snapshot (st_open st) =
      [(375, "Bydgoszcz"); (405, "Konin"); (395, "Kalisz"); (440, "Wroclaw")] ∧
    heappop entry_ltb (st_open st) =
      Some ((375, 275, "Bydgoszcz", ["Glogow"; "Leszno"; "Poznan"; "Bydgoszcz"]),
            [(395, 175, "Kalisz", ["Glogow"; "Leszno"; "Kalisz"]);
             (405, 255, "Konin", ["Glogow"; "Leszno"; "Poznan"; "Konin"]);
             (440, 140, "Wroclaw", ["Glogow"; "Wroclaw"])]) ∧
    heuristic !! "Bydgoszcz" = Some (375 - 275) ∧
    st_open st ≡ₚ
      (375, 275, "Bydgoszcz", ["Glogow"; "Leszno"; "Poznan"; "Bydgoszcz"]) ::
      [(395, 175, "Kalisz", ["Glogow"; "Leszno"; "Kalisz"]);
       (405, 255, "Konin", ["Glogow"; "Leszno"; "Poznan"; "Konin"]);
       (440, 140, "Wroclaw", ["Glogow"; "Wroclaw"])] ∧
    ∀ f g n p, (f, g, n, p) ∈ st_open st → 375 ≤ f.
Proof.
  pose (body := astar_body graph "Plock" heuristic 0 1).
  pose (init := astar_init "Glogow" "Plock" 280).
  assert (H1 : heuristic !! "Glogow" = Some 280) by (vm_compute; reflexivity).
  assert (H2 : runs body init (default init (rounds body 3 init)))
    by (apply (rounds_runs body 3); vm_compute; reflexivity).
  assert (H3 : heappop entry_ltb (st_open (default init (rounds body 3 init))) =
               Some ((375, 275, "Bydgoszcz", ["Glogow"; "Leszno"; "Poznan"; "Bydgoszcz"]),
                     [(395, 175, "Kalisz", ["Glogow"; "Leszno"; "Kalisz"]);
                      (405, 255, "Konin", ["Glogow"; "Leszno"; "Poznan"; "Konin"]);
                      (440, 140, "Wroclaw", ["Glogow"; "Wroclaw"])]))
    by (vm_compute; reflexivity).
  exists (default init (rounds body 3 init)).
  split_and!; [exact H1|exact H2|vm_compute; reflexivity|exact H3|..];
    apply (astar_pops_least_f graph heuristic "Glogow" "Plock" 0 1 280 _ _ _ _ _ _
             H1 H2 H3).
Defined.
